(** * Quantum Fragility Playground: the simulation core, embedded and verified

    The development follows the repository's layout:
    - [JsNumber]   the values of the JavaScript type [number] that the
                   stepper manipulates (reals with NaN and the two infinities,
                   and the binary64 range beyond which a result is infinite);
    - [Bloch]      [src/hooks/useBlochState.ts]: [applyNoiseStep] and the
                   [useTimeEvolution] hook (loop tick, [resetTo], [scrubToIndex]);
    - [Gates]      [applyGate] of the QASM visualizer and [applyGateToBloch],
                   [applyDecoherence] of the Qiskit visualizer;
    - [Rand], [Sim] the server's samplers ([simulateBell], [simulateGhz],
                   [runBb84]) over an explicit source of [Math.random] draws;
    - [Server]     the validation of [POST /api/experiments/bell];
    - [Qasm], [Qiskit] the two circuit parsers. *)

From Stdlib Require Import Reals Lra Psatz.
From Stdlib Require Import ZArith QArith List Bool Lia.
From Stdlib Require Import Ascii String.
From Stdlib Require Import Decimal DecimalString DecimalN.
Import ListNotations.

(* ================================================================== *)
(** * JavaScript numbers *)
(* ================================================================== *)

Module JsNumber.

(** A [number] is NaN, one of the two infinities, or a finite value.  NaN and
    the infinities propagate as IEEE 754 and ECMAScript prescribe, and the two
    zeros are identified.  Finite arithmetic comes in two layers:
    - [add], [sub], [mul], [div] are the exact operations on the reals; the
      visualizers, whose vectors stay in the Bloch ball, are stated on them;
    - [fadd], [fsub], [fmul], [fdiv] and [exp] are the operations with the
      binary64 range: a result beyond [MAX_VALUE] in magnitude is the infinity
      of its sign.  The noise stepper, whose parameters are unbounded, is
      written with them.
    The rounding of binary64 inside the range (gradual underflow included) is
    not modelled. *)
Inductive number : Type :=
| NaN : number
| PInf : number
| NInf : number
| Fin (r : R) : number.

Declare Scope js_scope.
Delimit Scope js_scope with js.
Bind Scope js_scope with number.

(** Sign of a real, as the IEEE rules for products and quotients need it. *)
Inductive sign := Neg | Zero | Pos.

Definition sgn (r : R) : sign :=
  match total_order_T r 0 with
  | inleft (left _) => Neg
  | inleft (right _) => Zero
  | inright _ => Pos
  end.

Definition neg (a : number) : number :=
  match a with
  | NaN => NaN
  | PInf => NInf
  | NInf => PInf
  | Fin r => Fin (- r)
  end.

Definition add (a b : number) : number :=
  match a, b with
  | NaN, _ => NaN
  | _, NaN => NaN
  | PInf, NInf => NaN
  | NInf, PInf => NaN
  | PInf, _ => PInf
  | NInf, _ => NInf
  | Fin _, PInf => PInf
  | Fin _, NInf => NInf
  | Fin r, Fin s => Fin (r + s)
  end.

Definition sub (a b : number) : number := add a (neg b).

(** An infinity scaled by a finite factor. *)
Definition scale_inf (positive : bool) (r : R) : number :=
  match sgn r with
  | Zero => NaN
  | Pos => if positive then PInf else NInf
  | Neg => if positive then NInf else PInf
  end.

Definition mul (a b : number) : number :=
  match a, b with
  | NaN, _ => NaN
  | _, NaN => NaN
  | PInf, PInf => PInf
  | PInf, NInf => NInf
  | NInf, PInf => NInf
  | NInf, NInf => PInf
  | PInf, Fin s => scale_inf true s
  | NInf, Fin s => scale_inf false s
  | Fin r, PInf => scale_inf true r
  | Fin r, NInf => scale_inf false r
  | Fin r, Fin s => Fin (r * s)
  end.

(** Division; a finite zero divisor is the positive zero. *)
Definition div (a b : number) : number :=
  match a, b with
  | NaN, _ => NaN
  | _, NaN => NaN
  | PInf, PInf | PInf, NInf | NInf, PInf | NInf, NInf => NaN
  | PInf, Fin s => match sgn s with Neg => NInf | _ => PInf end
  | NInf, Fin s => match sgn s with Neg => PInf | _ => NInf end
  | Fin _, PInf | Fin _, NInf => Fin 0
  | Fin r, Fin s =>
      match sgn s with
      | Zero => match sgn r with Zero => NaN | Pos => PInf | Neg => NInf end
      | _ => Fin (r / s)
      end
  end.

(** ** The binary64 range *)

(** [Number.MAX_VALUE], the largest finite binary64 value: 2^1024 - 2^971. *)
Definition MAX_VALUE : R := IZR (2 ^ 1024 - 2 ^ 971).

Arguments MAX_VALUE : simpl never.

(** A real that a finite binary64 value can stand for. *)
Definition in_range (r : R) : Prop := (- MAX_VALUE <= r <= MAX_VALUE)%R.

(** What an operation delivers when its exact result is [a]: beyond
    [MAX_VALUE] in magnitude, the infinity of that sign.  (The half unit in
    the last place above [MAX_VALUE] that still rounds down to it belongs to
    the rounding, which is not modelled.) *)
Definition overflow (a : number) : number :=
  match a with
  | Fin r =>
      if Rlt_dec MAX_VALUE r then PInf
      else if Rlt_dec r (- MAX_VALUE) then NInf
      else Fin r
  | _ => a
  end.

(** The four operations as binary64 performs them. *)
Definition fadd (a b : number) : number := overflow (add a b).
Definition fsub (a b : number) : number := overflow (sub a b).
Definition fmul (a b : number) : number := overflow (mul a b).
Definition fdiv (a b : number) : number := overflow (div a b).

(** [Math.sqrt], [Math.exp], [Math.cos], [Math.sin] with the special cases of
    ECMAScript.  Of the four only [Math.exp] can leave the range (it is
    infinite from about 709.78 on). *)
Definition sqrt (a : number) : number :=
  match a with
  | NaN => NaN
  | PInf => PInf
  | NInf => NaN
  | Fin r => match sgn r with Neg => NaN | _ => Fin (R_sqrt.sqrt r) end
  end.

Definition exp (a : number) : number :=
  match a with
  | NaN => NaN
  | PInf => PInf
  | NInf => Fin 0
  | Fin r => overflow (Fin (Rtrigo_def.exp r))
  end.

Definition cos (a : number) : number :=
  match a with
  | Fin r => Fin (Rtrigo_def.cos r)
  | _ => NaN
  end.

Definition sin (a : number) : number :=
  match a with
  | Fin r => Fin (Rtrigo_def.sin r)
  | _ => NaN
  end.

(** [a > b]: false as soon as one side is NaN. *)
Definition gtb (a b : number) : bool :=
  match a, b with
  | NaN, _ => false
  | _, NaN => false
  | PInf, PInf => false
  | PInf, _ => true
  | NInf, _ => false
  | Fin _, PInf => false
  | Fin _, NInf => true
  | Fin r, Fin s => if Rlt_dec s r then true else false
  end.

(** Truthiness of a number: NaN and zero are falsy. *)
Definition truthy (a : number) : bool :=
  match a with
  | NaN => false
  | Fin r => match sgn r with Zero => false | _ => true end
  | _ => true
  end.

(** [a || b] on numbers. *)
Definition or_else (a b : number) : number := if truthy a then a else b.

Definition is_nan (a : number) : bool :=
  match a with NaN => true | _ => false end.

(** [Number.isFinite]. *)
Definition is_finite (a : number) : bool :=
  match a with Fin _ => true | _ => false end.

Definition is_inf (a : number) : bool :=
  match a with PInf | NInf => true | _ => false end.

Notation "a + b" := (add a b) : js_scope.
Notation "a - b" := (sub a b) : js_scope.
Notation "a * b" := (mul a b) : js_scope.
Notation "a / b" := (div a b) : js_scope.
Notation "- a" := (neg a) : js_scope.
Notation "a +~ b" := (fadd a b) (at level 50, left associativity) : js_scope.
Notation "a -~ b" := (fsub a b) (at level 50, left associativity) : js_scope.
Notation "a *~ b" := (fmul a b) (at level 40, left associativity) : js_scope.
Notation "a /~ b" := (fdiv a b) (at level 40, left associativity) : js_scope.
Notation "a >? b" := (gtb a b) (at level 70) : js_scope.
Notation "a '|||' b" := (or_else a b) (at level 50, left associativity) : js_scope.

End JsNumber.

(* ================================================================== *)
(** * The noise stepper and the evolution hook ([useBlochState.ts]) *)
(* ================================================================== *)

Module Bloch.
Import JsNumber.
Local Open Scope js_scope.

(** [types/quantum.ts] *)
Record BlochVector : Type := mkBloch { x : number; y : number; z : number }.

Record NoiseParams : Type := mkNoise {
  depolarizing : number;
  phaseFlip : number;
  bitFlip : number;
  amplitudeDamping : number;
  speed : number
}.

Definition BASE_DT : number := Fin 0.01.

(** The sections of [applyNoiseStep], in the order of the source.  Each takes
    the running [(x, y, z)] and the rate multiplier.  The signs [*~ +~ -~ /~]
    are the binary64 operations. *)

(** 0. Larmor precession around the Z axis. *)
Definition precess (rateMultiplier dt : number) (v : BlochVector) : BlochVector :=
  let omega := Fin 5 *~ rateMultiplier in
  let theta := omega *~ dt in
  let cosT := cos theta in
  let sinT := sin theta in
  let xPre := x v *~ cosT -~ y v *~ sinT in
  let yPre := x v *~ sinT +~ y v *~ cosT in
  mkBloch xPre yPre (z v).

(** 1. Depolarizing. *)
Definition depolarize (noise : NoiseParams) (rateMultiplier dt : number)
    (v : BlochVector) : BlochVector :=
  if depolarizing noise >? Fin 0 then
    let gammaDep := depolarizing noise *~ Fin 2 *~ rateMultiplier in
    let factor := exp (- gammaDep *~ dt) in
    mkBloch (x v *~ factor) (y v *~ factor) (z v *~ factor)
  else v.

(** 2. Amplitude damping (T1). *)
Definition amplitudeDamp (noise : NoiseParams) (rateMultiplier dt : number)
    (v : BlochVector) : BlochVector :=
  if amplitudeDamping noise >? Fin 0 then
    let gamma1 := amplitudeDamping noise *~ Fin 1.5 *~ rateMultiplier in
    let factorXY := exp (- gamma1 *~ dt /~ Fin 2) in
    let factorZ := exp (- gamma1 *~ dt) in
    mkBloch (x v *~ factorXY) (y v *~ factorXY)
            (Fin 1 -~ (Fin 1 -~ z v) *~ factorZ)
  else v.

(** 3. Phase flip (dephasing). *)
Definition dephase (noise : NoiseParams) (rateMultiplier dt : number)
    (v : BlochVector) : BlochVector :=
  if phaseFlip noise >? Fin 0 then
    let gammaPhi := phaseFlip noise *~ Fin 3 *~ rateMultiplier in
    let factor := exp (- gammaPhi *~ dt) in
    mkBloch (x v *~ factor) (y v *~ factor) (z v)
  else v.

(** 4. Bit flip. *)
Definition bitflip (noise : NoiseParams) (rateMultiplier dt : number)
    (v : BlochVector) : BlochVector :=
  if bitFlip noise >? Fin 0 then
    let gammaX := bitFlip noise *~ Fin 2 *~ rateMultiplier in
    let factor := exp (- gammaX *~ dt) in
    mkBloch (x v) (y v *~ factor) (z v *~ factor)
  else v.

(** [const r2 = x * x + y * y + z * z] of the safety clamp. *)
Definition r2 (v : BlochVector) : number :=
  x v *~ x v +~ y v *~ y v +~ z v *~ z v.

(** Safety clamp. *)
Definition clamp (v : BlochVector) : BlochVector :=
  if r2 v >? Fin 1.000001 then
    let r := sqrt (r2 v) in
    mkBloch (x v /~ r) (y v /~ r) (z v /~ r)
  else v.

(** [return { x: x || 0, y: y || 0, z: z || 0 }] *)
Definition sanitize (v : BlochVector) : BlochVector :=
  mkBloch (x v ||| Fin 0) (y v ||| Fin 0) (z v ||| Fin 0).

Definition applyNoiseStep (v : BlochVector) (noise : NoiseParams) (dt : number)
    : BlochVector :=
  let rateMultiplier := speed noise ||| Fin 1 in
  let v := precess rateMultiplier dt v in
  let v := depolarize noise rateMultiplier dt v in
  let v := amplitudeDamp noise rateMultiplier dt v in
  let v := dephase noise rateMultiplier dt v in
  let v := bitflip noise rateMultiplier dt v in
  let v := clamp v in
  sanitize v.

(** The vector the stepper holds when it reaches the safety clamp. *)
Definition beforeClamp (v : BlochVector) (noise : NoiseParams) (dt : number)
    : BlochVector :=
  let rateMultiplier := speed noise ||| Fin 1 in
  bitflip noise rateMultiplier dt
    (dephase noise rateMultiplier dt
      (amplitudeDamp noise rateMultiplier dt
        (depolarize noise rateMultiplier dt (precess rateMultiplier dt v)))).

(** The rotation angle [theta] of the precession. *)
Definition theta (noise : NoiseParams) (dt : number) : number :=
  Fin 5 *~ (speed noise ||| Fin 1) *~ dt.

(** [x ** 2 + y ** 2 + z ** 2] in exact arithmetic, and its root
    [Math.sqrt(x ** 2 + y ** 2 + z ** 2)], the length the hooks and the
    visualizers display. *)
Definition r2_of (v : BlochVector) : number :=
  x v * x v + y v * y v + z v * z v.

Definition blen (v : BlochVector) : number := sqrt (r2_of v).

(** [n] successive calls of the stepper with the fixed [BASE_DT], as the
    [for] loop of [loop] performs them. *)
Fixpoint stepN (n : nat) (noise : NoiseParams) (v : BlochVector) : BlochVector :=
  match n with
  | O => v
  | S n' => stepN n' noise (applyNoiseStep v noise BASE_DT)
  end.

(** ** The [useTimeEvolution] hook *)

(** The hook's cells: the two React states it publishes, [running], and the
    refs the callbacks read and write. *)
Record Evolution : Type := mkEvolution {
  state : BlochVector;
  history : list BlochVector;
  running : bool;
  stateRef : BlochVector;
  historyRef : list BlochVector
}.

Definition MAX_HISTORY : nat := 600.

(** [arr.slice(-n)]: the last [n] elements. *)
Definition slice_last {A} (n : nat) (l : list A) : list A :=
  skipn (List.length l - n) l.

(** One run of [loop], [steps] being [Math.max(1, Math.round(elapsed / BASE_DT))]
    as computed from the frame's timestamp. *)
Definition loop (steps : nat) (noise : NoiseParams) (e : Evolution) : Evolution :=
  let v := stepN (Nat.max 1 steps) noise (stateRef e) in
  let h := slice_last MAX_HISTORY (historyRef e ++ [v]) in
  mkEvolution v h (running e) v h.

Definition resetTo (next : BlochVector) (e : Evolution) : Evolution :=
  mkEvolution next [next] (running e) next [next].

(** [historyRef.current[index]]: [undefined] (here [None]) outside the array. *)
Definition at_index {A} (l : list A) (index : Z) : option A :=
  if (index <? 0)%Z then None else nth_error l (Z.to_nat index).

Definition scrubToIndex (index : Z) (e : Evolution) : Evolution :=
  match at_index (historyRef e) index with
  | None => e
  | Some target =>
      mkEvolution target (history e) false target (historyRef e)
  end.

(** What the spec calls [clamp(i, 0, len-1)]. *)
Definition clamp_index (i : Z) (len : nat) : nat :=
  Z.to_nat (Z.max 0 (Z.min i (Z.of_nat len - 1))).

(** The other copy of the hook (the one that steps on a timer) scrubs
    differently: [setHistory(h => { if (!h.length) return h;
    const i = clamp(index, 0, h.length - 1); setState(h[i]); return h })].
    It clamps, and it does not touch [running]. *)
Definition scrubToIndex_timer (index : Z) (e : Evolution) : Evolution :=
  match nth_error (history e) (clamp_index index (List.length (history e))) with
  | None => e
  | Some target =>
      mkEvolution target (history e) (running e) (stateRef e) (historyRef e)
  end.

(** ** Predicates used by the statements *)

(** A vector of finite components whose squared length, in exact arithmetic,
    is at most [b]. *)
Definition ball (b : R) (v : BlochVector) : Prop :=
  exists a1 a2 a3 : R,
    v = mkBloch (Fin a1) (Fin a2) (Fin a3) /\ (a1 * a1 + a2 * a2 + a3 * a3 <= b)%R.

(** The same of a vector of binary64 values: the components are finite, so
    within [MAX_VALUE], and the squared length is at most [b].  For [b] up to
    [MAX_VALUE] squared the range is implied, and this is [ball b]. *)
Definition in_ball (b : R) (v : BlochVector) : Prop :=
  exists a1 a2 a3 : R,
    v = mkBloch (Fin a1) (Fin a2) (Fin a3) /\
    (a1 * a1 + a2 * a2 + a3 * a3 <= b)%R /\
    in_range a1 /\ in_range a2 /\ in_range a3.

(** The Euclidean length [blen v] is a finite number, at most [bound]. *)
Definition length_le (v : BlochVector) (bound : R) : Prop :=
  exists l : R, blen v = Fin l /\ (l <= bound)%R.

(** A vector whose three components are finite. *)
Definition finite_vec (v : BlochVector) : Prop := exists b, ball b v.

Definition finite_noise (n : NoiseParams) : Prop :=
  exists d p b a s : R, n = mkNoise (Fin d) (Fin p) (Fin b) (Fin a) (Fin s).

Definition no_nan (v : BlochVector) : Prop :=
  is_nan (x v) = false /\ is_nan (y v) = false /\ is_nan (z v) = false.

Definition all_finite (v : BlochVector) : Prop :=
  is_finite (x v) = true /\ is_finite (y v) = true /\ is_finite (z v) = true.

Definition non_finite_input (v : BlochVector) : Prop :=
  is_finite (x v) = false \/ is_finite (y v) = false \/ is_finite (z v) = false.

(** ** What the stepper holds between two sections

    Between the precession and the clamp a component may have left the
    range or become NaN. *)

(** A rate [gamma]: positive, possibly infinite.  An exponent [-gamma * dt]:
    at most zero, possibly minus infinity. *)
Definition positive (a : number) : Prop :=
  match a with
  | PInf => True
  | Fin g => (0 < g <= MAX_VALUE)%R
  | _ => False
  end.

Definition nonpositive (a : number) : Prop :=
  match a with
  | NInf => True
  | Fin m => (- MAX_VALUE <= m <= 0)%R
  | _ => False
  end.

(** A component is NaN, infinite, or finite within the range. *)
Definition held (a : number) : Prop :=
  match a with
  | Fin r => in_range r
  | _ => True
  end.

(** What a component adds to the squared length once NaN has been replaced by
    0: the square of a finite value. *)
Definition sq (a : number) : R :=
  match a with
  | Fin r => (r * r)%R
  | _ => 0%R
  end.

(** [a'] is [a] after a section that scales by a factor of [0, 1]: no larger,
    infinite only if [a] was, finite if [a] was. *)
Definition shrunk (a a' : number) : Prop :=
  held a' /\ (sq a' <= sq a)%R /\
  (is_inf a' = true -> is_inf a = true) /\
  (is_finite a = true -> is_finite a' = true).

(** A running vector that the clamp and the final [|| 0] bring into the ball
    of squared radius [b]: [z] is finite, the finite components make a
    squared length of at most [b], and an infinite [x] or [y] (the rotation
    can overflow one of the two) has a finite partner. *)
Definition tame (b : R) (v : BlochVector) : Prop :=
  held (x v) /\ held (y v) /\ held (z v) /\ is_finite (z v) = true /\
  (sq (x v) + sq (y v) + sq (z v) <= b)%R /\
  (is_inf (x v) = true -> is_finite (y v) = true) /\
  (is_inf (y v) = true -> is_finite (x v) = true).

(** Inputs used in the examples. *)
Definition quiet : NoiseParams :=
  mkNoise (Fin 0) (Fin 0) (Fin 0) (Fin 0) (Fin 1).

Definition noisy : NoiseParams :=
  mkNoise (Fin 0.5) (Fin 0.2) (Fin 0.1) (Fin 0.3) (Fin 1).



Definition plus : BlochVector := mkBloch (Fin 1) (Fin 0) (Fin 0).
Definition zero : BlochVector := mkBloch (Fin 0) (Fin 0) (Fin 1).
Definition one : BlochVector := mkBloch (Fin 0) (Fin 0) (Fin (-1)).

(** A vector with a NaN component next to an infinite one. *)
Definition nan_inf : BlochVector := mkBloch NaN (Fin 0) PInf.

(** A hook that was reset to [v] and is running. *)
Definition started (v : BlochVector) : Evolution :=
  mkEvolution v [v] true v [v].

End Bloch.

(* ================================================================== *)
(** * Facts about numbers *)
(* ================================================================== *)

Module JsNumberFacts.
Import JsNumber.
Local Open Scope R_scope.

Lemma sgn_pos (r : R) : 0 < r -> sgn r = Pos.
Proof.
  intros H. unfold sgn.
  destruct (total_order_T r 0) as [[Hlt | Heq] | Hgt]; [lra | lra | reflexivity].
Qed.

Lemma sgn_neg (r : R) : r < 0 -> sgn r = Neg.
Proof.
  intros H. unfold sgn.
  destruct (total_order_T r 0) as [[Hlt | Heq] | Hgt]; [reflexivity | lra | lra].
Qed.

Lemma sgn_zero : sgn 0 = Zero.
Proof.
  unfold sgn.
  destruct (total_order_T 0 0) as [[Hlt | Heq] | Hgt]; [lra | reflexivity | lra].
Qed.

Lemma sgn_Zero_inv (r : R) : sgn r = Zero -> r = 0.
Proof.
  unfold sgn.
  destruct (total_order_T r 0) as [[Hlt | Heq] | Hgt]; intros E;
    [discriminate | assumption | discriminate].
Qed.

Lemma gtb_fin_true (a b : R) : gtb (Fin a) (Fin b) = true <-> b < a.
Proof.
  simpl. destruct (Rlt_dec b a); split; intros; try assumption;
    try reflexivity; try discriminate; contradiction.
Qed.

Lemma gtb_fin_false (a b : R) : gtb (Fin a) (Fin b) = false <-> a <= b.
Proof.
  simpl. destruct (Rlt_dec b a); split; intros; try lra;
    try reflexivity; try discriminate.
Qed.

(** [r || d] keeps a finite non-zero [r] and falls back to [d] on zero. *)
Lemma or_else_fin (r d : R) :
  or_else (Fin r) (Fin d) = Fin r /\ r <> 0 \/ or_else (Fin r) (Fin d) = Fin d /\ r = 0.
Proof.
  unfold or_else, truthy.
  destruct (sgn r) eqn:E.
  - left. split; [reflexivity|]. intros ->. rewrite sgn_zero in E. discriminate.
  - right. split; [reflexivity|]. now apply sgn_Zero_inv.
  - left. split; [reflexivity|]. intros ->. rewrite sgn_zero in E. discriminate.
Qed.

Lemma or_else_fin_zero (r : R) : or_else (Fin r) (Fin 0) = Fin r.
Proof.
  destruct (or_else_fin r 0) as [[E _] | [E Hr]]; rewrite E; [reflexivity|].
  now rewrite Hr.
Qed.


(** Whatever the operands, [a || b] with a non-NaN [b] is not NaN. *)
Lemma or_else_not_nan (a b : number) :
  is_nan b = false -> is_nan (or_else a b) = false.
Proof.
  intros Hb. unfold or_else.
  destruct a as [ | | | r]; simpl; try assumption; try reflexivity.
  destruct (sgn r); simpl; auto.
Qed.

Lemma neg_involutive (a : number) : neg (neg a) = a.
Proof.
  destruct a as [ | | | r]; simpl; try reflexivity.
  now rewrite Ropp_involutive.
Qed.

Lemma div_fin_pos (a r : R) : 0 < r -> div (Fin a) (Fin r) = Fin (a / r).
Proof. intros H. simpl. now rewrite (sgn_pos r H). Qed.

Lemma sqrt_fin_pos (r : R) : 0 < r -> sqrt (Fin r) = Fin (R_sqrt.sqrt r).
Proof. intros H. simpl. now rewrite (sgn_pos r H). Qed.

Lemma sqrt_fin_nonneg (r : R) : 0 <= r -> sqrt (Fin r) = Fin (R_sqrt.sqrt r).
Proof.
  intros [H | <-]; [now apply sqrt_fin_pos|].
  simpl. now rewrite sgn_zero.
Qed.

(** [exp (-t)] lies in (0, 1] for a non-negative [t]. *)
Lemma exp_decay_range (t : R) : 0 <= t -> 0 < Rtrigo_def.exp (- t) <= 1.
Proof.
  intros Ht. split; [apply exp_pos|].
  destruct Ht as [Ht | <-].
  - left. rewrite <- exp_0. apply exp_increasing. lra.
  - rewrite Ropp_0, exp_0. lra.
Qed.

Lemma exp_half_square (t : R) :
  Rtrigo_def.exp (t / 2) * Rtrigo_def.exp (t / 2) = Rtrigo_def.exp t.
Proof. rewrite <- exp_plus. f_equal. lra. Qed.

(** ** The range *)

Lemma MAX_VALUE_large : 1000000000 <= MAX_VALUE.
Proof. unfold MAX_VALUE. apply IZR_le, Z.leb_le. vm_compute. reflexivity. Qed.


Lemma in_range_small (r : R) : -1000000000 <= r <= 1000000000 -> in_range r.
Proof. pose proof MAX_VALUE_large. unfold in_range. lra. Qed.

Lemma in_range_0 : in_range 0.
Proof. apply in_range_small. lra. Qed.

Lemma in_range_neg (r : R) : in_range r -> in_range (- r).
Proof. unfold in_range. lra. Qed.

(** Scaling by a factor of [-1, 1] stays in the range. *)
Lemma in_range_scale (a f : R) : in_range a -> -1 <= f <= 1 -> in_range (a * f).
Proof.
  unfold in_range. intros [H1 H2] [F1 F2].
  destruct (Rle_dec 0 a) as [Ha | Ha]; split; nra.
Qed.

Lemma overflow_fin (r : R) : in_range r -> overflow (Fin r) = Fin r.
Proof.
  intros [H1 H2]. unfold overflow.
  destruct (Rlt_dec MAX_VALUE r); [lra|].
  destruct (Rlt_dec r (- MAX_VALUE)); [lra | reflexivity].
Qed.


Lemma overflow_cases (r : R) :
  overflow (Fin r) = Fin r /\ in_range r \/
  overflow (Fin r) = PInf /\ MAX_VALUE < r \/
  overflow (Fin r) = NInf /\ r < - MAX_VALUE.
Proof.
  unfold overflow, in_range.
  destruct (Rlt_dec MAX_VALUE r); [right; left; now split|].
  destruct (Rlt_dec r (- MAX_VALUE)); [right; right; now split|].
  left. split; [reflexivity | lra].
Qed.

(** The operations on finite operands whose exact result is in the range. *)
Lemma fmul_fin (r s : R) : in_range (r * s) -> fmul (Fin r) (Fin s) = Fin (r * s).
Proof. intros H. unfold fmul. cbn [mul]. now apply overflow_fin. Qed.

Lemma fadd_fin (r s : R) : in_range (r + s) -> fadd (Fin r) (Fin s) = Fin (r + s).
Proof. intros H. unfold fadd. cbn [add]. now apply overflow_fin. Qed.

Lemma fsub_fin (r s : R) : in_range (r - s) -> fsub (Fin r) (Fin s) = Fin (r - s).
Proof. intros H. unfold fsub, sub. cbn [neg add]. now apply overflow_fin. Qed.

Lemma fdiv_fin (r s : R) :
  0 < s -> in_range (r / s) -> fdiv (Fin r) (Fin s) = Fin (r / s).
Proof. intros Hs H. unfold fdiv. rewrite (div_fin_pos r s Hs). now apply overflow_fin. Qed.

Lemma fdiv_fin_pinf (r : R) : fdiv (Fin r) PInf = Fin 0.
Proof. unfold fdiv. cbn [div]. apply overflow_fin, in_range_small. lra. Qed.

Lemma fadd_fin_fin (r s : R) : fadd (Fin r) (Fin s) = overflow (Fin (r + s)).
Proof. reflexivity. Qed.

(** NaN absorbs. *)
Lemma fadd_nan_r (a : number) : fadd a NaN = NaN.
Proof. now destruct a. Qed.

Lemma fmul_nan_r (a : number) : fmul a NaN = NaN.
Proof. now destruct a. Qed.

Lemma fadd_nan_l (a : number) : fadd NaN a = NaN.
Proof. reflexivity. Qed.

(** A square is finite and exact, or plus infinity. *)
Lemma fsquare_cases (r : R) :
  fmul (Fin r) (Fin r) = Fin (r * r) /\ in_range (r * r) \/
  fmul (Fin r) (Fin r) = PInf.
Proof.
  unfold fmul. cbn [mul].
  destruct (overflow_cases (r * r)) as [[E H] | [[E H] | [E H]]]; rewrite E; auto.
  pose proof MAX_VALUE_large. nra.
Qed.

(** Plus infinity absorbs squares. *)
Lemma fadd_pinf_square (r : R) : fadd PInf (fmul (Fin r) (Fin r)) = PInf.
Proof. destruct (fsquare_cases r) as [[E _] | E]; rewrite E; reflexivity. Qed.

Lemma fadd_square_pinf (r : R) : fadd (fmul (Fin r) (Fin r)) PInf = PInf.
Proof. destruct (fsquare_cases r) as [[E _] | E]; rewrite E; reflexivity. Qed.

(** ** [Math.exp] *)



Lemma exp_fin_nonpos (m : R) : m <= 0 -> exp (Fin m) = Fin (Rtrigo_def.exp m).
Proof.
  intros Hm. unfold exp. apply overflow_fin, in_range_small.
  pose proof (exp_pos m).
  assert (Rtrigo_def.exp m <= 1).
  { replace m with (- - m) by lra. apply exp_decay_range. lra. }
  lra.
Qed.

End JsNumberFacts.

(* ================================================================== *)
(** * The stepper on finite inputs *)
(* ================================================================== *)

Module BlochFacts.
Import JsNumber JsNumberFacts Bloch.
Local Open Scope R_scope.

(** ** Balls *)

Lemma in_ball_weaken (b b' : R) (v : BlochVector) :
  b <= b' -> in_ball b v -> in_ball b' v.
Proof.
  intros Hb (a1 & a2 & a3 & -> & H & F).
  exists a1, a2, a3. split; [reflexivity|]. split; [lra | exact F].
Qed.

Lemma in_ball_intro (b a1 a2 a3 : R) :
  a1 * a1 + a2 * a2 + a3 * a3 <= b ->
  in_range a1 -> in_range a2 -> in_range a3 ->
  in_ball b (mkBloch (Fin a1) (Fin a2) (Fin a3)).
Proof. intros. exists a1, a2, a3. tauto. Qed.

Lemma in_ball_ball (b : R) (v : BlochVector) : in_ball b v -> ball b v.
Proof. intros (a1 & a2 & a3 & -> & H & _). now exists a1, a2, a3. Qed.

(** A component of a vector of squared length at most [b * b] is at most [b]
    in magnitude. *)
Lemma component_bound (b a1 a2 a3 : R) :
  0 <= b -> a1 * a1 + a2 * a2 + a3 * a3 <= b * b -> - b <= a1 <= b.
Proof. intros Hb H. split; nra. Qed.

(** Up to a squared length of 1000000 the range is implied. *)
Lemma in_ball_small (b a1 a2 a3 : R) :
  a1 * a1 + a2 * a2 + a3 * a3 <= b -> b <= 1000000 ->
  in_ball b (mkBloch (Fin a1) (Fin a2) (Fin a3)).
Proof.
  intros H Hb. exists a1, a2, a3. split; [reflexivity|]. split; [exact H|].
  repeat split; apply in_range_small; nra.
Qed.

Lemma ball_in_ball (b : R) (v : BlochVector) :
  b <= 1000000 -> ball b v -> in_ball b v.
Proof. intros Hb (a1 & a2 & a3 & -> & H). now apply in_ball_small. Qed.

Lemma sq_nonneg (a : number) : 0 <= sq a.
Proof. destruct a as [ | | | r]; simpl; nra. Qed.

Lemma tame_intro (b : R) (vx vy vz : number) :
  held vx -> held vy -> held vz -> is_finite vz = true ->
  sq vx + sq vy + sq vz <= b ->
  (is_inf vx = true -> is_finite vy = true) ->
  (is_inf vy = true -> is_finite vx = true) ->
  tame b (mkBloch vx vy vz).
Proof. intros. unfold tame; cbn [x y z]. tauto. Qed.

(** ** Rates and decay factors *)

Lemma fmul_fin_positive (p k : R) :
  0 < p -> 0 < k -> positive (fmul (Fin p) (Fin k)).
Proof.
  intros Hp Hk. unfold fmul. cbn [mul].
  assert (0 < p * k) by now apply Rmult_lt_0_compat.
  pose proof MAX_VALUE_large.
  destruct (overflow_cases (p * k)) as [[E [H1 H2]] | [[E H1] | [E H1]]];
    rewrite E; cbn; lra || exact I.
Qed.

Lemma fmul_positive (a : number) (r : R) :
  positive a -> 0 < r -> positive (fmul a (Fin r)).
Proof.
  intros Ha Hr. destruct a as [ | | | g]; cbn in Ha; try contradiction.
  - unfold fmul. cbn [mul]. unfold scale_inf. rewrite (sgn_pos r Hr). exact I.
  - apply fmul_fin_positive; lra.
Qed.

Lemma fmul_neg_positive (a : number) (t : R) :
  positive a -> 0 < t -> nonpositive (fmul (neg a) (Fin t)).
Proof.
  intros Ha Ht. destruct a as [ | | | g]; cbn in Ha; try contradiction.
  - unfold fmul. cbn [neg mul]. unfold scale_inf. rewrite (sgn_pos t Ht). exact I.
  - unfold fmul. cbn [neg mul].
    assert (0 < g * t) by (apply Rmult_lt_0_compat; lra).
    pose proof MAX_VALUE_large.
    destruct (overflow_cases (- g * t)) as [[E [H1 H2]] | [[E H1] | [E H1]]];
      rewrite E; cbn; lra || exact I.
Qed.

Lemma fdiv_nonpositive (a : number) :
  nonpositive a -> nonpositive (fdiv a (Fin 2)).
Proof.
  intros Ha. destruct a as [ | | | m]; cbn in Ha; try contradiction.
  - unfold fdiv. cbn [div]. rewrite (sgn_pos 2) by lra. exact I.
  - rewrite fdiv_fin; [cbn; lra | lra | unfold in_range; lra].
Qed.

Lemma exp_nonpositive (a : number) :
  nonpositive a -> exists f, exp a = Fin f /\ 0 <= f <= 1.
Proof.
  intros Ha. destruct a as [ | | | m]; cbn in Ha; try contradiction.
  - exists 0. split; [reflexivity | lra].
  - exists (Rtrigo_def.exp m). rewrite exp_fin_nonpos by lra. split; [reflexivity|].
    pose proof (exp_pos m).
    assert (Rtrigo_def.exp m <= 1).
    { replace m with (- - m) by lra. apply exp_decay_range. lra. }
    lra.
Qed.

(** The two factors of the amplitude damping: the first is the square root
    of the second. *)
Lemma exp_half_nonpositive (a : number) :
  nonpositive a ->
  exists g f, exp (fdiv a (Fin 2)) = Fin g /\ exp a = Fin f /\
              0 <= g <= 1 /\ 0 <= f <= 1 /\ g * g = f.
Proof.
  intros Ha. destruct a as [ | | | m]; cbn in Ha; try contradiction.
  - exists 0, 0. unfold fdiv. cbn [div]. rewrite (sgn_pos 2) by lra.
    repeat split; try reflexivity; lra.
  - rewrite fdiv_fin; [| lra | unfold in_range; lra].
    rewrite !exp_fin_nonpos by lra.
    exists (Rtrigo_def.exp (m / 2)), (Rtrigo_def.exp m).
    pose proof (exp_pos m). pose proof (exp_pos (m / 2)).
    assert (Rtrigo_def.exp m <= 1).
    { replace m with (- - m) by lra. apply exp_decay_range. lra. }
    assert (Rtrigo_def.exp (m / 2) <= 1).
    { replace (m / 2) with (- - (m / 2)) by lra. apply exp_decay_range. lra. }
    repeat split; try reflexivity; try lra. apply exp_half_square.
Qed.

(** The exponent [-gamma * dt] of a section whose strength [p], rate
    multiplier [r] and time step [t] are positive. *)
Lemma decay_exponent (p k r t : R) :
  0 < p -> 0 < k -> 0 < r -> 0 < t ->
  nonpositive (fmul (neg (fmul (fmul (Fin p) (Fin k)) (Fin r))) (Fin t)).
Proof.
  intros Hp Hk Hr Ht.
  apply fmul_neg_positive; [| assumption].
  apply fmul_positive; [| assumption].
  now apply fmul_fin_positive.
Qed.

(** ** Components under a section *)

Lemma shrunk_refl (a : number) : held a -> shrunk a a.
Proof. intros H. unfold shrunk. split; [exact H|]. split; [apply Rle_refl | split; auto]. Qed.

Lemma scale_component (a : number) (f : R) :
  0 <= f <= 1 -> held a ->
  held (fmul a (Fin f)) /\ sq (fmul a (Fin f)) = f * f * sq a /\
  (is_inf (fmul a (Fin f)) = true -> is_inf a = true) /\
  (is_finite a = true -> is_finite (fmul a (Fin f)) = true).
Proof.
  intros Hf Ha. destruct a as [ | | | r].
  - cbn. repeat split; auto; lra.
  - unfold fmul. cbn [mul]. unfold scale_inf.
    destruct (sgn f); cbn; repeat split; auto; try lra; discriminate.
  - unfold fmul. cbn [mul]. unfold scale_inf.
    destruct (sgn f); cbn; repeat split; auto; try lra; discriminate.
  - cbn [held] in Ha. rewrite fmul_fin by (apply in_range_scale; [assumption | lra]).
    cbn [held sq is_inf is_finite].
    split; [apply in_range_scale; [assumption | lra]|].
    split; [ring|]. split; [discriminate | reflexivity].
Qed.

Lemma shrunk_scale (a : number) (f : R) :
  0 <= f <= 1 -> held a -> shrunk a (fmul a (Fin f)).
Proof.
  intros Hf Ha. destruct (scale_component a f Hf Ha) as (H1 & H2 & H3 & H4).
  unfold shrunk. split; [exact H1|]. split; [| split; assumption].
  rewrite H2. pose proof (sq_nonneg a). assert (f * f <= 1) by nra. nra.
Qed.

Lemma tame_shrunk (b : R) (v : BlochVector) (x' y' z' : number) :
  tame b v -> shrunk (x v) x' -> shrunk (y v) y' -> shrunk (z v) z' ->
  tame b (mkBloch x' y' z').
Proof.
  intros (Hx & Hy & Hz & Fz & Hsum & C1 & C2)
         (X1 & X2 & X3 & X4) (Y1 & Y2 & Y3 & Y4) (Z1 & Z2 & Z3 & Z4).
  unfold tame; cbn [x y z].
  split; [exact X1|]. split; [exact Y1|]. split; [exact Z1|].
  split; [now apply Z4|]. split; [lra|]. split; auto.
Qed.

(** ** The sections *)

Lemma rotation_norm (a1 a2 c s : R) :
  s * s + c * c = 1 ->
  (a1 * c - a2 * s) * (a1 * c - a2 * s) + (a1 * s + a2 * c) * (a1 * s + a2 * c)
  = a1 * a1 + a2 * a2.
Proof.
  intros H.
  replace ((a1 * c - a2 * s) * (a1 * c - a2 * s) + (a1 * s + a2 * c) * (a1 * s + a2 * c))
    with ((a1 * a1 + a2 * a2) * (s * s + c * c)) by ring.
  rewrite H. ring.
Qed.

Lemma sin_cos_one (t : R) :
  Rtrigo_def.sin t * Rtrigo_def.sin t + Rtrigo_def.cos t * Rtrigo_def.cos t = 1.
Proof. generalize (sin2_cos2 t). unfold Rsqr. tauto. Qed.

(** Beyond the range on both axes, a rotated vector would be longer than any
    vector of two binary64 components. *)
Lemma not_both_overflow (a1 a2 u w : R) :
  in_range a1 -> in_range a2 -> u * u + w * w = a1 * a1 + a2 * a2 ->
  (MAX_VALUE < u \/ u < - MAX_VALUE) -> (MAX_VALUE < w \/ w < - MAX_VALUE) -> False.
Proof.
  unfold in_range. intros [A1 A2] [B1 B2] E Hu Hw.
  pose proof MAX_VALUE_large as HM.
  assert (a1 * a1 <= MAX_VALUE * MAX_VALUE) by nra.
  assert (a2 * a2 <= MAX_VALUE * MAX_VALUE) by nra.
  assert (MAX_VALUE * MAX_VALUE < u * u) by (destruct Hu; nra).
  assert (MAX_VALUE * MAX_VALUE < w * w) by (destruct Hw; nra).
  lra.
Qed.

(** The precession when the angle is a finite number: the plane rotation,
    each coordinate overflowing on its own. *)
Lemma precess_fin (rm dt : number) (th a1 a2 a3 : R) :
  fmul (fmul (Fin 5) rm) dt = Fin th ->
  in_range a1 -> in_range a2 ->
  precess rm dt (mkBloch (Fin a1) (Fin a2) (Fin a3)) =
  mkBloch (overflow (Fin (a1 * Rtrigo_def.cos th - a2 * Rtrigo_def.sin th)))
          (overflow (Fin (a1 * Rtrigo_def.sin th + a2 * Rtrigo_def.cos th)))
          (Fin a3).
Proof.
  intros E F1 F2. unfold precess. cbn [x y z]. rewrite E. cbn [cos sin].
  pose proof (COS_bound th). pose proof (SIN_bound th).
  rewrite !fmul_fin by (apply in_range_scale; assumption).
  reflexivity.
Qed.

(** When the angle is not finite its cosine and sine are NaN, and so are
    [x] and [y]. *)
Lemma precess_nan (rm dt : number) (v : BlochVector) :
  is_finite (fmul (fmul (Fin 5) rm) dt) = false ->
  precess rm dt v = mkBloch NaN NaN (z v).
Proof.
  intros E. unfold precess.
  destruct (fmul (fmul (Fin 5) rm) dt) as [ | | | th]; try discriminate E;
    cbn [cos sin]; now rewrite !fmul_nan_r.
Qed.

Lemma precess_tame (b : R) (rm dt : number) (v : BlochVector) :
  in_ball b v -> tame b (precess rm dt v).
Proof.
  intros (a1 & a2 & a3 & -> & H & F1 & F2 & F3).
  destruct (fmul (fmul (Fin 5) rm) dt) as [ | | | th] eqn:E.
  1-3: rewrite precess_nan by (now rewrite E);
       apply tame_intro; cbn [z held sq is_inf is_finite];
       auto; try discriminate; nra.
  rewrite (precess_fin rm dt th) by assumption.
  set (u := a1 * Rtrigo_def.cos th - a2 * Rtrigo_def.sin th).
  set (w := a1 * Rtrigo_def.sin th + a2 * Rtrigo_def.cos th).
  assert (Huw : u * u + w * w = a1 * a1 + a2 * a2)
    by (apply rotation_norm, sin_cos_one).
  destruct (overflow_cases u) as [[Eu Hu] | [[Eu Hu] | [Eu Hu]]];
  destruct (overflow_cases w) as [[Ew Hw] | [[Ew Hw] | [Ew Hw]]];
    rewrite Eu, Ew;
    try (exfalso; apply (not_both_overflow a1 a2 u w F1 F2 Huw); auto; fail);
    apply tame_intro; cbn [held sq is_inf is_finite];
    auto; try discriminate; nra.
Qed.

Ltac open_noise :=
  match goal with
  | H : finite_noise ?n |- _ =>
      let d := fresh "d" in let p := fresh "p" in let bf := fresh "bf" in
      let am := fresh "am" in let s := fresh "s" in
      destruct H as (d & p & bf & am & s & ->)
  end.

Lemma tame_held (b : R) (v : BlochVector) :
  tame b v -> held (x v) /\ held (y v) /\ held (z v).
Proof. intros (Hx & Hy & Hz & _). auto. Qed.

Lemma depolarize_tame (b : R) (n : NoiseParams) (r t : R) (v : BlochVector) :
  finite_noise n -> 0 < r -> 0 < t ->
  tame b v -> tame b (depolarize n (Fin r) (Fin t) v).
Proof.
  intros Hn Hr Ht Hv. open_noise. unfold depolarize. cbn [depolarizing].
  destruct (gtb (Fin d) (Fin 0)) eqn:E; [| exact Hv].
  apply gtb_fin_true in E. cbv zeta.
  destruct (exp_nonpositive _ (decay_exponent d 2 r t E ltac:(lra) Hr Ht))
    as (f & -> & Hf).
  destruct (tame_held _ _ Hv) as (Hx & Hy & Hz).
  apply (tame_shrunk b v); [assumption | | |]; now apply shrunk_scale.
Qed.

Lemma dephase_tame (b : R) (n : NoiseParams) (r t : R) (v : BlochVector) :
  finite_noise n -> 0 < r -> 0 < t ->
  tame b v -> tame b (dephase n (Fin r) (Fin t) v).
Proof.
  intros Hn Hr Ht Hv. open_noise. unfold dephase. cbn [phaseFlip].
  destruct (gtb (Fin p) (Fin 0)) eqn:E; [| exact Hv].
  apply gtb_fin_true in E. cbv zeta.
  destruct (exp_nonpositive _ (decay_exponent p 3 r t E ltac:(lra) Hr Ht))
    as (f & -> & Hf).
  destruct (tame_held _ _ Hv) as (Hx & Hy & Hz).
  apply (tame_shrunk b v);
    [assumption | now apply shrunk_scale | now apply shrunk_scale | now apply shrunk_refl].
Qed.

Lemma bitflip_tame (b : R) (n : NoiseParams) (r t : R) (v : BlochVector) :
  finite_noise n -> 0 < r -> 0 < t ->
  tame b v -> tame b (bitflip n (Fin r) (Fin t) v).
Proof.
  intros Hn Hr Ht Hv. open_noise. unfold bitflip. cbn [bitFlip].
  destruct (gtb (Fin bf) (Fin 0)) eqn:E; [| exact Hv].
  apply gtb_fin_true in E. cbv zeta.
  destruct (exp_nonpositive _ (decay_exponent bf 2 r t E ltac:(lra) Hr Ht))
    as (f & -> & Hf).
  destruct (tame_held _ _ Hv) as (Hx & Hy & Hz).
  apply (tame_shrunk b v);
    [assumption | now apply shrunk_refl | now apply shrunk_scale | now apply shrunk_scale].
Qed.

(** The amplitude-damping map sends the unit ball into itself: with [S] the
    squared length in the plane, [g * g = f] and [f] in [0, 1]. *)
Lemma damping_bound (S a3 g f : R) :
  0 <= S -> 0 <= f <= 1 -> g * g = f -> S + a3 * a3 <= 1 ->
  g * g * S + (1 - (1 - a3) * f) * (1 - (1 - a3) * f) <= 1.
Proof.
  intros HS Hf Hg H. rewrite Hg.
  assert (Hxy : f * S <= (1 - a3 * a3) * f) by nra.
  assert (Hid : (1 - a3 * a3) * f + (1 - (1 - a3) * f) * (1 - (1 - a3) * f)
                = 1 - f * (1 - f) * ((1 - a3) * (1 - a3))) by ring.
  assert (Hsq : 0 <= (1 - a3) * (1 - a3)) by nra.
  assert (Hff : 0 <= f * (1 - f)) by nra.
  assert (0 <= f * (1 - f) * ((1 - a3) * (1 - a3))) by (apply Rmult_le_pos; assumption).
  lra.
Qed.

Lemma amplitudeDamp_tame (n : NoiseParams) (r t : R) (v : BlochVector) :
  finite_noise n -> 0 < r -> 0 < t ->
  tame 1 v -> tame 1 (amplitudeDamp n (Fin r) (Fin t) v).
Proof.
  intros Hn Hr Ht Hv. open_noise. unfold amplitudeDamp. cbn [amplitudeDamping].
  destruct (gtb (Fin am) (Fin 0)) eqn:E; [| exact Hv].
  apply gtb_fin_true in E. cbv zeta.
  destruct (exp_half_nonpositive _ (decay_exponent am 1.5 r t E ltac:(lra) Hr Ht))
    as (g & f & -> & -> & Hg & Hf & Hgf).
  destruct v as [vx vy vz].
  destruct Hv as (Hx & Hy & Hz & Fz & Hsum & C1 & C2). cbn [x y z] in *.
  destruct vz as [ | | | a3]; try discriminate Fz. cbn [sq] in Hsum.
  pose proof (sq_nonneg vx) as Px. pose proof (sq_nonneg vy) as Py.
  assert (Ha3 : -1 <= a3 <= 1) by (split; nra).
  rewrite (fsub_fin 1 a3) by (apply in_range_small; lra).
  rewrite fmul_fin by (apply in_range_small; nra).
  rewrite fsub_fin by (apply in_range_small; nra).
  destruct (scale_component vx g Hg Hx) as (X1 & X2 & X3 & X4).
  destruct (scale_component vy g Hg Hy) as (Y1 & Y2 & Y3 & Y4).
  apply tame_intro; cbn [sq held is_finite]; auto.
  - apply in_range_small; nra.
  - rewrite X2, Y2.
    pose proof (damping_bound (sq vx + sq vy) a3 g f ltac:(lra) Hf Hgf ltac:(lra)).
    lra.
Qed.

Lemma amplitudeDamp_off (n : NoiseParams) (rm dt : number) (v : BlochVector) :
  gtb (amplitudeDamping n) (Fin 0) = false -> amplitudeDamp n rm dt v = v.
Proof. intros E. unfold amplitudeDamp. now rewrite E. Qed.

(** ** The clamp and the final [|| 0] *)

Lemma r2_nan_x (vy vz : number) : r2 (mkBloch NaN vy vz) = NaN.
Proof. unfold r2; cbn [x y z]. now destruct vy, vz. Qed.

Lemma r2_nan_y (vx vz : number) : r2 (mkBloch vx NaN vz) = NaN.
Proof. unfold r2; cbn [x y z]. rewrite fmul_nan_r, fadd_nan_r. reflexivity. Qed.

Lemma clamp_nan (v : BlochVector) : r2 v = NaN -> clamp v = v.
Proof. intros E. unfold clamp. now rewrite E. Qed.

(** The squared length of a finite vector is exact, or plus infinity. *)
Lemma r2_fin (a1 a2 a3 : R) :
  r2 (mkBloch (Fin a1) (Fin a2) (Fin a3)) = Fin (a1 * a1 + a2 * a2 + a3 * a3) \/
  r2 (mkBloch (Fin a1) (Fin a2) (Fin a3)) = PInf.
Proof.
  unfold r2; cbn [x y z].
  pose proof MAX_VALUE_large as HM.
  destruct (fsquare_cases a1) as [[E1 H1] | E1]; rewrite E1;
  destruct (fsquare_cases a2) as [[E2 H2] | E2]; rewrite E2;
  destruct (fsquare_cases a3) as [[E3 H3] | E3]; rewrite E3;
    try (right; reflexivity).
  - rewrite fadd_fin_fin.
    destruct (overflow_cases (a1 * a1 + a2 * a2)) as [[E H] | [[E H] | [E H]]];
      rewrite E; [| right; reflexivity | nra].
    rewrite fadd_fin_fin.
    destruct (overflow_cases (a1 * a1 + a2 * a2 + a3 * a3)) as [[E' H'] | [[E' H'] | [E' H']]];
      rewrite E'; [left; reflexivity | right; reflexivity | nra].
  - rewrite fadd_fin_fin.
    destruct (overflow_cases (a1 * a1 + a2 * a2)) as [[E H] | [[E H] | [E H]]];
      rewrite E; [right; reflexivity | right; reflexivity | nra].
Qed.

Lemma r2_inf_x (a2 a3 : R) (vx : number) :
  is_inf vx = true -> r2 (mkBloch vx (Fin a2) (Fin a3)) = PInf.
Proof.
  intros E. unfold r2; cbn [x y z].
  assert (Ex : fmul vx vx = PInf) by (destruct vx; try discriminate E; reflexivity).
  rewrite Ex. now rewrite !fadd_pinf_square.
Qed.

Lemma r2_inf_y (a1 a3 : R) (vy : number) :
  is_inf vy = true -> r2 (mkBloch (Fin a1) vy (Fin a3)) = PInf.
Proof.
  intros E. unfold r2; cbn [x y z].
  assert (Ey : fmul vy vy = PInf) by (destruct vy; try discriminate E; reflexivity).
  rewrite Ey. now rewrite fadd_square_pinf, fadd_pinf_square.
Qed.

(** An infinite squared length: the clamp divides by infinity, which leaves
    zeros and NaN, and the final [|| 0] zeros. *)
Lemma clamp_inf (v : BlochVector) :
  r2 v = PInf -> is_nan (x v) = false -> is_nan (y v) = false ->
  is_finite (z v) = true ->
  sanitize (clamp v) = mkBloch (Fin 0) (Fin 0) (Fin 0).
Proof.
  intros E Hx Hy Hz. unfold clamp. rewrite E. cbn [gtb sqrt].
  destruct v as [vx vy vz]; cbn [x y z] in *.
  destruct vz as [ | | | a3]; try discriminate Hz.
  unfold sanitize; cbn [x y z].
  rewrite fdiv_fin_pinf.
  destruct vx as [ | | | a1]; try discriminate Hx;
  destruct vy as [ | | | a2]; try discriminate Hy;
    rewrite ?fdiv_fin_pinf, ?or_else_fin_zero; reflexivity.
Qed.

Lemma sanitize_fin (a1 a2 a3 : R) :
  sanitize (mkBloch (Fin a1) (Fin a2) (Fin a3)) = mkBloch (Fin a1) (Fin a2) (Fin a3).
Proof. unfold sanitize; cbn [x y z]. now rewrite !or_else_fin_zero. Qed.

Lemma sanitize_in_ball (b : R) (v : BlochVector) : in_ball b v -> sanitize v = v.
Proof. intros (a1 & a2 & a3 & -> & _). apply sanitize_fin. Qed.

(** A finite vector: left alone up to the tolerance, brought to length 1
    above it, and to the origin when its squares overflow. *)
Lemma clamp_fin (b a1 a2 a3 : R) :
  in_range a1 -> in_range a2 -> in_range a3 ->
  a1 * a1 + a2 * a2 + a3 * a3 <= b ->
  in_ball b (sanitize (clamp (mkBloch (Fin a1) (Fin a2) (Fin a3)))).
Proof.
  intros F1 F2 F3 H.
  assert (H0 : 0 <= b) by nra.
  destruct (r2_fin a1 a2 a3) as [E | E].
  - unfold clamp. rewrite E. set (q := a1 * a1 + a2 * a2 + a3 * a3) in *.
    destruct (gtb (Fin q) (Fin 1.000001)) eqn:G.
    + apply gtb_fin_true in G.
      assert (Hq0 : 0 < q) by lra.
      assert (Hs : 1 < R_sqrt.sqrt q).
      { rewrite <- sqrt_1. apply sqrt_lt_1; lra. }
      assert (Hsq : R_sqrt.sqrt q * R_sqrt.sqrt q = q) by (apply sqrt_sqrt; lra).
      rewrite (sqrt_fin_pos q Hq0). cbv zeta. cbn [x y z].
      set (c := R_sqrt.sqrt q) in *.
      assert (Hc : -1 <= / c <= 1).
      { assert (0 < / c) by (apply Rinv_0_lt_compat; lra).
        assert (/ c < 1) by (rewrite <- Rinv_1; apply Rinv_lt_contravar; lra).
        lra. }
      rewrite !fdiv_fin by (try lra; apply in_range_scale; assumption).
      rewrite sanitize_fin.
      apply in_ball_intro; try (apply in_range_scale; assumption).
      assert (HX : a1 / c * (a1 / c) + a2 / c * (a2 / c) + a3 / c * (a3 / c)
                   = q / (c * c)) by (unfold q; field; lra).
      rewrite HX, Hsq. unfold Rdiv. rewrite Rinv_r by lra. lra.
    + rewrite sanitize_fin. now apply in_ball_intro.
  - rewrite clamp_inf; [| assumption | reflexivity | reflexivity | reflexivity].
    apply in_ball_weaken with 0; [assumption|].
    apply in_ball_small; lra.
Qed.

(** What the stepper holds before the clamp comes out in the ball. *)
Lemma settle (b : R) (v : BlochVector) :
  tame b v -> in_ball b (sanitize (clamp v)).
Proof.
  destruct v as [vx vy vz].
  intros (Hx & Hy & Hz & Fz & Hsum & C1 & C2). cbn [x y z] in *.
  destruct vz as [ | | | a3]; try discriminate Fz. cbn [sq held] in *.
  assert (Hb : 0 <= b).
  { pose proof (sq_nonneg vx). pose proof (sq_nonneg vy). nra. }
  assert (Hzero : in_ball b (mkBloch (Fin 0) (Fin 0) (Fin 0))).
  { apply in_ball_weaken with 0; [assumption|]. apply in_ball_small; lra. }
  destruct vx as [ | | | a1], vy as [ | | | a2]; cbn [is_inf is_finite sq held] in *;
    try (specialize (C1 eq_refl); discriminate C1);
    try (specialize (C2 eq_refl); discriminate C2).
  - (* NaN, NaN *)
    rewrite clamp_nan by apply r2_nan_x. unfold sanitize; cbn.
    rewrite or_else_fin_zero.
    apply in_ball_intro; auto using in_range_0; lra.
  - (* NaN, finite *)
    rewrite clamp_nan by apply r2_nan_x. unfold sanitize; cbn.
    rewrite !or_else_fin_zero.
    apply in_ball_intro; auto using in_range_0; lra.
  - (* +infinity, finite *)
    rewrite clamp_inf; auto. now apply r2_inf_x.
  - (* -infinity, finite *)
    rewrite clamp_inf; auto. now apply r2_inf_x.
  - (* finite, NaN *)
    rewrite clamp_nan by apply r2_nan_y. unfold sanitize; cbn.
    rewrite !or_else_fin_zero.
    apply in_ball_intro; auto using in_range_0; lra.
  - (* finite, +infinity *)
    rewrite clamp_inf; auto. now apply r2_inf_y.
  - (* finite, -infinity *)
    rewrite clamp_inf; auto. now apply r2_inf_y.
  - (* finite, finite *)
    now apply clamp_fin.
Qed.

(** ** One step, many steps *)

(** The rate multiplier [speed || 1] of a finite speed. *)
Lemma rate_finite (s : R) :
  exists r, or_else (Fin s) (Fin 1) = Fin r /\ r <> 0 /\ (0 <= s -> 0 < r).
Proof.
  destruct (or_else_fin s 1) as [[E Hs] | [E Hs]]; rewrite E.
  - exists s. repeat split; [assumption | lra].
  - exists 1. repeat split; lra.
Qed.

Lemma applyNoiseStep_unfold v noise dt :
  applyNoiseStep v noise dt = sanitize (clamp (beforeClamp v noise dt)).
Proof. reflexivity. Qed.

(** One step under finite parameters with a speed that is not negative keeps
    the unit ball, whatever overflows on the way ... *)
Lemma step_in_unit_ball (n : NoiseParams) (s t : R) (v : BlochVector) :
  finite_noise n -> speed n = Fin s -> 0 <= s -> 0 < t ->
  in_ball 1 v -> in_ball 1 (applyNoiseStep v n (Fin t)).
Proof.
  intros Hn Es Hs Ht Hv. rewrite applyNoiseStep_unfold. apply settle.
  unfold beforeClamp. rewrite Es.
  destruct (rate_finite s) as (r & Er & _ & Hr). specialize (Hr Hs). rewrite Er.
  apply bitflip_tame, dephase_tame, amplitudeDamp_tame, depolarize_tame,
    precess_tame; assumption.
Qed.

(** ... and, when the amplitude damping is off, any ball. *)
Lemma step_in_ball (b : R) (n : NoiseParams) (s t : R) (v : BlochVector) :
  finite_noise n -> speed n = Fin s -> 0 <= s -> 0 < t ->
  gtb (amplitudeDamping n) (Fin 0) = false ->
  in_ball b v -> in_ball b (applyNoiseStep v n (Fin t)).
Proof.
  intros Hn Es Hs Ht Ha Hv. rewrite applyNoiseStep_unfold. apply settle.
  unfold beforeClamp. rewrite Es.
  destruct (rate_finite s) as (r & Er & _ & Hr). specialize (Hr Hs). rewrite Er.
  rewrite amplitudeDamp_off by assumption.
  apply bitflip_tame, dephase_tame, depolarize_tame, precess_tame; assumption.
Qed.

Lemma stepN_unit_ball (noise : NoiseParams) (s : R) (k : nat) :
  finite_noise noise -> speed noise = Fin s -> 0 <= s ->
  forall v, in_ball 1 v -> in_ball 1 (stepN k noise v).
Proof.
  intros Hn Es Hs. induction k as [| k IH]; intros v Hv; simpl; [assumption|].
  apply IH. apply (step_in_unit_ball noise s); try assumption. lra.
Qed.

Lemma stepN_last (noise : NoiseParams) (k : nat) (v : BlochVector) :
  stepN (S k) noise v = applyNoiseStep (stepN k noise v) noise BASE_DT.
Proof.
  revert v. induction k as [| k IH]; intros v; [reflexivity|].
  change (stepN (S (S k)) noise v) with (stepN (S k) noise (applyNoiseStep v noise BASE_DT)).
  now rewrite IH.
Qed.

(** ** Within the tolerance nothing is clamped *)

Lemma r2_exact (a1 a2 a3 : R) :
  a1 * a1 + a2 * a2 + a3 * a3 <= 1000000 ->
  r2 (mkBloch (Fin a1) (Fin a2) (Fin a3)) = Fin (a1 * a1 + a2 * a2 + a3 * a3).
Proof.
  intros H. unfold r2; cbn [x y z].
  rewrite !fmul_fin by (apply in_range_small; nra).
  rewrite fadd_fin by (apply in_range_small; nra).
  rewrite fadd_fin by (apply in_range_small; nra).
  reflexivity.
Qed.


(** The stepper when the four strengths are not positive: the precession,
    the clamp and the final [|| 0]. *)
Lemma quiet_step (v : BlochVector) (noise : NoiseParams) (dt : number) :
  gtb (depolarizing noise) (Fin 0) = false ->
  gtb (amplitudeDamping noise) (Fin 0) = false ->
  gtb (phaseFlip noise) (Fin 0) = false ->
  gtb (bitFlip noise) (Fin 0) = false ->
  applyNoiseStep v noise dt
  = sanitize (clamp (precess (or_else (speed noise) (Fin 1)) dt v)).
Proof.
  intros Hd Ha Hp Hb.
  unfold applyNoiseStep, depolarize, amplitudeDamp, dephase, bitflip.
  now rewrite Hd, Ha, Hp, Hb.
Qed.





(** ** Non-finite inputs *)

Lemma sanitize_no_nan (w : BlochVector) : no_nan (sanitize w).
Proof.
  unfold no_nan, sanitize; simpl.
  repeat split; apply or_else_not_nan; reflexivity.
Qed.

Lemma nan_inf_step : applyNoiseStep nan_inf quiet BASE_DT = mkBloch (Fin 0) (Fin 0) PInf.
Proof.
  rewrite quiet_step by (apply gtb_fin_false; cbn; lra).
  unfold nan_inf, precess. cbn [x y z fmul fsub fadd mul add sub overflow].
  rewrite ?fadd_nan_l.
  rewrite clamp_nan by apply r2_nan_x. reflexivity.
Qed.

(** C10, the defect at a vector with a NaN component next to an infinite
    one: the squared length is NaN, [r2 > 1.000001] is false, the clamp is
    skipped, and the infinite component is returned. *)
Lemma infinite_component_returned :
  ~ all_finite (applyNoiseStep nan_inf quiet BASE_DT).
Proof.
  rewrite nan_inf_step. intros (_ & _ & H). simpl in H. discriminate H.
Qed.

End BlochFacts.

(* ================================================================== *)
(** * The evolution hook: ticks and scrubbing *)
(* ================================================================== *)

Module EvolutionFacts.
Import JsNumber JsNumberFacts Bloch BlochFacts.

Lemma slice_last_snoc {A} (n : nat) (l : list A) (a : A) :
  slice_last (S n) (l ++ [a]) = slice_last n l ++ [a].
Proof.
  unfold slice_last. rewrite length_app. simpl List.length.
  replace (List.length l + 1 - S n)%nat with (List.length l - n)%nat by lia.
  rewrite skipn_app.
  replace (List.length l - n - List.length l)%nat with 0%nat by lia.
  reflexivity.
Qed.

Lemma stepN_no_nan (noise : NoiseParams) (k : nat) (v : BlochVector) :
  no_nan (stepN (S k) noise v).
Proof. rewrite stepN_last, applyNoiseStep_unfold. apply sanitize_no_nan. Qed.

(** C5, counterexample: nothing is rejected.  A tick from a vector with a NaN
    and an infinite component runs the stepper and appends its result, which
    still has the infinite component, to the history. *)
Lemma non_finite_step_enters_history :
  non_finite_input (stateRef (started nan_inf)) /\
  history (loop 1 quiet (started nan_inf)) = [nan_inf; mkBloch (Fin 0) (Fin 0) PInf].
Proof.
  split; [left; reflexivity|].
  unfold loop, started; simpl stateRef; simpl historyRef.
  change (stepN (Nat.max 1 1) quiet nan_inf) with (applyNoiseStep nan_inf quiet BASE_DT).
  rewrite nan_inf_step. reflexivity.
Qed.

(** C5, amended: the stepper has no rejection path.  Every tick, whatever the
    current vector and the parameters, calls [applyNoiseStep] with [BASE_DT]
    (on the current vector, or on what the earlier calls of the same tick
    made of it), appends what that call returns as the last entry of the
    history and publishes it.  The guard is on the result: the appended vector
    has no NaN component. *)
Theorem tick_always_appends (steps : nat) (noise : NoiseParams) (e : Evolution) :
  stateRef (loop steps noise e)
    = applyNoiseStep (stepN (Nat.max 1 steps - 1) noise (stateRef e)) noise BASE_DT /\
  historyRef (loop steps noise e)
    = slice_last (MAX_HISTORY - 1) (historyRef e) ++ [stateRef (loop steps noise e)] /\
  history (loop steps noise e) = historyRef (loop steps noise e) /\
  state (loop steps noise e) = stateRef (loop steps noise e) /\
  no_nan (stateRef (loop steps noise e)).
Proof.
  unfold loop; cbn [stateRef historyRef state history].
  assert (E : Nat.max 1 steps = S (Nat.max 1 steps - 1)) by lia.
  split; [rewrite E at 1; apply stepN_last|].
  split; [apply (slice_last_snoc 599)|].
  split; [reflexivity|]. split; [reflexivity|].
  rewrite E. apply stepN_no_nan.
Qed.

(** ** Scrubbing *)
Lemma at_index_in_range {A} (l : list A) (i : Z) :
  (0 <= i < Z.of_nat (List.length l))%Z ->
  exists a, at_index l i = Some a /\ nth_error l (Z.to_nat i) = Some a.
Proof.
  intros Hi. unfold at_index.
  destruct (Z.ltb_spec i 0) as [Hneg | _]; [lia|].
  destruct (nth_error l (Z.to_nat i)) as [a |] eqn:E.
  - now exists a.
  - apply nth_error_None in E. lia.
Qed.

Lemma at_index_out_of_range {A} (l : list A) (i : Z) :
  (i < 0 \/ Z.of_nat (List.length l) <= i)%Z -> at_index l i = None.
Proof.
  intros Hi. unfold at_index.
  destruct (Z.ltb_spec i 0) as [Hneg | Hpos]; [reflexivity|].
  apply nth_error_None. lia.
Qed.

Lemma clamp_index_in_range (i : Z) (len : nat) :
  (0 <= i < Z.of_nat len)%Z -> clamp_index i len = Z.to_nat i.
Proof. intros Hi. unfold clamp_index. f_equal. lia. Qed.

(** C4, counterexample: scrubbing past the end of a one-entry history of a
    running hook changes nothing; in particular the hook keeps running. *)
Lemma scrub_past_end_keeps_running :
  scrubToIndex 7 (started plus) = started plus /\
  running (scrubToIndex 7 (started plus)) = true.
Proof. split; reflexivity. Qed.

(** C4, amended: for an index inside the history, [scrubToIndex] pauses and
    sets the current vector to that entry (which is the clamped one), leaving
    the history as it is; for any other index it does nothing at all: the
    guard [if (!target) return] leaves the vector and [running] untouched. *)
Theorem scrub_semantics (i : Z) (e : Evolution) :
  ((0 <= i < Z.of_nat (List.length (historyRef e)))%Z ->
   exists target,
     nth_error (historyRef e) (clamp_index i (List.length (historyRef e))) = Some target /\
     scrubToIndex i e = mkEvolution target (history e) false target (historyRef e)) /\
  ((i < 0 \/ Z.of_nat (List.length (historyRef e)) <= i)%Z -> scrubToIndex i e = e).
Proof.
  split.
  - intros Hi. destruct (at_index_in_range _ _ Hi) as (a & Ea & En).
    exists a. rewrite (clamp_index_in_range _ _ Hi). split; [assumption|].
    unfold scrubToIndex. now rewrite Ea.
  - intros Hi. unfold scrubToIndex. now rewrite (at_index_out_of_range _ _ Hi).
Qed.

(** The timer-driven copy of the hook clamps the index, and never pauses. *)
Lemma scrub_timer_clamps (i : Z) (e : Evolution) :
  history e <> [] ->
  exists target,
    nth_error (history e) (clamp_index i (List.length (history e))) = Some target /\
    state (scrubToIndex_timer i e) = target /\
    running (scrubToIndex_timer i e) = running e /\
    history (scrubToIndex_timer i e) = history e.
Proof.
  intros Hne. unfold scrubToIndex_timer.
  destruct (nth_error (history e) (clamp_index i (List.length (history e))))
    as [target |] eqn:E.
  - exists target. repeat split.
  - apply nth_error_None in E. unfold clamp_index in E.
    destruct (history e) as [| v h]; [congruence|]. simpl List.length in E. lia.
Qed.

Lemma scrub_semantics_witness :
  (exists target,
     nth_error [zero; plus; one] (clamp_index 1 3) = Some target /\
     scrubToIndex 1 (mkEvolution one [zero; plus; one] true one [zero; plus; one])
     = mkEvolution target [zero; plus; one] false target [zero; plus; one]) /\
  scrubToIndex (-1) (started zero) = started zero.
Proof.
  split.
  - apply (proj1 (scrub_semantics 1
             (mkEvolution one [zero; plus; one] true one [zero; plus; one]))).
    simpl. lia.
  - apply (proj2 (scrub_semantics (-1) (started zero))). left. lia.
Defined.

End EvolutionFacts.

(* ================================================================== *)
(** * Gate application ([QasmVisualizer.tsx], the Qiskit visualizer) *)
(* ================================================================== *)

Module Gates.
Import JsNumber Bloch.
Local Open Scope string_scope.
Local Open Scope js_scope.

(** [types/quantum.ts]: [target] and [angle] are optional; [qubit] is read
    through [g.qubit ?? 0], so it is optional here too. *)
Record CircuitGate : Type := mkGate {
  gate : string;
  qubit : option Z;
  target : option Z;
  angle : option number
}.

Definition PI : number := Fin Rtrigo1.PI.

(** The in-plane rotation of the S and T cases. *)
Definition rotateXY (v : BlochVector) (ca sa : number) : BlochVector :=
  mkBloch (x v * ca - y v * sa) (x v * sa + y v * ca) (z v).

(** [applyGate] of the QASM visualizer. *)
Definition applyGate (v : BlochVector) (g : CircuitGate) : BlochVector :=
  if String.eqb (gate g) "H" then mkBloch (z v) (y v) (x v)
  else if String.eqb (gate g) "X" then mkBloch (x v) (- y v) (- z v)
  else if String.eqb (gate g) "Y" then mkBloch (- x v) (y v) (- z v)
  else if String.eqb (gate g) "Z" then mkBloch (- x v) (- y v) (z v)
  else if String.eqb (gate g) "S" then
    rotateXY v (cos (PI / Fin 2)) (sin (PI / Fin 2))
  else if String.eqb (gate g) "T" then
    rotateXY v (cos (PI / Fin 4)) (sin (PI / Fin 4))
  else v.

(** [applyGateToBloch] of the Qiskit visualizer: the same, with a CNOT case. *)
Definition applyGateToBloch (v : BlochVector) (g : CircuitGate) : BlochVector :=
  if String.eqb (gate g) "H" then mkBloch (z v) (y v) (x v)
  else if String.eqb (gate g) "X" then mkBloch (x v) (- y v) (- z v)
  else if String.eqb (gate g) "Y" then mkBloch (- x v) (y v) (- z v)
  else if String.eqb (gate g) "Z" then mkBloch (- x v) (- y v) (z v)
  else if String.eqb (gate g) "S" then
    rotateXY v (cos (PI / Fin 2)) (sin (PI / Fin 2))
  else if String.eqb (gate g) "T" then
    rotateXY v (cos (PI / Fin 4)) (sin (PI / Fin 4))
  else if String.eqb (gate g) "CNOT" then
    mkBloch (x v * Fin 0.7) (y v * Fin 0.7) (z v * Fin 0.7)
  else v.

Definition applyDecoherence (v : BlochVector) (amount : number) : BlochVector :=
  let factor := Fin 1 - amount in
  mkBloch (x v * factor) (y v * factor)
          (z v * (Fin 1 - amount / Fin 2) + amount / Fin 2).

(** [v.x /= L; v.y /= L; v.z /= L] *)
Definition divideBy (v : BlochVector) (L : number) : BlochVector :=
  mkBloch (x v / L) (y v / L) (z v / L).

(** One gate of the Qiskit visualizer's [vec]: the gate, the decoherence pass
    with the gate-noise strength, and the renormalisation above length 1. *)
Definition qiskitStep (gateNoise : number) (v : BlochVector) (g : CircuitGate)
    : BlochVector :=
  let v := applyGateToBloch v g in
  let v := applyDecoherence v gateNoise in
  let L := blen v in
  if L >? Fin 1 then divideBy v L else v.

(** [(g.qubit ?? 0) === 0 || g.target === 0] *)
Definition touchesQubit0 (g : CircuitGate) : bool :=
  match qubit g with
  | None => true
  | Some q => Z.eqb q 0
  end || match target g with
         | Some t => Z.eqb t 0
         | None => false
         end.

(** The Qiskit visualizer's [vec] after [stepIdx] gates, from |0>. *)
Definition qiskitVec (gateNoise : number) (gates : list CircuitGate) (stepIdx : nat)
    : BlochVector :=
  fold_left
    (fun v g => if touchesQubit0 g then qiskitStep gateNoise v g else v)
    (firstn stepIdx gates) zero.

(** One gate of the QASM visualizer's [vec]: the gate, then a normalisation
    to length 1 (there is no gate noise on this page). *)
Definition qasmStep (v : BlochVector) (g : CircuitGate) : BlochVector :=
  let v := applyGate v g in
  let L := blen v in
  if L >? Fin 0 then divideBy v L else v.

(** A gate on qubit 0 with the given symbol. *)
Definition on0 (name : string) : CircuitGate := mkGate name (Some 0%Z) None None.

End Gates.

Module GatesFacts.
Import JsNumber JsNumberFacts Bloch BlochFacts Gates.
Local Open Scope string_scope.

Lemma applyGate_twice (v : BlochVector) (g : CircuitGate) :
  gate g = "X" \/ gate g = "Z" \/ gate g = "H" ->
  applyGate (applyGate v g) g = v.
Proof.
  destruct v as [a b c].
  intros [E | [E | E]]; unfold applyGate; rewrite E; simpl;
    rewrite ?neg_involutive; reflexivity.
Qed.

Lemma applyGateToBloch_twice (v : BlochVector) (g : CircuitGate) :
  gate g = "X" \/ gate g = "Z" \/ gate g = "H" ->
  applyGateToBloch (applyGateToBloch v g) g = v.
Proof.
  destruct v as [a b c].
  intros [E | [E | E]]; unfold applyGateToBloch; rewrite E; simpl;
    rewrite ?neg_involutive; reflexivity.
Qed.

(** The three gates keep the ball. *)
Lemma applyGateToBloch_in_ball (b : R) (v : BlochVector) (g : CircuitGate) :
  gate g = "X" \/ gate g = "Z" \/ gate g = "H" ->
  in_ball b v -> in_ball b (applyGateToBloch v g).
Proof.
  intros Hg (a1 & a2 & a3 & -> & H & F1 & F2 & F3).
  destruct Hg as [E | [E | E]]; unfold applyGateToBloch; rewrite E; simpl;
    apply in_ball_intro; try lra; try assumption; now apply in_range_neg.
Qed.

(** The decoherence pass of strength 0 changes nothing. *)
Lemma applyDecoherence_zero (b : R) (v : BlochVector) :
  in_ball b v -> applyDecoherence v (Fin 0) = v.
Proof.
  intros (a1 & a2 & a3 & -> & _).
  unfold applyDecoherence; simpl. rewrite (sgn_pos 2) by lra. simpl.
  f_equal; f_equal; lra.
Qed.

Lemma blen_in_unit_ball (v : BlochVector) :
  in_ball 1 v -> gtb (blen v) (Fin 1) = false.
Proof.
  intros (a1 & a2 & a3 & -> & H & _).
  unfold blen, r2_of; simpl x; simpl y; simpl z. simpl mul; simpl add.
  assert (Hq : (0 <= a1 * a1 + a2 * a2 + a3 * a3)%R) by nra.
  rewrite (sqrt_fin_nonneg _ Hq). apply gtb_fin_false.
  rewrite <- sqrt_1. apply sqrt_le_1; lra.
Qed.

Lemma qiskitStep_noiseless (v : BlochVector) (g : CircuitGate) :
  gate g = "X" \/ gate g = "Z" \/ gate g = "H" ->
  in_ball 1 v -> qiskitStep (Fin 0) v g = applyGateToBloch v g.
Proof.
  intros Hg Hv. unfold qiskitStep.
  pose proof (applyGateToBloch_in_ball 1 v g Hg Hv) as Hb.
  rewrite (applyDecoherence_zero 1 _ Hb).
  now rewrite (blen_in_unit_ball _ Hb).
Qed.

(** C7. Gate involution: on a vector of length at most 1, X twice, Z twice
    and H twice give back the vector itself, for [applyGate], for
    [applyGateToBloch], and for the whole gate step of the Qiskit visualizer
    run with gate-noise strength 0. *)
Theorem gate_involution (v : BlochVector) (g : CircuitGate) :
  in_ball 1 v ->
  gate g = "X" \/ gate g = "Z" \/ gate g = "H" ->
  applyGate (applyGate v g) g = v /\
  applyGateToBloch (applyGateToBloch v g) g = v /\
  qiskitStep (Fin 0) (qiskitStep (Fin 0) v g) g = v.
Proof.
  intros Hv Hg. split; [now apply applyGate_twice|].
  split; [now apply applyGateToBloch_twice|].
  rewrite (qiskitStep_noiseless v g Hg Hv).
  rewrite (qiskitStep_noiseless _ g Hg (applyGateToBloch_in_ball 1 v g Hg Hv)).
  now apply applyGateToBloch_twice.
Qed.

Lemma gate_involution_witness :
  applyGate (applyGate plus (on0 "H")) (on0 "H") = plus /\
  applyGateToBloch (applyGateToBloch plus (on0 "H")) (on0 "H") = plus /\
  qiskitStep (Fin 0) (qiskitStep (Fin 0) plus (on0 "H")) (on0 "H") = plus.
Proof.
  apply gate_involution.
  - apply in_ball_small; lra.
  - right; right; reflexivity.
Defined.

End GatesFacts.

(* ================================================================== *)
(** * The random source *)
(* ================================================================== *)

Module Rand.

(** The successive values of [Math.random()], as rationals of [0, 1). *)
Definition source : Type := nat -> Q.

(** A computation that draws from the source: it reads the draws from a
    cursor on and returns the cursor after its last draw. *)
Definition Rand (A : Type) : Type := source -> nat -> A * nat.

Definition ret {A} (a : A) : Rand A := fun _ i => (a, i).

Definition bind {A B} (m : Rand A) (k : A -> Rand B) : Rand B :=
  fun src i => let (a, j) := m src i in k a src j.

(** [Math.random()] *)
Definition random : Rand Q := fun src i => (src i, S i).

Definition run {A} (m : Rand A) (src : source) : A := fst (m src 0%nat).

(** [a < b] on the drawn values. *)
Definition ltb (a b : Q) : bool := negb (Qle_bool b a).

Declare Scope rand_scope.
Delimit Scope rand_scope with rand.
Notation "x <- m ;; k" := (bind m (fun x => k))
  (at level 61, m at next level, right associativity) : rand_scope.
Notation "' p <- m ;; k" := (bind m (fun p => k))
  (at level 61, p pattern, m at next level, right associativity) : rand_scope.

End Rand.

(* ================================================================== *)
(** * The server's samplers ([server/quantumSim.ts]) *)
(* ================================================================== *)

Module Sim.
Import Rand.
Local Open Scope Z_scope.
Local Open Scope rand_scope.

(** ** Bell and GHZ *)

Record BellOutcomeCounts : Type := mkBell {
  c00 : Z; c01 : Z; c10 : Z; c11 : Z
}.

Record GhzOutcomeCounts : Type := mkGhz {
  c000 : Z; c001 : Z; c010 : Z; c011 : Z;
  c100 : Z; c101 : Z; c110 : Z; c111 : Z
}.

(** [counts['00']++] and [counts['11']++] *)
Definition incr00 (c : BellOutcomeCounts) : BellOutcomeCounts :=
  mkBell (c00 c + 1) (c01 c) (c10 c) (c11 c).

Definition incr11 (c : BellOutcomeCounts) : BellOutcomeCounts :=
  mkBell (c00 c) (c01 c) (c10 c) (c11 c + 1).

Definition incr000 (c : GhzOutcomeCounts) : GhzOutcomeCounts :=
  mkGhz (c000 c + 1) (c001 c) (c010 c) (c011 c) (c100 c) (c101 c) (c110 c) (c111 c).

Definition incr111 (c : GhzOutcomeCounts) : GhzOutcomeCounts :=
  mkGhz (c000 c) (c001 c) (c010 c) (c011 c) (c100 c) (c101 c) (c110 c) (c111 c + 1).

(** The body of a [for (let i = 0; i < shots; i++)] loop run [n] times. *)
Fixpoint repeat {S} (n : nat) (body : S -> Rand S) (s : S) : Rand S :=
  match n with
  | O => ret s
  | S n' => s' <- body s ;; repeat n' body s'
  end.

(** The number of passes of [for (let i = 0; i < n; i++)] for an integer [n]. *)
Definition passes (n : Z) : nat := Z.to_nat n.

(** The body of the loop of [simulateBell]:
    [Math.random() < 0.5 ? counts['00']++ : counts['11']++]. *)
Definition bellShot (counts : BellOutcomeCounts) : Rand BellOutcomeCounts :=
  r <- random ;;
  ret (if ltb r (1 # 2) then incr00 counts else incr11 counts).

Definition simulateBell (shots : Z) : Rand BellOutcomeCounts :=
  repeat (passes shots) bellShot (mkBell 0 0 0 0).

(** The body of the loop of [simulateGhz]. *)
Definition ghzShot (counts : GhzOutcomeCounts) : Rand GhzOutcomeCounts :=
  r <- random ;;
  ret (if ltb r (1 # 2) then incr000 counts else incr111 counts).

Definition simulateGhz (shots : Z) : Rand GhzOutcomeCounts :=
  repeat (passes shots) ghzShot (mkGhz 0 0 0 0 0 0 0 0).

(** ** BB84 *)

Inductive Bit : Type := bit0 | bit1.
Inductive Basis : Type := basisZ | basisX.

Definition bit_eqb (a b : Bit) : bool :=
  match a, b with
  | bit0, bit0 | bit1, bit1 => true
  | _, _ => false
  end.

Definition basis_eqb (a b : Basis) : bool :=
  match a, b with
  | basisZ, basisZ | basisX, basisX => true
  | _, _ => false
  end.

Definition randomBit : Rand Bit :=
  r <- random ;; ret (if ltb r (1 # 2) then bit0 else bit1).

Definition randomBasis : Rand Basis :=
  r <- random ;; ret (if ltb r (1 # 2) then basisZ else basisX).

Record Bb84RunConfig : Type := mkConfig { rounds : Z; withEve : bool }.

(** [eveBasis] is ['Z' | 'X' | '-']: [None] stands for ['-']. *)
Record Bb84TraceRow : Type := mkRow {
  id : Z;
  aliceBit : Bit;
  aliceBasis : Basis;
  eveBasis : option Basis;
  bobBasis : Basis;
  bobBit : Bit;
  keep : bool;
  error : bool
}.

Record Bb84RunSummary : Type := mkSummary {
  summaryRounds : Z;
  siftedKeyLength : Z;
  errorRate : Q;
  trace : list Bb84TraceRow
}.

(** The loop's variables: [i], [sifted], [errors], [trace]. *)
Record Bb84Loop : Type := mkLoop {
  loopIndex : Z;
  sifted : Z;
  errors : Z;
  loopTrace : list Bb84TraceRow
}.

(** What Eve leaves in transit: the bit, its basis, and the basis she used. *)
Definition intercept (withEve : bool) (aliceBit : Bit) (aliceBasis : Basis)
    : Rand (Bit * Basis * option Basis) :=
  if withEve then
    eveBasis <- randomBasis ;;
    if negb (basis_eqb eveBasis aliceBasis) then
      transmittedBit <- randomBit ;;
      ret (transmittedBit, eveBasis, Some eveBasis)
    else ret (aliceBit, aliceBasis, Some eveBasis)
  else ret (aliceBit, aliceBasis, None).

(** One pass of the loop of [runBb84]. *)
Definition bb84Round (withEve : bool) (s : Bb84Loop) : Rand Bb84Loop :=
  aliceBit <- randomBit ;;
  aliceBasis <- randomBasis ;;
  '(transmittedBit, transmittedBasis, eveBasisUsed) <-
      intercept withEve aliceBit aliceBasis ;;
  bobBasis <- randomBasis ;;
  bobResult <- (if basis_eqb bobBasis transmittedBasis
                then ret transmittedBit else randomBit) ;;
  let isMatch := basis_eqb aliceBasis bobBasis in
  let isError := isMatch && negb (bit_eqb bobResult aliceBit) in
  let sifted' := if isMatch then sifted s + 1 else sifted s in
  let errors' := if isMatch && isError then errors s + 1 else errors s in
  let i := loopIndex s in
  let trace' :=
    if i <? 50 then
      loopTrace s ++ [mkRow (i + 1) aliceBit aliceBasis eveBasisUsed bobBasis
                            bobResult isMatch isError]
    else loopTrace s in
  ret (mkLoop (i + 1) sifted' errors' trace').

Definition bb84Loop (config : Bb84RunConfig) : Rand Bb84Loop :=
  repeat (passes (rounds config)) (bb84Round (withEve config)) (mkLoop 0 0 0 []).

(** [sifted > 0 ? errors / sifted : 0] *)
Definition rate (errors sifted : Z) : Q :=
  if 0 <? sifted then (inject_Z errors / inject_Z sifted)%Q else 0%Q.

Definition runBb84 (config : Bb84RunConfig) : Rand Bb84RunSummary :=
  s <- bb84Loop config ;;
  ret (mkSummary (rounds config) (sifted s) (rate (errors s) (sifted s)) (loopTrace s)).

(** Draws under which Eve picks the other basis, resends the other bit, and
    Bob, back in Alice's basis, reads it. *)
Definition unlucky : source :=
  fun i => if (Nat.eqb i 2 || Nat.eqb i 3 || Nat.eqb i 5)%bool then (3 # 4)%Q else (1 # 4)%Q.

(** A source that alternates a low and a high draw. *)
Definition alternating : source :=
  fun i => if Nat.even i then (1 # 4)%Q else (3 # 4)%Q.

End Sim.

Module SimFacts.
Import Rand Sim.
Local Open Scope Z_scope.

(** A property of the loop variables kept by every pass holds after the loop. *)
Lemma repeat_invariant {S} (P : S -> Prop) (body : S -> Rand S) :
  (forall s src i, P s -> P (fst (body s src i))) ->
  forall n s src i, P s -> P (fst (repeat n body s src i)).
Proof.
  intros Hbody. induction n as [| n IH]; intros s src i Hs; simpl; [assumption|].
  unfold bind. specialize (Hbody s src i Hs).
  destruct (body s src i) as [s' j]. apply IH. exact Hbody.
Qed.

Lemma repeat_S {S} (n : nat) (body : S -> Rand S) (s : S) (src : source) (i : nat) :
  repeat (Datatypes.S n) body s src i
  = repeat n body (fst (body s src i)) src (snd (body s src i)).
Proof. simpl. unfold bind. now destruct (body s src i). Qed.

Lemma bell_loop (n : nat) (c : BellOutcomeCounts) (src : source) (i : nat) :
  c01 (fst (repeat n bellShot c src i)) = c01 c /\
  c10 (fst (repeat n bellShot c src i)) = c10 c /\
  c00 (fst (repeat n bellShot c src i)) + c11 (fst (repeat n bellShot c src i))
  = c00 c + c11 c + Z.of_nat n.
Proof.
  revert c i. induction n as [| n IH]; intros c i.
  - simpl. lia.
  - rewrite repeat_S.
    destruct (IH (fst (bellShot c src i)) (snd (bellShot c src i))) as (H1 & H2 & H3).
    rewrite H1, H2, H3. unfold bellShot, bind, random, ret. cbn [fst snd].
    destruct (ltb (src i) (1 # 2)); simpl; lia.
Qed.

Lemma ghz_loop (n : nat) (c : GhzOutcomeCounts) (src : source) (i : nat) :
  (c001 (fst (repeat n ghzShot c src i)) = c001 c /\
   c010 (fst (repeat n ghzShot c src i)) = c010 c /\
   c011 (fst (repeat n ghzShot c src i)) = c011 c /\
   c100 (fst (repeat n ghzShot c src i)) = c100 c /\
   c101 (fst (repeat n ghzShot c src i)) = c101 c /\
   c110 (fst (repeat n ghzShot c src i)) = c110 c) /\
  c000 (fst (repeat n ghzShot c src i)) + c111 (fst (repeat n ghzShot c src i))
  = c000 c + c111 c + Z.of_nat n.
Proof.
  revert c i. induction n as [| n IH]; intros c i.
  - simpl. repeat split; lia.
  - rewrite repeat_S.
    destruct (IH (fst (ghzShot c src i)) (snd (ghzShot c src i)))
      as ((H1 & H2 & H3 & H4 & H5 & H6) & H7).
    rewrite H1, H2, H3, H4, H5, H6, H7. unfold ghzShot, bind, random, ret. cbn [fst snd].
    destruct (ltb (src i) (1 # 2)); simpl; repeat split; lia.
Qed.

(** C3. Bell/GHZ outcome support and shot conservation: for every shot count
    and every sequence of draws, [simulateBell] leaves "01" and "10" at 0 and
    "00" + "11" equals the shot count; [simulateGhz] leaves the six mixed keys
    at 0 and "000" + "111" equals the shot count. *)
Theorem bell_ghz_support (shots : Z) (src : source) (i : nat) :
  0 <= shots ->
  (c01 (fst (simulateBell shots src i)) = 0 /\
   c10 (fst (simulateBell shots src i)) = 0 /\
   c00 (fst (simulateBell shots src i)) + c11 (fst (simulateBell shots src i)) = shots) /\
  (c001 (fst (simulateGhz shots src i)) = 0 /\
   c010 (fst (simulateGhz shots src i)) = 0 /\
   c011 (fst (simulateGhz shots src i)) = 0 /\
   c100 (fst (simulateGhz shots src i)) = 0 /\
   c101 (fst (simulateGhz shots src i)) = 0 /\
   c110 (fst (simulateGhz shots src i)) = 0 /\
   c000 (fst (simulateGhz shots src i)) + c111 (fst (simulateGhz shots src i)) = shots).
Proof.
  intros Hs. split.
  - destruct (bell_loop (passes shots) (mkBell 0 0 0 0) src i) as (H1 & H2 & H3).
    unfold simulateBell. rewrite H1, H2, H3. unfold passes. simpl. repeat split; lia.
  - destruct (ghz_loop (passes shots) (mkGhz 0 0 0 0 0 0 0 0) src i)
      as ((H1 & H2 & H3 & H4 & H5 & H6) & H7).
    unfold simulateGhz. rewrite H1, H2, H3, H4, H5, H6, H7.
    unfold passes. simpl. repeat split; lia.
Qed.

Lemma bell_ghz_support_witness :
  (c01 (fst (simulateBell 5 alternating 0%nat)) = 0 /\
   c10 (fst (simulateBell 5 alternating 0%nat)) = 0 /\
   c00 (fst (simulateBell 5 alternating 0%nat)) + c11 (fst (simulateBell 5 alternating 0%nat)) = 5) /\
  (c001 (fst (simulateGhz 5 alternating 0%nat)) = 0 /\
   c010 (fst (simulateGhz 5 alternating 0%nat)) = 0 /\
   c011 (fst (simulateGhz 5 alternating 0%nat)) = 0 /\
   c100 (fst (simulateGhz 5 alternating 0%nat)) = 0 /\
   c101 (fst (simulateGhz 5 alternating 0%nat)) = 0 /\
   c110 (fst (simulateGhz 5 alternating 0%nat)) = 0 /\
   c000 (fst (simulateGhz 5 alternating 0%nat)) + c111 (fst (simulateGhz 5 alternating 0%nat)) = 5).
Proof. apply bell_ghz_support. lia. Defined.

Example bell_five_shots :
  fst (simulateBell 5 alternating 0%nat) = mkBell 3 0 0 2.
Proof. vm_compute. reflexivity. Qed.

(** ** BB84 without an eavesdropper *)

(** The loop variables of a run that has met no error. *)
Definition error_free (s : Bb84Loop) : Prop :=
  errors s = 0 /\ Forall (fun row => error row = false) (loopTrace s).

Lemma bit_eqb_refl (b : Bit) : bit_eqb b b = true.
Proof. destruct b; reflexivity. Qed.

Lemma basis_eqb_sym (a b : Basis) : basis_eqb a b = basis_eqb b a.
Proof. destruct a, b; reflexivity. Qed.

(** Without Eve, a sifted round carries Alice's bit to Bob unchanged. *)
Lemma bb84Round_error_free (s : Bb84Loop) (src : source) (i : nat) :
  error_free s -> error_free (fst (bb84Round false s src i)).
Proof.
  intros [He Ht].
  unfold bb84Round, intercept, randomBit, randomBasis, bind, random, ret.
  set (aBit := if ltb (src i) (1 # 2) then bit0 else bit1).
  set (aBasis := if ltb (src (S i)) (1 # 2) then basisZ else basisX).
  set (bBasis := if ltb (src (S (S i))) (1 # 2) then basisZ else basisX).
  rewrite (basis_eqb_sym bBasis aBasis).
  destruct (basis_eqb aBasis bBasis) eqn:Em; cbn [fst snd andb];
    rewrite ?bit_eqb_refl; cbn [negb andb]; unfold error_free; cbn [errors loopTrace].
  - split; [assumption|].
    destruct (loopIndex s <? 50); [|assumption].
    apply Forall_app. split; [assumption|]. constructor; [reflexivity | constructor].
  - split; [assumption|].
    destruct (loopIndex s <? 50); [|assumption].
    apply Forall_app. split; [assumption|]. constructor; [reflexivity | constructor].
Qed.

(** With Eve the same loop does count errors. *)
Example bb84_eve_error :
  errors (fst (bb84Loop (mkConfig 1 true) unlucky 0%nat)) = 1 /\
  sifted (fst (bb84Loop (mkConfig 1 true) unlucky 0%nat)) = 1.
Proof. vm_compute. split; reflexivity. Qed.

Lemma rate_zero (sifted : Z) : (rate 0 sifted == 0)%Q.
Proof.
  unfold rate. destruct (0 <? sifted); [|reflexivity].
  unfold Qdiv. rewrite Qmult_0_l. reflexivity.
Qed.

(** C2. BB84 without an eavesdropper: for every number of rounds and every
    sequence of draws, the run counts no error, no traced round is flagged as
    an error, and the reported error rate is 0. *)
Theorem bb84_no_eve_error_free (n : Z) (src : source) (i : nat) :
  errors (fst (bb84Loop (mkConfig n false) src i)) = 0 /\
  Forall (fun row => error row = false)
         (trace (fst (runBb84 (mkConfig n false) src i))) /\
  (errorRate (fst (runBb84 (mkConfig n false) src i)) == 0)%Q.
Proof.
  assert (H : error_free (fst (bb84Loop (mkConfig n false) src i))).
  { unfold bb84Loop. apply repeat_invariant.
    - intros s src' j. apply bb84Round_error_free.
    - split; [reflexivity | constructor]. }
  destruct H as [He Ht]. split; [exact He|].
  unfold runBb84, bind, ret.
  destruct (bb84Loop (mkConfig n false) src i) as [s j]. simpl in *.
  split; [exact Ht|]. rewrite He. apply rate_zero.
Qed.

End SimFacts.

(* ================================================================== *)
(** * Text: the parts of the JavaScript string library the code uses *)
(* ================================================================== *)

Module Text.
Local Open Scope string_scope.
Local Open Scope char_scope.

(** Strings are sequences of UTF-16 code units below 256 (the Latin-1
    range). *)

(** A decimal digit, as the constructor it contributes to a numeral. *)
Definition digit (c : ascii) : option (uint -> uint) :=
  match c with
  | "0" => Some D0 | "1" => Some D1 | "2" => Some D2 | "3" => Some D3
  | "4" => Some D4 | "5" => Some D5 | "6" => Some D6 | "7" => Some D7
  | "8" => Some D8 | "9" => Some D9
  | _ => None
  end.

Definition is_digit (c : ascii) : bool :=
  match digit c with Some _ => true | None => false end.

(** The value of a decimal digit. *)
Definition digit_value (c : ascii) : option Z :=
  match c with
  | "0" => Some 0%Z | "1" => Some 1%Z | "2" => Some 2%Z | "3" => Some 3%Z
  | "4" => Some 4%Z | "5" => Some 5%Z | "6" => Some 6%Z | "7" => Some 7%Z
  | "8" => Some 8%Z | "9" => Some 9%Z
  | _ => None
  end.

(** The white space of [trim], of [parseInt] and of the class [\s], as far as
    it lies below 256: tab, line feed, vertical tab, form feed, carriage
    return, space, and the no-break space U+00A0. *)
Definition is_space (c : ascii) : bool :=
  let n := nat_of_ascii c in
  ((9 <=? n) && (n <=? 13))%nat || (n =? 32)%nat || (n =? 160)%nat.

(** The longest prefix of decimal digits, as a numeral ([Nil] when the string
    does not start with a digit), and what follows it. *)
Fixpoint leading_digits (s : string) : uint :=
  match s with
  | EmptyString => Nil
  | String c s' =>
      match digit c with
      | Some d => d (leading_digits s')
      | None => Nil
      end
  end.

Fixpoint after_digits (s : string) : string :=
  match s with
  | EmptyString => EmptyString
  | String c s' => if is_digit c then after_digits s' else s
  end.

Fixpoint trim_start (s : string) : string :=
  match s with
  | EmptyString => EmptyString
  | String c s' => if is_space c then trim_start s' else s
  end.

(** The mathematical integer that the digits at the head of [s] write, after
    the digits already read as [acc]. *)
Fixpoint digits_value (acc : Z) (s : string) : Z :=
  match s with
  | EmptyString => acc
  | String c s' =>
      match digit_value c with
      | Some d => digits_value (10 * acc + d) s'
      | None => acc
      end
  end.

(** The Number value of a mathematical integer: itself up to 2^53 in
    magnitude, and beyond that the nearest integer with 53 significant bits,
    a tie going to the even one.  (The exponent range is not bounded here:
    from 2^1024 on, that is for more than 308 digits, ECMAScript has
    Infinity.) *)
Definition toNumber (z : Z) : Z :=
  let a := Z.abs z in
  let e := (Z.log2 a - 52)%Z in
  if (e <=? 0)%Z then z
  else
    let q := (a / 2 ^ e)%Z in
    let r := (a mod 2 ^ e)%Z in
    let half := (2 ^ (e - 1))%Z in
    let q' := if (half <? r)%Z || ((r =? half)%Z && Z.odd q) then (q + 1)%Z else q in
    (Z.sgn z * (q' * 2 ^ e))%Z.

(** The number read from the digits at the head of [s]; [None] is NaN. *)
Definition parse_digits (sign : Z) (s : string) : option Z :=
  match s with
  | EmptyString => None
  | String c _ =>
      if is_digit c then Some (toNumber (sign * digits_value 0 s)) else None
  end.

(** [parseInt(s, 10)]: leading white space, an optional sign, then the longest
    run of digits. *)
Definition parseInt (s : string) : option Z :=
  match trim_start s with
  | String "-" rest => parse_digits (-1) rest
  | String "+" rest => parse_digits 1 rest
  | s' => parse_digits 1 s'
  end.

End Text.

Module TextFacts.
Import Text.
Local Open Scope Z_scope.

(** ** The Number value of an integer *)

Lemma toNumber_safe (z : Z) : Z.abs z <= 2 ^ 53 -> toNumber z = z.
Proof.
  intros H. unfold toNumber.
  destruct (Z.leb_spec (Z.log2 (Z.abs z) - 52) 0) as [_ | He]; [reflexivity|].
  assert (Ha : 0 < Z.abs z).
  { destruct (Z.eq_dec (Z.abs z) 0) as [E | E]; [| lia].
    rewrite E in He. simpl in He. lia. }
  assert (Hl : Z.log2 (Z.abs z) = 53).
  { pose proof (Z.log2_le_mono _ _ H) as Hle.
    rewrite Z.log2_pow2 in Hle by lia. lia. }
  rewrite Hl. change (53 - 52) with 1. change (2 ^ 1) with 2.
  change (2 ^ (1 - 1)) with 1.
  assert (E : Z.abs z = 2 ^ 53).
  { pose proof (Z.log2_spec _ Ha) as [Hlo _]. rewrite Hl in Hlo. lia. }
  rewrite E. vm_compute Z.odd. vm_compute (2 ^ 53 mod 2).
  vm_compute (2 ^ 53 / 2). cbn [Z.ltb Z.eqb Z.compare orb andb].
  change (4503599627370496 * 2) with (2 ^ 53). rewrite <- E.
  rewrite Z.mul_comm. apply Z.abs_sgn.
Qed.

Lemma toNumber_above (z : Z) : 2 ^ 53 <= z -> 2 ^ 53 <= toNumber z.
Proof.
  intros H. unfold toNumber.
  assert (Ha : Z.abs z = z) by lia. rewrite Ha.
  destruct (Z.leb_spec (Z.log2 z - 52) 0) as [_ | He]; [assumption|].
  set (e := Z.log2 z - 52) in *.
  assert (Hp : 0 < 2 ^ e) by (apply Z.pow_pos_nonneg; lia).
  assert (Hq : 2 ^ 52 <= z / 2 ^ e).
  { apply Z.div_le_lower_bound; [assumption|].
    rewrite Z.mul_comm, <- Z.pow_add_r by lia.
    replace (52 + e) with (Z.log2 z) by (unfold e; lia).
    apply Z.log2_spec. lia. }
  rewrite Z.sgn_pos by lia.
  assert (Hq' : 2 ^ 52 <=
                (if (2 ^ (e - 1) <? z mod 2 ^ e)
                    || (z mod 2 ^ e =? 2 ^ (e - 1)) && Z.odd (z / 2 ^ e)
                 then z / 2 ^ e + 1 else z / 2 ^ e)).
  { destruct ((2 ^ (e - 1) <? z mod 2 ^ e)
              || (z mod 2 ^ e =? 2 ^ (e - 1)) && Z.odd (z / 2 ^ e)); lia. }
  assert (H2 : 2 <= 2 ^ e).
  { change 2 with (2 ^ 1) at 1. apply Z.pow_le_mono_r; lia. }
  change (2 ^ 53) with (2 ^ 52 * 2). nia.
Qed.





Lemma toNumber_nonneg (z : Z) : 0 <= z -> 0 <= toNumber z.
Proof.
  intros H. destruct (Z.le_gt_cases (2 ^ 53) z) as [H' | H'].
  - pose proof (toNumber_above z H'). lia.
  - rewrite toNumber_safe by lia. assumption.
Qed.

(** The first integer that is not a Number: 2^53 + 1 rounds to 2^53. *)
Lemma toNumber_first_gap : toNumber (2 ^ 53 + 1) = 2 ^ 53.
Proof. vm_compute. reflexivity. Qed.

(** ** Digits *)

Lemma digit_value_is_digit (c : ascii) :
  is_digit c = true <-> exists d, digit_value c = Some d /\ 0 <= d <= 9.
Proof.
  unfold is_digit, digit, digit_value.
  destruct c as [[] [] [] [] [] [] [] []]; cbn; split;
    try discriminate; try (intros (d & E & _); discriminate E);
    try reflexivity; intros _; eexists; (split; [reflexivity | lia]).
Qed.

Lemma digit_value_not_digit (c : ascii) :
  is_digit c = false -> digit_value c = None.
Proof.
  unfold is_digit, digit, digit_value.
  destruct c as [[] [] [] [] [] [] [] []]; cbn; try discriminate; reflexivity.
Qed.

Lemma digits_value_nonneg (s : string) (acc : Z) : 0 <= acc -> 0 <= digits_value acc s.
Proof.
  revert acc. induction s as [| c s IH]; intros acc Hacc; cbn [digits_value]; [assumption|].
  destruct (digit_value c) as [d |] eqn:E; [| assumption].
  apply IH.
  assert (is_digit c = true).
  { destruct (is_digit c) eqn:D; [reflexivity|].
    rewrite (digit_value_not_digit c D) in E. discriminate E. }
  apply digit_value_is_digit in H as (d' & E' & Hd).
  rewrite E in E'. injection E' as E'. subst d'. lia.
Qed.

End TextFacts.

(* ================================================================== *)
(** * The Bell endpoint ([POST /api/experiments/bell]) *)
(* ================================================================== *)

Module Server.
Import Rand Sim Text.
Local Open Scope string_scope.

(** ** Numbers and their [String()] form *)

(** The decimal digits, and those that can come first. *)
Inductive dec : Type := d0 | d1 | d2 | d3 | d4 | d5 | d6 | d7 | d8 | d9.

Inductive nz : Type := n1 | n2 | n3 | n4 | n5 | n6 | n7 | n8 | n9.

Definition dec_of (f : nz) : dec :=
  match f with
  | n1 => d1 | n2 => d2 | n3 => d3 | n4 => d4 | n5 => d5
  | n6 => d6 | n7 => d7 | n8 => d8 | n9 => d9
  end.

Definition char_of (d : dec) : ascii :=
  match d with
  | d0 => "0" | d1 => "1" | d2 => "2" | d3 => "3" | d4 => "4"
  | d5 => "5" | d6 => "6" | d7 => "7" | d8 => "8" | d9 => "9"
  end%char.

Definition dval (d : dec) : Z :=
  match d with
  | d0 => 0 | d1 => 1 | d2 => 2 | d3 => 3 | d4 => 4
  | d5 => 5 | d6 => 6 | d7 => 7 | d8 => 8 | d9 => 9
  end%Z.

Fixpoint render (l : list dec) : string :=
  match l with
  | [] => ""
  | d :: l' => String (char_of d) (render l')
  end.

(** The integer that a sequence of digits writes. *)
Definition valueOf (l : list dec) : Z :=
  fold_left (fun a d => (10 * a + dval d)%Z) l 0%Z.

(** A number received in a JSON body, as [Number::toString] decomposes it:
    zero, an infinity (a literal beyond the range), or
    [s * 10 ^ (point - k)] where [s] is the integer written by the [k] digits
    [first :: more] and [k] is as small as possible: the digits are those of
    the shortest decimal that reads back as the same binary64 value.  (A
    literal with more digits than that denotes the number it rounds to.) *)
Inductive JsonNumber : Type :=
| Jzero
| Jinfinite (negative : bool)
| Jfinite (negative : bool) (first : nz) (more : list dec) (point : Z).

(** The value of [req.body?.shots].  Arrays and objects are carried by their
    [String()] rendering. *)
Inductive jsvalue : Type :=
| JUndefined
| JNull
| JBool (b : bool)
| JNumber (n : JsonNumber)
| JString (s : string)
| JOther (rendered : string).

(** ["e+21"], ["e-7"] *)
Definition exponentPart (e : Z) : string :=
  "e" ++ (if (e <? 0)%Z then "-" else "+")
      ++ NilZero.string_of_uint (N.to_uint (Z.abs_N e)).

(** [Number::toString] on a positive finite number, case by case: an integer
    below 10^21; a number with digits on both sides of the point; a number
    below 1 and not below 10^-6; anything else, in exponent notation. *)
Definition finiteToString (first : nz) (more : list dec) (point : Z) : string :=
  let ds := dec_of first :: more in
  let k := Z.of_nat (List.length ds) in
  if (k <=? point)%Z && (point <=? 21)%Z then
    render (ds ++ List.repeat d0 (Z.to_nat (point - k)))
  else if (0 <? point)%Z && (point <=? 21)%Z then
    render (firstn (Z.to_nat point) ds) ++ "." ++ render (skipn (Z.to_nat point) ds)
  else if (-6 <? point)%Z && (point <=? 0)%Z then
    "0." ++ render (List.repeat d0 (Z.to_nat (- point)) ++ ds)
  else
    match more with
    | [] => render [dec_of first]
    | _ => render [dec_of first] ++ "." ++ render more
    end ++ exponentPart (point - 1).

Definition numberToString (n : JsonNumber) : string :=
  match n with
  | Jzero => "0"
  | Jinfinite negative => (if negative then "-" else "") ++ "Infinity"
  | Jfinite negative first more point =>
      (if negative then "-" else "") ++ finiteToString first more point
  end.

(** [String(v)] *)
Definition ToString (v : jsvalue) : string :=
  match v with
  | JUndefined => "undefined"
  | JNull => "null"
  | JBool true => "true"
  | JBool false => "false"
  | JNumber n => numberToString n
  | JString s => s
  | JOther rendered => rendered
  end.

(** [v ?? d] *)
Definition nullish (v d : jsvalue) : jsvalue :=
  match v with
  | JUndefined | JNull => d
  | _ => v
  end.




(** ** What the statements say of a number *)

Definition signOf (negative : bool) : Z := if negative then (-1)%Z else 1%Z.








(** The value of a number that has no digit after the point. *)
Definition integerValue (negative : bool) (first : nz) (more : list dec) (point : Z) : Z :=
  (signOf negative
   * (valueOf (dec_of first :: more) * 10 ^ (point - Z.of_nat (S (List.length more)))))%Z.


End Server.

Module ServerFacts.
Import Rand Sim Text TextFacts Server.
Local Open Scope string_scope.

(** What does not start with a digit. *)
Definition no_leading_digit (s : string) : Prop :=
  match s with
  | EmptyString => True
  | String c _ => is_digit c = false
  end.


Lemma append_assoc_r (a b c : string) : (a ++ b) ++ c = a ++ (b ++ c).
Proof. induction a as [| x a IH]; simpl; [reflexivity | now rewrite IH]. Qed.

Lemma render_app (l1 l2 : list dec) : render (l1 ++ l2) = render l1 ++ render l2.
Proof. induction l1 as [| d l1 IH]; simpl; [reflexivity | now rewrite IH]. Qed.

Lemma char_of_digit (d : dec) :
  digit_value (char_of d) = Some (dval d) /\ is_digit (char_of d) = true.
Proof. destruct d; split; reflexivity. Qed.

(** Reading back rendered digits. *)
Lemma digits_value_render (l : list dec) (rest : string) (acc : Z) :
  no_leading_digit rest ->
  digits_value acc (render l ++ rest)
  = fold_left (fun a d => (10 * a + dval d)%Z) l acc.
Proof.
  intros Hrest. revert acc. induction l as [| d l IH]; intros acc.
  - cbn [render append fold_left]. destruct rest as [| c rest]; [reflexivity|].
    cbn [digits_value]. cbn in Hrest. now rewrite (digit_value_not_digit c Hrest).
  - cbn [render append fold_left digits_value].
    destruct (char_of_digit d) as [-> _]. apply IH.
Qed.

Lemma parse_digits_render (sign : Z) (l : list dec) (rest : string) :
  l <> [] -> no_leading_digit rest ->
  parse_digits sign (render l ++ rest) = Some (toNumber (sign * valueOf l)).
Proof.
  intros Hl Hrest. pose proof (digits_value_render l rest 0 Hrest) as H.
  destruct l as [| d l]; [congruence|].
  unfold parse_digits. cbn [render append] in *.
  destruct (char_of_digit d) as [_ ->]. now rewrite H.
Qed.

(** A minus sign, rendered digits, and something that is not a digit. *)
Lemma parseInt_render (negative : bool) (l : list dec) (rest : string) :
  l <> [] -> no_leading_digit rest ->
  parseInt ((if negative then "-" else "") ++ render l ++ rest)
  = Some (toNumber (signOf negative * valueOf l)).
Proof.
  intros Hl Hrest. destruct negative; cbn [append signOf].
  - change (parseInt (String "-" (render l ++ rest)))
      with (parse_digits (-1) (render l ++ rest)).
    now apply parse_digits_render.
  - rewrite <- (parse_digits_render 1 l rest Hl Hrest).
    destruct l as [| d l]; [congruence|]. destruct d; reflexivity.
Qed.









End ServerFacts.

(* ================================================================== *)
(** * The OpenQASM parser ([parseQASM], [QasmVisualizer.tsx]) *)
(* ================================================================== *)

Module Qasm.
Import Text Gates.
Local Open Scope string_scope.

Definition newline : ascii := "010"%char.

(** [s.split('\n')] *)
Fixpoint split_lines (s : string) : list string :=
  match s with
  | EmptyString => [EmptyString]
  | String c s' =>
      if Ascii.eqb c newline then EmptyString :: split_lines s'
      else match split_lines s' with
           | l :: ls => String c l :: ls
           | [] => [String c EmptyString]
           end
  end.

(** [lines.join('\n')] *)
Definition join_lines (ls : list string) : string :=
  String.concat (String newline EmptyString) ls.

Fixpoint trim_end (s : string) : string :=
  match s with
  | EmptyString => EmptyString
  | String c s' =>
      match trim_end s' with
      | EmptyString => if is_space c then EmptyString else String c EmptyString
      | t => String c t
      end
  end.

(** [s.trim()] *)
Definition trim (s : string) : string := trim_end (trim_start s).

(** [s.replace(/;$/, '')] *)
Fixpoint drop_final_semicolon (s : string) : string :=
  match s with
  | EmptyString => EmptyString
  | String c EmptyString => if Ascii.eqb c ";"%char then EmptyString else s
  | String c s' => String c (drop_final_semicolon s')
  end.

(** The class [\w]: letters, digits and the underscore. *)
Definition is_word (c : ascii) : bool :=
  let n := nat_of_ascii c in
  ((48 <=? n) && (n <=? 57) || (65 <=? n) && (n <=? 90)
   || (97 <=? n) && (n <=? 122) || (n =? 95))%nat.

Definition upper (c : ascii) : ascii :=
  let n := nat_of_ascii c in
  if ((97 <=? n) && (n <=? 122))%nat then ascii_of_nat (n - 32) else c.

(** [s.toUpperCase()] *)
Fixpoint toUpperCase (s : string) : string :=
  match s with
  | EmptyString => EmptyString
  | String c s' => String (upper c) (toUpperCase s')
  end.

(** The longest prefix of characters of a class, and the rest. *)
Fixpoint span (p : ascii -> bool) (s : string) : string * string :=
  match s with
  | EmptyString => (EmptyString, EmptyString)
  | String c s' =>
      if p c then let (a, r) := span p s' in (String c a, r)
      else (EmptyString, s)
  end.

(** The pieces of the three regular expressions.  Each class is disjoint from
    what may follow it, so the greedy match is the only one. *)

(** [X+] for a class [X]: the match and what follows. *)
Definition some_of (p : ascii -> bool) (s : string) : option (string * string) :=
  match span p s with
  | (EmptyString, _) => None
  | (a, r) => Some (a, r)
  end.

(** [X*] *)
Definition any_of (p : ascii -> bool) (s : string) : string := snd (span p s).

Definition expect (c : ascii) (s : string) : option string :=
  match s with
  | String c' s' => if Ascii.eqb c c' then Some s' else None
  | EmptyString => None
  end.

Fixpoint expect_prefix (pre s : string) : option string :=
  match pre with
  | EmptyString => Some s
  | String c pre' =>
      match expect c s with
      | Some s' => expect_prefix pre' s'
      | None => None
      end
  end.

(** [+m[k]] for a captured run of digits. *)
Definition number_of (digits : string) : Z := toNumber (digits_value 0 digits).

(** [\w+\[(\d+)\]]: the captured index and what follows. *)
Definition indexed (s : string) : option (Z * string) :=
  match some_of is_word s with
  | None => None
  | Some (_, s1) =>
      match expect "["%char s1 with
      | None => None
      | Some s2 =>
          match some_of is_digit s2 with
          | None => None
          | Some (d, s3) =>
              match expect "]"%char s3 with
              | None => None
              | Some s4 => Some (number_of d, s4)
              end
          end
      end
  end.

(** [\s+] then [\w+\[(\d+)\]] *)
Definition spaced_indexed (s : string) : option (Z * string) :=
  match some_of is_space s with
  | None => None
  | Some (_, s1) => indexed s1
  end.

(** [measure\s+\w+\[(\d+)\]] at the head of [s]. *)
Definition measure_here (s : string) : option Z :=
  match expect_prefix "measure" s with
  | None => None
  | Some s1 => option_map fst (spaced_indexed s1)
  end.

(** A regular expression without [^] is tried at every position. *)
Fixpoint search {A} (m : string -> option A) (s : string) : option A :=
  match m s with
  | Some a => Some a
  | None =>
      match s with
      | EmptyString => None
      | String _ s' => search m s'
      end
  end.

(** [line.match(/measure\s+\w+\[(\d+)\]/)] *)
Definition match_measure (line : string) : option Z := search measure_here line.

(** [line.match(/^cx\s+\w+\[(\d+)\]\s*,\s*\w+\[(\d+)\]/)] *)
Definition match_cx (line : string) : option (Z * Z) :=
  match expect_prefix "cx" line with
  | None => None
  | Some s1 =>
      match spaced_indexed s1 with
      | None => None
      | Some (q, s2) =>
          match expect ","%char (any_of is_space s2) with
          | None => None
          | Some s3 =>
              match indexed (any_of is_space s3) with
              | None => None
              | Some (t, _) => Some (q, t)
              end
          end
      end
  end.

(** [line.match(/^(\w+)\s+\w+\[(\d+)\]/)] *)
Definition match_gate (line : string) : option (string * Z) :=
  match some_of is_word line with
  | None => None
  | Some (name, s1) =>
      match spaced_indexed s1 with
      | None => None
      | Some (q, _) => Some (name, q)
      end
  end.

Definition singleQubit : list string := ["H"; "X"; "Y"; "Z"; "S"; "T"].

Definition includes (l : list string) (s : string) : bool :=
  existsb (String.eqb s) l.

(** The lines the parser skips before looking for an instruction. *)
Definition skipped (line : string) : bool :=
  String.eqb line "" || prefix "OPENQASM" line || prefix "include" line
  || prefix "//" line || prefix "qreg" line || prefix "creg" line.

(** The body of the [forEach]: the gates one line pushes. *)
Definition parseLine (line : string) : list CircuitGate :=
  let line := drop_final_semicolon (trim line) in
  if skipped line then []
  else if prefix "measure" line then
    match match_measure line with
    | Some q => [mkGate "M" (Some q) None None]
    | None => []
    end
  else
    match match_cx line with
    | Some (q, t) => [mkGate "CNOT" (Some q) (Some t) None]
    | None =>
        match match_gate line with
        | Some (name, q) =>
            let g := toUpperCase name in
            if includes singleQubit g then [mkGate g (Some q) None None] else []
        | None => []
        end
    end.

Definition parseQASM (src : string) : list CircuitGate :=
  flat_map parseLine (split_lines src).


(** [EXAMPLES.bell] *)
Definition example_bell : list string :=
  ["OPENQASM 2.0;";
   "include " ++ String (ascii_of_nat 34) ("qelib1.inc" ++ String (ascii_of_nat 34) ";");
   "qreg q[2];"; "creg c[2];";
   "h q[0];"; "cx q[0],q[1];"; "measure q[0] -> c[0];"; "measure q[1] -> c[1];"].

End Qasm.

Module QasmFacts.
Import Text Gates Qasm.
Local Open Scope string_scope.





Lemma includes_In (l : list string) (s : string) : includes l s = true -> In s l.
Proof.
  unfold includes. intros H. apply existsb_exists in H as (x & Hx & E).
  apply String.eqb_eq in E. now subst.
Qed.



(** The Bell example parses to H, CNOT and the two measurements. *)
Example parse_bell_example :
  parseQASM (join_lines example_bell)
  = [mkGate "H" (Some 0%Z) None None; mkGate "CNOT" (Some 0%Z) (Some 1%Z) None;
     mkGate "M" (Some 0%Z) None None; mkGate "M" (Some 1%Z) None None].
Proof. vm_compute. reflexivity. Qed.

(** Instructions outside the subset contribute no gate. *)
Example unrecognized_lines :
  parseLine "rx(1.57) q[0];" = [] /\ parseLine "swap q[0],q[1];" = [] /\
  parseLine "u3 q[1];" = [] /\ parseLine "barrier q;" = [] /\
  parseLine "  foo bar  " = [].
Proof. vm_compute. repeat split. Qed.

End QasmFacts.

(* ================================================================== *)
(** * The hooks as their users see them ([useBlochState.ts]) *)
(* ================================================================== *)

Module Hook.
Import JsNumber Bloch.
Local Open Scope js_scope.

(** [useBlochState]: [p0 = (state.z + 1) / 2], [p1 = 1 - p0],
    [health = Math.sqrt(x ** 2 + y ** 2 + z ** 2) * 100]. *)
Definition p0 (state : BlochVector) : number := (z state + Fin 1) / Fin 2.

Definition p1 (state : BlochVector) : number := Fin 1 - p0 state.

Definition health (state : BlochVector) : number := blen state * Fin 100.

(** [getShot]: [Math.random() < p0 ? 0 : 1] on [stateRef.current], [draw]
    being the value [Math.random()] returns. *)
Definition getShot (draw : number) (e : Evolution) : Z :=
  if p0 (stateRef e) >? draw then 0%Z else 1%Z.

(** [setRunningWrapped] *)
Definition setRunning (b : bool) (e : Evolution) : Evolution :=
  mkEvolution (state e) (history e) b (stateRef e) (historyRef e).

(** What can happen to a mounted hook: a frame callback, or one of the
    callbacks it hands out. *)
Inductive action : Type :=
| Frame (steps : nat) (noise : NoiseParams)
| Reset (next : BlochVector)
| Scrub (index : Z)
| SetRunning (b : bool).

Definition perform (a : action) (e : Evolution) : Evolution :=
  match a with
  | Frame steps noise => loop steps noise e
  | Reset next => resetTo next e
  | Scrub index => scrubToIndex index e
  | SetRunning b => setRunning b e
  end.

(** The hook after a sequence of events, oldest first. *)
Definition after (actions : list action) (e : Evolution) : Evolution :=
  fold_left (fun e a => perform a e) actions e.

(** The refs and the published states agree, the history holds between 1 and
    [MAX_HISTORY] entries, and the current vector is one of them. *)
Definition consistent (e : Evolution) : Prop :=
  state e = stateRef e /\ history e = historyRef e /\
  (1 <= List.length (historyRef e) <= MAX_HISTORY)%nat /\
  In (stateRef e) (historyRef e).

(** An event that keeps the state physical: a frame under finite parameters
    with a speed that is not negative, a reset to a vector of the unit ball. *)
Definition physical (a : action) : Prop :=
  match a with
  | Frame _ noise => finite_noise noise /\ gtb (Fin 0) (speed noise) = false
  | Reset next => in_ball 1 next
  | _ => True
  end.

(** A component that is zero or NaN. *)
Definition zeroish (a : number) : Prop := a = Fin 0 \/ a = NaN.

(** A vector whose components are zero or NaN. *)
Definition faded (v : BlochVector) : Prop :=
  zeroish (x v) /\ zeroish (y v) /\ zeroish (z v).

Definition origin : BlochVector := mkBloch (Fin 0) (Fin 0) (Fin 0).

(** The north pole, with [x] and [y] zero or NaN. *)
Definition polar (v : BlochVector) : Prop :=
  zeroish (x v) /\ zeroish (y v) /\ z v = Fin 1.

End Hook.

Module HookFacts.
Import JsNumber JsNumberFacts Bloch BlochFacts EvolutionFacts Hook.

Lemma slice_last_length {A} (n : nat) (l : list A) :
  List.length (slice_last n l) = Nat.min n (List.length l).
Proof. unfold slice_last. rewrite length_skipn. lia. Qed.

Lemma slice_last_Forall {A} (P : A -> Prop) (n : nat) (l : list A) :
  Forall P l -> Forall P (slice_last n l).
Proof.
  intros H. unfold slice_last.
  rewrite <- (firstn_skipn (List.length l - n) l) in H.
  now apply Forall_app in H as [_ H].
Qed.

Lemma slice_last_all {A} (n : nat) (l : list A) :
  (List.length l <= n)%nat -> slice_last n l = l.
Proof.
  intros H. unfold slice_last.
  replace (List.length l - n)%nat with 0%nat by lia. reflexivity.
Qed.

(** X1. History capacity: a frame appends the new vector and keeps the most
    recent [MAX_HISTORY] entries in order: what it drops is a prefix of the old
    history, nothing is dropped while there is room, and the result never
    exceeds 600 entries. *)
Theorem history_capacity (steps : nat) (noise : NoiseParams) (e : Evolution) :
  exists dropped,
    (historyRef e ++ [stateRef (loop steps noise e)] =
     dropped ++ historyRef (loop steps noise e))%list /\
    List.length dropped = (S (List.length (historyRef e)) - MAX_HISTORY)%nat /\
    List.length (historyRef (loop steps noise e))
    = Nat.min MAX_HISTORY (S (List.length (historyRef e))) /\
    (List.length (historyRef (loop steps noise e)) <= MAX_HISTORY)%nat.
Proof.
  unfold loop; cbn [historyRef stateRef].
  set (v := stepN (Nat.max 1 steps) noise (stateRef e)).
  set (l := (historyRef e ++ [v])%list).
  assert (Hl : List.length l = S (List.length (historyRef e))).
  { unfold l. rewrite length_app. simpl. lia. }
  exists (firstn (List.length l - MAX_HISTORY) l). repeat split.
  - unfold slice_last. now rewrite firstn_skipn.
  - rewrite length_firstn, Hl. unfold MAX_HISTORY. lia.
  - rewrite slice_last_length, Hl. reflexivity.
  - rewrite slice_last_length. unfold MAX_HISTORY. lia.
Qed.

Lemma perform_consistent (a : action) (e : Evolution) :
  consistent e -> consistent (perform a e).
Proof.
  intros (Hs & Hh & Hlen & Hin). destruct a as [steps noise | next | index | b].
  - unfold consistent, perform, loop; cbn [state history stateRef historyRef].
    set (v := stepN (Nat.max 1 steps) noise (stateRef e)).
    repeat split.
    + rewrite slice_last_length, length_app. cbn [List.length].
      unfold MAX_HISTORY in *. lia.
    + rewrite slice_last_length, length_app. cbn [List.length].
      unfold MAX_HISTORY in *. lia.
    + change MAX_HISTORY with (S 599). rewrite slice_last_snoc.
      apply in_or_app. right. now left.
  - unfold consistent, perform, resetTo; cbn [state history stateRef historyRef List.length].
    unfold MAX_HISTORY. repeat split; try lia. now left.
  - unfold perform, scrubToIndex, at_index.
    destruct (index <? 0)%Z; [now repeat split|].
    destruct (nth_error (historyRef e) (Z.to_nat index)) as [target |] eqn:E;
      [| now repeat split].
    unfold consistent; simpl. repeat split; try assumption; try lia.
    now apply nth_error_In in E.
  - unfold consistent, perform, setRunning; simpl. now repeat split.
Qed.

Lemma after_consistent (actions : list action) (e : Evolution) :
  consistent e -> consistent (after actions e).
Proof.
  unfold after. revert e.
  induction actions as [| a actions IH]; intros e He; simpl; [assumption|].
  apply IH. now apply perform_consistent.
Qed.

Lemma started_consistent (v : BlochVector) : consistent (started v).
Proof.
  unfold consistent, started; cbn [state history stateRef historyRef List.length].
  unfold MAX_HISTORY. repeat split; try lia. now left.
Qed.

(** X2. Whatever sequence of frames, resets, scrubs and pauses a hook goes
    through after mounting, its refs and its published state agree, its
    history holds between 1 and 600 entries, and the current vector is one of
    the history entries. *)
Theorem hook_consistent (actions : list action) (v : BlochVector) :
  consistent (after actions (started v)).
Proof. apply after_consistent, started_consistent. Qed.

Lemma stepN_physical (noise : NoiseParams) (k : nat) (v : BlochVector) :
  finite_noise noise -> gtb (Fin 0) (speed noise) = false ->
  in_ball 1 v -> in_ball 1 (stepN k noise v).
Proof.
  intros Hn Hs Hv. pose proof Hn as (d & p & bf & am & s & E).
  assert (Es : speed noise = Fin s) by (now rewrite E).
  rewrite Es in Hs. apply gtb_fin_false in Hs.
  now apply (stepN_unit_ball noise s).
Qed.

Lemma perform_physical (a : action) (e : Evolution) :
  physical a ->
  Forall (in_ball 1) (historyRef e) /\ in_ball 1 (stateRef e) ->
  Forall (in_ball 1) (historyRef (perform a e)) /\ in_ball 1 (stateRef (perform a e)).
Proof.
  intros Ha [Hh Hs]. destruct a as [steps noise | next | index | b].
  - destruct Ha as [Hn Hsp]. unfold perform, loop; cbn [stateRef historyRef].
    assert (Hv : in_ball 1 (stepN (Nat.max 1 steps) noise (stateRef e)))
      by now apply stepN_physical.
    split; [| exact Hv].
    apply slice_last_Forall, Forall_app. split; [assumption|].
    constructor; [exact Hv | constructor].
  - simpl in Ha. unfold perform, resetTo; cbn [stateRef historyRef].
    split; [| exact Ha]. constructor; [exact Ha | constructor].
  - unfold perform, scrubToIndex, at_index.
    destruct (index <? 0)%Z; [now split|].
    destruct (nth_error (historyRef e) (Z.to_nat index)) as [target |] eqn:E;
      [| now split].
    cbn [stateRef historyRef]. split; [assumption|].
    apply nth_error_In in E. rewrite Forall_forall in Hh. now apply Hh.
  - unfold perform, setRunning; cbn [stateRef historyRef]. now split.
Qed.

(** X3. Purity of the whole history: when the hook is mounted on a vector of
    the unit ball, every reset is to such a vector, and every frame runs under
    finite parameters with a speed that is not negative, then every entry of
    the history (and the current vector) has length at most 1, whatever
    the scrubs and pauses in between and whatever overflows inside a step
    (the rounding inside the binary64 range is not modelled). *)
Theorem history_stays_physical (actions : list action) (v : BlochVector) :
  Forall physical actions -> in_ball 1 v ->
  Forall (in_ball 1) (history (after actions (started v))) /\
  in_ball 1 (state (after actions (started v))).
Proof.
  intros Ha Hv.
  destruct (after_consistent actions _ (started_consistent v)) as (Es & Eh & _ & _).
  rewrite Es, Eh.
  clear Es Eh. unfold after.
  assert (H0 : Forall (in_ball 1) (historyRef (started v)) /\
               in_ball 1 (stateRef (started v))).
  { unfold started; cbn [stateRef historyRef]. split; [| exact Hv].
    constructor; [exact Hv | constructor]. }
  revert H0. generalize (started v).
  induction Ha as [| a actions Hphys _ IH]; intros e He; simpl; [assumption|].
  apply IH. now apply perform_physical.
Qed.

Lemma history_stays_physical_witness :
  Forall (in_ball 1)
    (history (after [Frame 2 noisy; Scrub 0; Reset zero; Frame 1 quiet] (started plus))) /\
  in_ball 1
    (state (after [Frame 2 noisy; Scrub 0; Reset zero; Frame 1 quiet] (started plus))).
Proof.
  apply history_stays_physical.
  - repeat constructor.
    + exists 0.5%R, 0.2%R, 0.1%R, 0.3%R, 1%R. reflexivity.
    + simpl. destruct (Rlt_dec 1 0) as [H | _]; [lra | reflexivity].
    + apply in_ball_small; lra.
    + exists 0%R, 0%R, 0%R, 0%R, 1%R. reflexivity.
    + simpl. destruct (Rlt_dec 1 0) as [H | _]; [lra | reflexivity].
  - apply in_ball_small; lra.
Defined.

(** X4. Scrubbing never edits the history, so scrubs compose: after any scrub,
    a scrub to an index inside the history gives what it would have given
    directly. *)
Theorem scrub_last_wins (i j : Z) (e : Evolution) :
  (0 <= j < Z.of_nat (List.length (historyRef e)))%Z ->
  scrubToIndex j (scrubToIndex i e) = scrubToIndex j e /\
  historyRef (scrubToIndex j (scrubToIndex i e)) = historyRef e /\
  history (scrubToIndex j (scrubToIndex i e)) = history e.
Proof.
  intros Hj. destruct (at_index_in_range _ _ Hj) as (tj & Ej & _).
  assert (E1 : scrubToIndex j e
               = mkEvolution tj (history e) false tj (historyRef e)).
  { unfold scrubToIndex. now rewrite Ej. }
  assert (E2 : scrubToIndex j (scrubToIndex i e) = scrubToIndex j e).
  { rewrite E1. unfold scrubToIndex at 2.
    destruct (at_index (historyRef e) i) as [ti |].
    - unfold scrubToIndex; cbn [historyRef history]. now rewrite Ej.
    - exact E1. }
  rewrite E2, E1. now repeat split.
Qed.

Lemma scrub_last_wins_witness :
  scrubToIndex 0 (scrubToIndex 5 (mkEvolution one [zero; plus] true one [zero; plus]))
  = scrubToIndex 0 (mkEvolution one [zero; plus] true one [zero; plus]) /\
  historyRef (scrubToIndex 0 (scrubToIndex 5
     (mkEvolution one [zero; plus] true one [zero; plus]))) = [zero; plus] /\
  history (scrubToIndex 0 (scrubToIndex 5
     (mkEvolution one [zero; plus] true one [zero; plus]))) = [zero; plus].
Proof.
  apply (scrub_last_wins 5 0 (mkEvolution one [zero; plus] true one [zero; plus])).
  simpl. lia.
Defined.

(** ** The derived readings of [useBlochState] and [getShot] *)

Lemma unit_ball_z_range (a1 a2 a3 : R) :
  (a1 * a1 + a2 * a2 + a3 * a3 <= 1)%R -> (-1 <= a3 <= 1)%R.
Proof. intros H. split; nra. Qed.

(** X5. On a vector of length at most 1 the probabilities [p0] and [p1] are
    finite numbers of [0, 1] that add up to 1, and [health] lies in [0, 100]. *)
Theorem readings_in_range (v : BlochVector) :
  in_ball 1 v ->
  exists p h : R,
    p0 v = Fin p /\ p1 v = Fin (1 - p) /\ (0 <= p <= 1)%R /\
    health v = Fin h /\ (0 <= h <= 100)%R.
Proof.
  intros (a1 & a2 & a3 & -> & H & _).
  pose proof (unit_ball_z_range _ _ _ H) as Hz.
  assert (Hq : (0 <= a1 * a1 + a2 * a2 + a3 * a3)%R) by nra.
  exists ((a3 + 1) / 2)%R, (R_sqrt.sqrt (a1 * a1 + a2 * a2 + a3 * a3) * 100)%R.
  unfold p1, p0, health, blen, r2_of. cbn [x y z].
  cbn [add mul]. rewrite (div_fin_pos _ 2 ltac:(lra)).
  rewrite (sqrt_fin_nonneg _ Hq). cbn [sub add neg mul].
  repeat split; try lra.
  - apply Rmult_le_pos; [apply sqrt_pos | lra].
  - assert (Hs : (R_sqrt.sqrt (a1 * a1 + a2 * a2 + a3 * a3) <= 1)%R).
    { rewrite <- sqrt_1. apply sqrt_le_1; lra. }
    lra.
Qed.

Lemma readings_in_range_witness :
  exists p h : R,
    p0 plus = Fin p /\ p1 plus = Fin (1 - p) /\ (0 <= p <= 1)%R /\
    health plus = Fin h /\ (0 <= h <= 100)%R.
Proof.
  apply readings_in_range. apply in_ball_small; lra.
Defined.

(** X6. A shot on the state |0> ([z = 1]) is always 0 and a shot on |1>
    ([z = -1]) is always 1, for every draw of [0, 1). *)
Theorem getShot_on_poles (r : R) (e : Evolution) :
  (0 <= r < 1)%R ->
  (z (stateRef e) = Fin 1 -> getShot (Fin r) e = 0%Z) /\
  (z (stateRef e) = Fin (-1) -> getShot (Fin r) e = 1%Z).
Proof.
  intros Hr. unfold getShot, p0. split; intros ->; cbn [add];
    rewrite (div_fin_pos _ 2 ltac:(lra)); cbn [gtb].
  - destruct (Rlt_dec r ((1 + 1) / 2)) as [_ | H]; [reflexivity | lra].
  - destruct (Rlt_dec r ((-1 + 1) / 2)) as [H | _]; [lra | reflexivity].
Qed.

Lemma getShot_on_poles_witness :
  getShot (Fin 0.5) (started zero) = 0%Z /\ getShot (Fin 0.5) (started one) = 1%Z.
Proof.
  destruct (getShot_on_poles 0.5 (started zero) ltac:(lra)) as [H0 _].
  destruct (getShot_on_poles 0.5 (started one) ltac:(lra)) as [_ H1].
  split; [apply H0 | apply H1]; reflexivity.
Defined.

End HookFacts.

(* ================================================================== *)
(** * More on the stepper: decay and fixed points *)
(* ================================================================== *)

Module StepperFacts.
Import JsNumber JsNumberFacts Bloch BlochFacts Hook.
Local Open Scope R_scope.

(** X7. Monotone decay: with amplitude damping off, finite parameters and a
    speed that is not negative, no number of stepper calls lengthens the
    vector: every bound on the squared length of the start vector still bounds
    it afterwards.  This holds through every overflow of the range (of the
    rates, of the rotated coordinates, of the squares), rounding apart. *)
Theorem monotone_decay (b : R) (noise : NoiseParams) (k : nat) (v : BlochVector) :
  finite_noise noise -> gtb (Fin 0) (speed noise) = false ->
  gtb (amplitudeDamping noise) (Fin 0) = false ->
  in_ball b v -> in_ball b (stepN k noise v).
Proof.
  intros Hn Hs Ha. pose proof Hn as (d & p & bf & am & s & E).
  assert (Es : speed noise = Fin s) by (now rewrite E).
  rewrite Es in Hs. apply gtb_fin_false in Hs.
  revert v. induction k as [| k IH]; intros v Hv; simpl; [assumption|].
  apply IH. apply (step_in_ball b noise s); try assumption. lra.
Qed.

Lemma monotone_decay_witness :
  in_ball 0.25 (stepN 4 (mkNoise (Fin 0.5) (Fin 0.2) (Fin 0.1) (Fin 0) (Fin 1))
                  (mkBloch (Fin 0.5) (Fin 0) (Fin 0))).
Proof.
  apply monotone_decay.
  - exists 0.5, 0.2, 0.1, 0, 1. reflexivity.
  - simpl. destruct (Rlt_dec 1 0) as [H | _]; [lra | reflexivity].
  - simpl. destruct (Rlt_dec 0 0) as [H | _]; [lra | reflexivity].
  - apply in_ball_small; lra.
Defined.

(** ** Fixed points *)

Lemma zeroish_overflow (a : number) : zeroish a -> zeroish (overflow a).
Proof.
  intros [-> | ->]; [| now right]. left. apply overflow_fin, in_range_0.
Qed.

Lemma zeroish_mul (a b : number) : zeroish a -> zeroish (mul a b).
Proof.
  intros [-> | ->]; [| now right].
  destruct b as [ | | | s]; simpl; unfold scale_inf; rewrite ?sgn_zero;
    try (now right).
  left. f_equal. ring.
Qed.

Lemma zeroish_add (a b : number) : zeroish a -> zeroish b -> zeroish (add a b).
Proof.
  intros [-> | ->] [-> | ->]; simpl; try (now right).
  left. f_equal. ring.
Qed.

Lemma zeroish_neg (a : number) : zeroish a -> zeroish (neg a).
Proof.
  intros [-> | ->]; simpl; [| now right]. left. f_equal. ring.
Qed.

Lemma zeroish_fmul (a b : number) : zeroish a -> zeroish (fmul a b).
Proof. intros H. now apply zeroish_overflow, zeroish_mul. Qed.

Lemma zeroish_fadd (a b : number) : zeroish a -> zeroish b -> zeroish (fadd a b).
Proof. intros Ha Hb. now apply zeroish_overflow, zeroish_add. Qed.

Lemma zeroish_fsub (a b : number) : zeroish a -> zeroish b -> zeroish (fsub a b).
Proof. intros Ha Hb. now apply zeroish_overflow, zeroish_add, zeroish_neg. Qed.

Lemma zeroish_sanitized (a : number) : zeroish a -> or_else a (Fin 0) = Fin 0.
Proof. intros [-> | ->]; [apply or_else_fin_zero | reflexivity]. Qed.

Lemma zeroish_not_above (a : number) (c : R) : 0 < c -> zeroish a -> gtb a (Fin c) = false.
Proof.
  intros Hc [-> | ->]; [| reflexivity]. apply gtb_fin_false. lra.
Qed.

Ltac faded_stage :=
  repeat split; cbn [x y z];
  repeat first [ apply zeroish_fsub | apply zeroish_fadd | apply zeroish_fmul ];
  assumption.

Lemma precess_faded r t v : faded v -> faded (precess r t v).
Proof. intros (Hx & Hy & Hz). unfold precess. faded_stage. Qed.

Lemma depolarize_faded n r t v : faded v -> faded (depolarize n r t v).
Proof.
  intros (Hx & Hy & Hz). unfold depolarize.
  destruct (gtb (depolarizing n) (Fin 0)); [faded_stage | now repeat split].
Qed.

Lemma dephase_faded n r t v : faded v -> faded (dephase n r t v).
Proof.
  intros (Hx & Hy & Hz). unfold dephase.
  destruct (gtb (phaseFlip n) (Fin 0)); [faded_stage | now repeat split].
Qed.

Lemma bitflip_faded n r t v : faded v -> faded (bitflip n r t v).
Proof.
  intros (Hx & Hy & Hz). unfold bitflip.
  destruct (gtb (bitFlip n) (Fin 0)); [faded_stage | now repeat split].
Qed.

(** X8. The maximally mixed state is a fixed point: whenever the amplitude
    damping branch is not taken, one stepper call on (0, 0, 0) returns
    (0, 0, 0), for every parameters and time step, NaN and infinities
    included. *)
Theorem origin_fixed (noise : NoiseParams) (dt : number) :
  gtb (amplitudeDamping noise) (Fin 0) = false ->
  applyNoiseStep origin noise dt = origin.
Proof.
  intros Ha. unfold applyNoiseStep.
  unfold amplitudeDamp at 1. rewrite Ha.
  set (r := or_else (speed noise) (Fin 1)).
  assert (H0 : faded origin) by (repeat split; now left).
  assert (H5 : faded (bitflip noise r dt (dephase noise r dt
                        (depolarize noise r dt (precess r dt origin))))).
  { now apply bitflip_faded, dephase_faded, depolarize_faded, precess_faded. }
  revert H5. generalize (bitflip noise r dt (dephase noise r dt
                           (depolarize noise r dt (precess r dt origin)))).
  intros w (Hx & Hy & Hz).
  assert (Hr2 : zeroish (r2 w)).
  { unfold r2. repeat first [ apply zeroish_fadd | apply zeroish_fmul ]; assumption. }
  unfold clamp. rewrite (zeroish_not_above _ 1.000001 ltac:(lra) Hr2).
  unfold sanitize, origin. now rewrite !zeroish_sanitized.
Qed.

Lemma origin_fixed_witness :
  applyNoiseStep origin (mkNoise PInf NaN (Fin 1) (Fin 0) NInf) PInf = origin.
Proof.
  apply origin_fixed. simpl. destruct (Rlt_dec 0 0) as [H | _]; [lra | reflexivity].
Defined.

(** The north pole with whatever the rotation left of the two zeros. *)
Lemma precess_polar rm dt v : polar v -> polar (precess rm dt v).
Proof.
  intros (Hx & Hy & Hz). unfold precess, polar. cbn [x y z].
  repeat split; try assumption;
    repeat first [ apply zeroish_fsub | apply zeroish_fadd | apply zeroish_fmul ];
    assumption.
Qed.

Lemma amplitudeDamp_polar n r t v :
  finite_noise n -> 0 < r -> 0 < t ->
  polar v -> polar (amplitudeDamp n (Fin r) (Fin t) v).
Proof.
  intros (d & p & bf & am & s & ->) Hr Ht Hv. unfold amplitudeDamp.
  cbn [amplitudeDamping].
  destruct (gtb (Fin am) (Fin 0)) eqn:E; [| exact Hv].
  apply gtb_fin_true in E. cbv zeta.
  destruct (exp_half_nonpositive _ (decay_exponent am 1.5 r t E ltac:(lra) Hr Ht))
    as (g & f & -> & -> & Hg & Hf & Hgf).
  destruct Hv as (Hx & Hy & Hz). unfold polar. cbn [x y z]. rewrite Hz.
  repeat split; try (now apply zeroish_fmul).
  rewrite (fsub_fin 1 1) by (apply in_range_small; lra).
  rewrite fmul_fin by (apply in_range_small; nra).
  rewrite fsub_fin by (apply in_range_small; nra).
  f_equal. ring.
Qed.

Lemma dephase_polar n rm dt v : polar v -> polar (dephase n rm dt v).
Proof.
  intros (Hx & Hy & Hz). unfold dephase.
  destruct (gtb (phaseFlip n) (Fin 0)); [| now repeat split].
  unfold polar. cbn [x y z]. repeat split; try assumption; now apply zeroish_fmul.
Qed.

Lemma polar_settles (v : BlochVector) : polar v -> sanitize (clamp v) = zero.
Proof.
  destruct v as [vx vy vz]. intros (Hx & Hy & Hz). cbn [x y z] in *. subst vz.
  destruct Hx as [-> | ->], Hy as [-> | ->].
  - unfold clamp. rewrite r2_exact by lra.
    replace (gtb (Fin (0 * 0 + 0 * 0 + 1 * 1)) (Fin 1.000001)) with false
      by (symmetry; apply gtb_fin_false; lra).
    apply sanitize_fin.
  - rewrite clamp_nan by apply r2_nan_y. unfold sanitize, zero; cbn [x y z].
    now rewrite !or_else_fin_zero.
  - rewrite clamp_nan by apply r2_nan_x. unfold sanitize, zero; cbn [x y z].
    now rewrite !or_else_fin_zero.
  - rewrite clamp_nan by apply r2_nan_x. unfold sanitize, zero; cbn [x y z].
    now rewrite !or_else_fin_zero.
Qed.

(** X9. The state |0> is a fixed point of relaxation and dephasing: with
    finite parameters, a speed that is not negative, a positive time step and
    the depolarizing and bit-flip branches not taken, one stepper call on
    (0, 0, 1) returns (0, 0, 1), whatever the amplitude damping and the phase
    flip, and whether or not the rate or the rotation angle overflows. *)
Theorem ground_state_fixed (noise : NoiseParams) (t : R) :
  finite_noise noise ->
  gtb (depolarizing noise) (Fin 0) = false ->
  gtb (bitFlip noise) (Fin 0) = false ->
  gtb (Fin 0) (speed noise) = false -> 0 < t ->
  applyNoiseStep zero noise (Fin t) = zero.
Proof.
  intros Hn Hd Hb Hs Ht. pose proof Hn as (d & p & bf & am & s & E).
  assert (Es : speed noise = Fin s) by (now rewrite E).
  rewrite Es in Hs. apply gtb_fin_false in Hs.
  unfold applyNoiseStep. rewrite Es.
  destruct (rate_finite s) as (r & Er & _ & Hr). specialize (Hr Hs). rewrite Er.
  unfold depolarize at 1, bitflip at 1. rewrite Hd, Hb.
  apply polar_settles, dephase_polar, amplitudeDamp_polar; try assumption.
  apply precess_polar. unfold polar, zero; cbn [x y z]. repeat split; now left.
Qed.

Lemma ground_state_fixed_witness :
  applyNoiseStep zero (mkNoise (Fin 0) (Fin 0.7) (Fin 0) (Fin 0.9) (Fin 2)) (Fin 0.01) = zero.
Proof.
  apply ground_state_fixed.
  - exists 0, 0.7, 0, 0.9, 2. reflexivity.
  - simpl. destruct (Rlt_dec 0 0) as [H | _]; [lra | reflexivity].
  - simpl. destruct (Rlt_dec 0 0) as [H | _]; [lra | reflexivity].
  - simpl. destruct (Rlt_dec 2 0) as [H | _]; [lra | reflexivity].
  - lra.
Defined.

End StepperFacts.


(* ================================================================== *)
(** * More of the server: Stern-Gerlach, the GHZ and BB84 endpoints *)
(* ================================================================== *)

Module Experiments.
Import JsNumber Rand Sim Text Server.
Local Open Scope string_scope.

(** ** Stern-Gerlach *)

Inductive Outcome : Type := up | down.

Record SternGerlachResult : Type := mkSG {
  outcome : Outcome;
  probUp : number;
  probDown : number
}.

(** [simulateSternGerlach], [draw] being the value of [Math.random()];
    [Math.pow(c, 2)] is the product [c * c]. *)
Definition simulateSternGerlach (draw : number) (angleDegrees : number)
    : SternGerlachResult :=
  let thetaRad := fdiv (fmul angleDegrees Gates.PI) (Fin 180) in
  let c := cos (fdiv thetaRad (Fin 2)) in
  let probUp := fmul c c in
  let probDown := fsub (Fin 1) probUp in
  let outcome := if gtb probUp draw then up else down in
  mkSG outcome probUp probDown.

(** ** Counting draws *)

(** How many of the [n] draws from cursor [i] on fall below one half. *)
Fixpoint lows (src : source) (i n : nat) : nat :=
  match n with
  | O => O
  | S n' => (if ltb (src i) (1 # 2) then 1 else 0) + lows src (S i) n'
  end.

(** ** The GHZ and BB84 endpoints *)

Inductive ghzResponse : Type :=
| Ghz400 (error : string)
| Ghz200 (counts : GhzOutcomeCounts).

(** [POST /api/experiments/ghz], applied to the value of [req.body?.shots]. *)
Definition ghzHandler (bodyShots : jsvalue) : Rand ghzResponse :=
  let shotsStr := nullish bodyShots (JString "100") in
  let shots := parseInt (ToString shotsStr) in
  match shots with
  | None => ret (Ghz400 "shots must be an integer between 1 and 10000")
  | Some n =>
      if (n <? 1)%Z || (n >? 10000)%Z then
        ret (Ghz400 "shots must be an integer between 1 and 10000")
      else bind (simulateGhz n) (fun result => ret (Ghz200 result))
  end.

Inductive bb84Response : Type :=
| Bb84400 (error : string)
| Bb84200 (summary : Bb84RunSummary).

(** [body.withEve === true] *)
Definition strictlyTrue (v : jsvalue) : bool :=
  match v with
  | JBool true => true
  | _ => false
  end.

(** [POST /api/experiments/bb84], applied to the values of [body.rounds] and
    [body.withEve]. *)
Definition bb84Handler (bodyRounds bodyWithEve : jsvalue) : Rand bb84Response :=
  let rounds := parseInt (ToString (nullish bodyRounds (JString "50"))) in
  let withEve := strictlyTrue bodyWithEve in
  match rounds with
  | None => ret (Bb84400 "rounds must be an integer between 1 and 5000")
  | Some n =>
      if (n <? 1)%Z || (n >? 5000)%Z then
        ret (Bb84400 "rounds must be an integer between 1 and 5000")
      else bind (runBb84 (mkConfig n withEve)) (fun result => ret (Bb84200 result))
  end.

(** A string of white space only. *)
Fixpoint blank (s : string) : bool :=
  match s with
  | EmptyString => true
  | String c s' => is_space c && blank s'
  end.

(** What does not start with a digit. *)
Definition stops_digits (s : string) : Prop :=
  match s with
  | EmptyString => True
  | String c _ => is_digit c = false
  end.

(** ** Well-formed trace rows *)

(** What a row of the trace says about its round. *)
Definition row_ok (withEve : bool) (row : Bb84TraceRow) : Prop :=
  keep row = basis_eqb (aliceBasis row) (bobBasis row) /\
  error row = keep row && negb (bit_eqb (bobBit row) (aliceBit row)) /\
  (eveBasis row = None <-> withEve = false) /\
  (error row = true ->
   exists eb, eveBasis row = Some eb /\ basis_eqb eb (aliceBasis row) = false).

(** The loop variables after [k] passes. *)
Definition loop_ok (withEve : bool) (k : nat) (s : Bb84Loop) : Prop :=
  loopIndex s = Z.of_nat k /\
  (0 <= errors s <= sifted s)%Z /\ (sifted s <= Z.of_nat k)%Z /\
  map id (loopTrace s) = map Z.of_nat (seq 1 (Nat.min k 50)) /\
  Forall (row_ok withEve) (loopTrace s).

End Experiments.

Module ExperimentsFacts.
Import JsNumber JsNumberFacts Rand Sim SimFacts Text Server ServerFacts Experiments.
Local Open Scope Z_scope.

(** ** The samplers and their draws *)

Lemma bell_counts_loop (n : nat) (c : BellOutcomeCounts) (src : source) (i : nat) :
  c00 (fst (repeat n bellShot c src i)) = c00 c + Z.of_nat (lows src i n) /\
  snd (repeat n bellShot c src i) = (i + n)%nat.
Proof.
  revert c i. induction n as [| n IH]; intros c i.
  - simpl. split; lia.
  - rewrite repeat_S.
    destruct (IH (fst (bellShot c src i)) (snd (bellShot c src i))) as [H1 H2].
    rewrite H1, H2. unfold bellShot, bind, random, ret. cbn [fst snd lows].
    destruct (ltb (src i) (1 # 2)); simpl c00; split; lia.
Qed.

(** X10. The Bell sampler reads exactly one draw per shot, in order: "00"
    counts the draws below one half among the [shots] draws it consumes, "11"
    counts the others, and the cursor advances by [shots]. *)
Theorem bell_counts_draws (shots : Z) (src : source) (i : nat) :
  0 <= shots ->
  c00 (fst (simulateBell shots src i)) = Z.of_nat (lows src i (Z.to_nat shots)) /\
  c11 (fst (simulateBell shots src i))
  = shots - Z.of_nat (lows src i (Z.to_nat shots)) /\
  snd (simulateBell shots src i) = (i + Z.to_nat shots)%nat.
Proof.
  intros Hs. unfold simulateBell, passes.
  destruct (bell_counts_loop (Z.to_nat shots) (mkBell 0 0 0 0) src i) as [H1 H2].
  destruct (bell_loop (Z.to_nat shots) (mkBell 0 0 0 0) src i) as (_ & _ & H3).
  rewrite H1 in *. simpl c00 in *. simpl c11 in H3.
  repeat split; first [lia | exact H2].
Qed.

Lemma bell_counts_draws_witness :
  c00 (fst (simulateBell 5 alternating 0%nat)) = Z.of_nat (lows alternating 0 (Z.to_nat 5)) /\
  c11 (fst (simulateBell 5 alternating 0%nat))
  = 5 - Z.of_nat (lows alternating 0 (Z.to_nat 5)) /\
  snd (simulateBell 5 alternating 0%nat) = (0 + Z.to_nat 5)%nat.
Proof. apply bell_counts_draws. lia. Defined.

(** ** BB84: the shape of a run *)

Lemma repeat_counted {S} (P : nat -> S -> Prop) (body : S -> Rand S) :
  (forall k s src i, P k s -> P (Datatypes.S k) (fst (body s src i))) ->
  forall n k s src i, P k s -> P (k + n)%nat (fst (repeat n body s src i)).
Proof.
  intros Hbody. induction n as [| n IH]; intros k s src i Hs.
  - simpl. now rewrite Nat.add_0_r.
  - rewrite repeat_S. replace (k + Datatypes.S n)%nat with (Datatypes.S k + n)%nat by lia.
    apply IH. now apply Hbody.
Qed.

(** What one pass does to the loop variables: it advances the index, records
    one well-formed row while the index is below 50, and counts it. *)
Lemma bb84Round_shape (withEve : bool) (s : Bb84Loop) (src : source) (i : nat) :
  exists row,
    row_ok withEve row /\ id row = loopIndex s + 1 /\
    fst (bb84Round withEve s src i)
    = mkLoop (loopIndex s + 1)
             (if keep row then sifted s + 1 else sifted s)
             (if error row then errors s + 1 else errors s)
             (if loopIndex s <? 50 then (loopTrace s ++ [row])%list else loopTrace s).
Proof.
  unfold bb84Round, intercept, randomBit, randomBasis, bind, random, ret.
  destruct withEve;
    repeat (cbn [fst snd basis_eqb bit_eqb negb andb];
            match goal with
            | |- context [ltb (src ?k) ?b] => destruct (ltb (src k) b)
            end);
    cbn [fst snd basis_eqb bit_eqb negb andb];
    match goal with
    | |- context [(_ ++ [?r])%list] => exists r
    end;
    unfold row_ok;
    cbn [id keep error aliceBasis bobBasis aliceBit bobBit eveBasis
         basis_eqb bit_eqb negb andb];
    repeat split; try discriminate; try reflexivity;
    try (intros _; eexists; split; reflexivity).
Qed.

Lemma seq_snoc_min (k : nat) :
  (k < 50)%nat ->
  (map Z.of_nat (seq 1 (Nat.min k 50)) ++ [Z.of_nat k + 1])%list
  = map Z.of_nat (seq 1 (Nat.min (Datatypes.S k) 50)).
Proof.
  intros Hk. rewrite !Nat.min_l by lia. rewrite seq_S, map_app. simpl.
  do 2 f_equal. lia.
Qed.

Lemma bb84Round_loop_ok (withEve : bool) (k : nat) (s : Bb84Loop)
    (src : source) (i : nat) :
  loop_ok withEve k s -> loop_ok withEve (Datatypes.S k) (fst (bb84Round withEve s src i)).
Proof.
  intros (Hi & He & Hs & Hid & Hrows).
  destruct (bb84Round_shape withEve s src i) as (row & Hrow & Hrid & ->).
  pose proof Hrow as (Hk & Herr & _ & _).
  unfold loop_ok; cbn [loopIndex sifted errors loopTrace].
  assert (Hke : error row = true -> keep row = true).
  { rewrite Herr. intros H. now apply andb_prop in H as [H _]. }
  repeat split.
  - lia.
  - destruct (error row); lia.
  - destruct (error row) eqn:E; destruct (keep row) eqn:K;
      first [lia | specialize (Hke eq_refl); discriminate Hke].
  - destruct (keep row); lia.
  - rewrite Hi. destruct (Z.ltb_spec (Z.of_nat k) 50) as [Hlt | Hge].
    + rewrite map_app, Hid. cbn [map]. rewrite Hrid, Hi.
      apply seq_snoc_min. lia.
    + rewrite Hid. now rewrite !Nat.min_r by lia.
  - destruct (loopIndex s <? 50); [| assumption].
    apply Forall_app. split; [assumption|]. constructor; [exact Hrow | constructor].
Qed.

Lemma bb84Loop_ok (n : Z) (withEve : bool) (src : source) (i : nat) :
  loop_ok withEve (Z.to_nat n) (fst (bb84Loop (mkConfig n withEve) src i)).
Proof.
  unfold bb84Loop, passes. cbn [rounds Sim.withEve].
  apply (repeat_counted (loop_ok withEve) (bb84Round withEve)
           (fun k s src' j => bb84Round_loop_ok withEve k s src' j)
           (Z.to_nat n) 0%nat).
  unfold loop_ok; cbn [loopIndex sifted errors loopTrace].
  repeat split; try lia. constructor.
Qed.

Lemma runBb84_unfold (config : Bb84RunConfig) (src : source) (i : nat) :
  fst (runBb84 config src i)
  = mkSummary (rounds config) (sifted (fst (bb84Loop config src i)))
      (rate (errors (fst (bb84Loop config src i))) (sifted (fst (bb84Loop config src i))))
      (loopTrace (fst (bb84Loop config src i))).
Proof. unfold runBb84, bind, ret. now destruct (bb84Loop config src i). Qed.

Lemma rate_range (e s : Z) : 0 <= e <= s -> (0 <= rate e s <= 1)%Q.
Proof.
  intros He. unfold rate. destruct (Z.ltb_spec 0 s) as [Hs | Hs].
  - assert (Hq : (0 < inject_Z s)%Q).
    { unfold Qlt, inject_Z; simpl. lia. }
    split.
    + apply Qle_shift_div_l; [exact Hq|]. rewrite Qmult_0_l.
      unfold Qle, inject_Z; simpl. lia.
    + apply Qle_shift_div_r; [exact Hq|]. rewrite Qmult_1_l.
      unfold Qle, inject_Z; simpl. lia.
  - split; [apply Qle_refl | discriminate].
Qed.

(** X11. The aggregate of a BB84 run, with or without Eve: the sifted key is
    no longer than the number of rounds, the error rate lies in [0, 1], and
    the trace holds the first min(rounds, 50) rounds, numbered from 1. *)
Theorem bb84_summary_shape (n : Z) (withEve : bool) (src : source) (i : nat) :
  0 <= n ->
  summaryRounds (fst (runBb84 (mkConfig n withEve) src i)) = n /\
  0 <= siftedKeyLength (fst (runBb84 (mkConfig n withEve) src i)) <= n /\
  (0 <= errorRate (fst (runBb84 (mkConfig n withEve) src i)) <= 1)%Q /\
  map id (trace (fst (runBb84 (mkConfig n withEve) src i)))
  = map Z.of_nat (seq 1 (Z.to_nat (Z.min n 50))).
Proof.
  intros Hn. rewrite runBb84_unfold.
  cbn [summaryRounds siftedKeyLength errorRate trace rounds].
  destruct (bb84Loop_ok n withEve src i) as (_ & He & Hs & Hid & _).
  repeat split; try lia.
  - apply rate_range. lia.
  - apply rate_range. lia.
  - rewrite Hid. do 2 f_equal. lia.
Qed.

Lemma bb84_summary_shape_witness :
  summaryRounds (fst (runBb84 (mkConfig 60 true) unlucky 0%nat)) = 60 /\
  0 <= siftedKeyLength (fst (runBb84 (mkConfig 60 true) unlucky 0%nat)) <= 60 /\
  (0 <= errorRate (fst (runBb84 (mkConfig 60 true) unlucky 0%nat)) <= 1)%Q /\
  map id (trace (fst (runBb84 (mkConfig 60 true) unlucky 0%nat)))
  = map Z.of_nat (seq 1 (Z.to_nat (Z.min 60 50))).
Proof. apply bb84_summary_shape. lia. Defined.

(** X12. Every row of a BB84 trace is well formed: [keep] says that Alice's
    and Bob's bases agree, [error] says that the round is kept and Bob's bit
    differs from Alice's, Eve's basis is recorded exactly when Eve is present,
    and a round in error is one where Eve measured in the other basis. *)
Theorem bb84_trace_rows (n : Z) (withEve : bool) (src : source) (i : nat) :
  Forall (row_ok withEve) (trace (fst (runBb84 (mkConfig n withEve) src i))).
Proof.
  rewrite runBb84_unfold. cbn [trace].
  now destruct (bb84Loop_ok n withEve src i) as (_ & _ & _ & _ & H).
Qed.

(** ** Stern-Gerlach *)

Lemma fdiv_inf_pos (a : number) (s : R) :
  is_inf a = true -> (0 < s)%R -> fdiv a (Fin s) = a.
Proof.
  intros Ha Hs. unfold fdiv.
  destruct a; try discriminate; cbn [div]; now rewrite (sgn_pos s Hs).
Qed.

(** Half the angle in radians, for an angle whose product with pi is in the
    binary64 range. *)
Lemma half_angle (a : R) :
  in_range (a * PI)%R ->
  fdiv (fdiv (fmul (Fin a) Gates.PI) (Fin 180)) (Fin 2) = Fin (a * PI / 180 / 2).
Proof.
  intros H. unfold Gates.PI. rewrite (fmul_fin _ _ H).
  assert (H1 : in_range (a * PI / 180)%R).
  { unfold Rdiv. apply in_range_scale; [assumption | lra]. }
  rewrite (fdiv_fin _ 180) by (lra || assumption).
  rewrite (fdiv_fin _ 2); [reflexivity | lra |].
  unfold Rdiv at 1. apply in_range_scale; [assumption | lra].
Qed.

(** Beyond the range the product overflows and the cosine of an infinity is
    NaN. *)
Lemma half_angle_overflow (a : R) :
  ~ in_range (a * PI)%R ->
  cos (fdiv (fdiv (fmul (Fin a) Gates.PI) (Fin 180)) (Fin 2)) = NaN.
Proof.
  intros H. unfold Gates.PI, fmul. cbn [mul].
  destruct (overflow_cases (a * PI)%R) as [[_ F] | [[-> _] | [-> _]]];
    [contradiction | |].
  - rewrite (fdiv_inf_pos PInf 180), (fdiv_inf_pos PInf 2) by (reflexivity || lra).
    reflexivity.
  - rewrite (fdiv_inf_pos NInf 180), (fdiv_inf_pos NInf 2) by (reflexivity || lra).
    reflexivity.
Qed.

Lemma stern_gerlach_fin (r a : R) :
  in_range (a * PI)%R ->
  simulateSternGerlach (Fin r) (Fin a)
  = mkSG (if Rlt_dec r (Rtrigo_def.cos (a * PI / 180 / 2) * Rtrigo_def.cos (a * PI / 180 / 2))
          then up else down)
         (Fin (Rtrigo_def.cos (a * PI / 180 / 2) * Rtrigo_def.cos (a * PI / 180 / 2)))
         (Fin (1 - Rtrigo_def.cos (a * PI / 180 / 2) * Rtrigo_def.cos (a * PI / 180 / 2))).
Proof.
  intros H. unfold simulateSternGerlach. rewrite (half_angle a H).
  cbn [cos].
  pose proof (COS_bound (a * PI / 180 / 2)) as Hc.
  rewrite fmul_fin by (apply in_range_small; nra).
  rewrite fsub_fin by (apply in_range_small; nra).
  cbn [gtb]. destruct (Rlt_dec r _); reflexivity.
Qed.

(** X13. Stern-Gerlach.  For every angle whose product with pi is in the
    binary64 range the two probabilities are numbers of [0, 1] that add up to
    1, and the outcome is "up" exactly when the draw is below [probUp].  For
    a finite angle beyond that range the product overflows: both
    probabilities are NaN and the outcome is "down" whatever the draw. *)
Theorem stern_gerlach_born_rule (r a : R) :
  (in_range (a * PI)%R ->
   exists p : R,
     probUp (simulateSternGerlach (Fin r) (Fin a)) = Fin p /\
     probDown (simulateSternGerlach (Fin r) (Fin a)) = Fin (1 - p) /\
     (0 <= p <= 1)%R /\
     (outcome (simulateSternGerlach (Fin r) (Fin a)) = up <-> (r < p)%R)) /\
  (~ in_range (a * PI)%R ->
   simulateSternGerlach (Fin r) (Fin a) = mkSG down NaN NaN).
Proof.
  split.
  - intros H. rewrite (stern_gerlach_fin r a H).
    set (c := Rtrigo_def.cos (a * PI / 180 / 2)).
    exists (c * c)%R. cbn [probUp probDown outcome].
    pose proof (COS_bound (a * PI / 180 / 2)) as Hc. fold c in Hc.
    repeat split; try nra.
    + destruct (Rlt_dec r (c * c)); [tauto | discriminate].
    + intros H'. destruct (Rlt_dec r (c * c)); [reflexivity | contradiction].
  - intros H. unfold simulateSternGerlach.
    rewrite (half_angle_overflow a H). reflexivity.
Qed.

(** X14. The reference angles: at 0 degrees [probUp] is 1 and every draw of
    [0, 1) gives "up"; at 180 degrees the two probabilities are 0 and 1, and
    at 90 degrees [probUp] is one half, both up to the rounding of the
    cosine (which decides the outcome at 180 degrees for the draws below
    the rounded [probUp], so nothing is said of that outcome). *)
Theorem stern_gerlach_reference_angles (r : R) :
  (0 <= r < 1)%R ->
  simulateSternGerlach (Fin r) (Fin 0) = mkSG up (Fin 1) (Fin 0) /\
  probUp (simulateSternGerlach (Fin r) (Fin 180)) = Fin 0 /\
  probDown (simulateSternGerlach (Fin r) (Fin 180)) = Fin 1 /\
  probUp (simulateSternGerlach (Fin r) (Fin 90)) = Fin (1 / 2).
Proof.
  intros Hr.
  assert (Hpi : (0 < PI <= 4)%R) by (split; [apply PI_RGT_0 | apply PI_4]).
  rewrite !stern_gerlach_fin by (apply in_range_small; lra).
  replace (0 * PI / 180 / 2)%R with 0%R by field.
  replace (180 * PI / 180 / 2)%R with (PI / 2)%R by field.
  replace (90 * PI / 180 / 2)%R with (PI / 4)%R by field.
  rewrite cos_0, cos_PI2, cos_PI4. cbn [probUp probDown]. repeat split.
  - destruct (Rlt_dec r (1 * 1)) as [_ | H]; [| lra]. f_equal; f_equal; lra.
  - f_equal; lra.
  - f_equal; lra.
  - f_equal.
    assert (Hs : (R_sqrt.sqrt 2 * R_sqrt.sqrt 2 = 2)%R) by (apply sqrt_sqrt; lra).
    assert (Hp : (0 < R_sqrt.sqrt 2)%R) by (apply sqrt_lt_R0; lra).
    replace (1 / R_sqrt.sqrt 2 * (1 / R_sqrt.sqrt 2))%R
      with (1 / (R_sqrt.sqrt 2 * R_sqrt.sqrt 2))%R by (field; lra).
    now rewrite Hs.
Qed.

Lemma stern_gerlach_reference_angles_witness :
  simulateSternGerlach (Fin 0.3) (Fin 0) = mkSG up (Fin 1) (Fin 0) /\
  probUp (simulateSternGerlach (Fin 0.3) (Fin 180)) = Fin 0 /\
  probDown (simulateSternGerlach (Fin 0.3) (Fin 180)) = Fin 1 /\
  probUp (simulateSternGerlach (Fin 0.3) (Fin 90)) = Fin (1 / 2).
Proof. apply stern_gerlach_reference_angles. lra. Defined.

(** ** [parseInt] *)

Lemma trim_start_blank (ws s : string) :
  blank ws = true -> trim_start (ws ++ s) = trim_start s.
Proof.
  induction ws as [| c ws IH]; simpl; [reflexivity|].
  intros H. apply andb_prop in H as [Hc Hws]. rewrite Hc. now apply IH.
Qed.

Lemma stops_digits_no_leading (s : string) : stops_digits s -> no_leading_digit s.
Proof. destruct s; exact (fun H => H). Qed.

Lemma parseInt_blank (ws s : string) :
  blank ws = true -> parseInt (ws ++ s) = parseInt s.
Proof. intros H. unfold parseInt. now rewrite (trim_start_blank _ _ H). Qed.

(** The digits of an integer, then the zeros up to the point. *)
Lemma fold_zeros (m : nat) (acc : Z) :
  fold_left (fun a d => 10 * a + dval d) (List.repeat d0 m) acc = acc * 10 ^ Z.of_nat m.
Proof.
  revert acc. induction m as [| m IH]; intros acc.
  - cbn [List.repeat fold_left]. change (10 ^ Z.of_nat 0) with 1. lia.
  - cbn [List.repeat fold_left]. rewrite IH, Nat2Z.inj_succ, Z.pow_succ_r by lia.
    cbn [dval]. ring.
Qed.

Lemma valueOf_zeros (l : list dec) (m : nat) :
  valueOf (l ++ List.repeat d0 m) = valueOf l * 10 ^ Z.of_nat m.
Proof. unfold valueOf. now rewrite fold_left_app, fold_zeros. Qed.

Lemma fold_digits_nonneg (l : list dec) (acc : Z) :
  0 <= acc -> 0 <= fold_left (fun a d => 10 * a + dval d) l acc.
Proof.
  revert acc. induction l as [| d l IH]; intros acc H; cbn [fold_left]; [assumption|].
  apply IH. destruct d; cbn [dval]; lia.
Qed.

Lemma valueOf_nonneg (l : list dec) : 0 <= valueOf l.
Proof. apply fold_digits_nonneg. lia. Qed.

(** X15. [parseInt] reads back what [String] wrote: for every integer that
    [String] writes in plain notation (one below 10^21) and that is at most
    2^53 in magnitude, whatever white space comes before its rendering and
    whatever text that does not start with a digit comes after it, the result
    is that integer.  (From 2^53 + 1 on the result is rounded, and from 10^21
    on only the leading digit is read.) *)
Theorem parseInt_reads_integers (negative : bool) (first : nz) (more : list dec)
    (point : Z) (ws rest : string) :
  blank ws = true -> stops_digits rest ->
  Z.of_nat (S (List.length more)) <= point <= 21 ->
  Z.abs (integerValue negative first more point) <= 2 ^ 53 ->
  parseInt (ws ++ ToString (JNumber (Jfinite negative first more point)) ++ rest)
  = Some (integerValue negative first more point).
Proof.
  intros Hws Hrest Hp Hsafe. apply stops_digits_no_leading in Hrest.
  rewrite (parseInt_blank _ _ Hws). cbn [ToString numberToString].
  unfold finiteToString.
  replace ((Z.of_nat (List.length (dec_of first :: more)) <=? point)
           && (point <=? 21)) with true
    by (symmetry; apply andb_true_intro; split; apply Z.leb_le; cbn [List.length]; lia).
  rewrite !append_assoc_r.
  rewrite parseInt_render; [| discriminate | assumption].
  rewrite valueOf_zeros, Z2Nat.id by (cbn [List.length]; lia).
  f_equal. now apply TextFacts.toNumber_safe.
Qed.

Lemma parseInt_reads_integers_witness :
  parseInt ("  " ++ ToString (JNumber (Jfinite true n4 [d2] 2)) ++ "px") = Some (-42).
Proof.
  apply (parseInt_reads_integers true n4 [d2] 2 "  " "px"); try reflexivity.
  - simpl. lia.
  - vm_compute. discriminate.
Defined.

(** Beyond 2^53 the digits are read into the nearest Number. *)
Lemma parseInt_rounds : parseInt "9007199254740993" = Some 9007199254740992.
Proof. vm_compute. reflexivity. Qed.

(** ** The GHZ and BB84 endpoints *)

Lemma respond_ghz (m : Rand GhzOutcomeCounts) (src : source) (i : nat) :
  fst (bind m (fun result => ret (Ghz200 result)) src i) = Ghz200 (fst (m src i)).
Proof. unfold bind, ret. now destruct (m src i). Qed.

Lemma respond_bb84 (m : Rand Bb84RunSummary) (src : source) (i : nat) :
  fst (bind m (fun result => ret (Bb84200 result)) src i) = Bb84200 (fst (m src i)).
Proof. unfold bind, ret. now destruct (m src i). Qed.

(** X16. The GHZ endpoint: a 200 response carries the counts of a shot number
    that [parseInt] read and that lies in [1, 10000]: the six mixed keys are 0
    and "000" + "111" is that number; every other request is answered 400. *)
Theorem ghz_endpoint_contract (v : jsvalue) (src : source) (i : nat) :
  match fst (ghzHandler v src i) with
  | Ghz200 c =>
      exists n, parseInt (ToString (nullish v (JString "100"))) = Some n /\
                1 <= n <= 10000 /\
                c000 c + c111 c = n /\
                c001 c = 0 /\ c010 c = 0 /\ c011 c = 0 /\
                c100 c = 0 /\ c101 c = 0 /\ c110 c = 0
  | Ghz400 _ =>
      match parseInt (ToString (nullish v (JString "100"))) with
      | None => True
      | Some n => n < 1 \/ n > 10000
      end
  end.
Proof.
  unfold ghzHandler.
  destruct (parseInt (ToString (nullish v (JString "100")))) as [n |]; [| exact I].
  destruct (Z.ltb_spec n 1) as [H1 | H1]; cbn [orb]; [cbn [fst ret]; lia|].
  destruct (Z.gtb_spec n 10000) as [H2 | H2]; cbn [orb]; [cbn [fst ret]; lia|].
  rewrite respond_ghz. exists n. split; [reflexivity|]. split; [lia|].
  unfold simulateGhz, passes.
  destruct (ghz_loop (Z.to_nat n) (mkGhz 0 0 0 0 0 0 0 0) src i)
    as ((E1 & E2 & E3 & E4 & E5 & E6) & E7).
  rewrite E1, E2, E3, E4, E5, E6, E7. simpl. repeat split; lia.
Qed.

Lemma no_eve_rate (n : Z) (src : source) (i : nat) :
  (errorRate (fst (runBb84 (mkConfig n false) src i)) == 0)%Q.
Proof.
  rewrite runBb84_unfold. cbn [errorRate].
  assert (H : error_free (fst (bb84Loop (mkConfig n false) src i))).
  { unfold bb84Loop. apply repeat_invariant.
    - intros s src' j. apply bb84Round_error_free.
    - split; [reflexivity | constructor]. }
  destruct H as [He _]. rewrite He. apply rate_zero.
Qed.

(** X17. The BB84 endpoint: a 200 response reports a number of rounds that
    [parseInt] read and that lies in [1, 5000], a sifted key no longer than
    that, an error rate in [0, 1] and at most 50 trace rows; Eve takes part
    only when [withEve] is the boolean [true]: for any other value the error
    rate is 0.  Every other request is answered 400. *)
Theorem bb84_endpoint_contract (vr ve : jsvalue) (src : source) (i : nat) :
  match fst (bb84Handler vr ve src i) with
  | Bb84200 r =>
      exists n, parseInt (ToString (nullish vr (JString "50"))) = Some n /\
                1 <= n <= 5000 /\
                summaryRounds r = n /\
                0 <= siftedKeyLength r <= n /\
                (0 <= errorRate r <= 1)%Q /\
                (List.length (trace r) <= 50)%nat /\
                Forall (row_ok (strictlyTrue ve)) (trace r) /\
                (strictlyTrue ve = false -> (errorRate r == 0)%Q)
  | Bb84400 _ =>
      match parseInt (ToString (nullish vr (JString "50"))) with
      | None => True
      | Some n => n < 1 \/ n > 5000
      end
  end.
Proof.
  unfold bb84Handler.
  destruct (parseInt (ToString (nullish vr (JString "50")))) as [n |]; [| exact I].
  destruct (Z.ltb_spec n 1) as [H1 | H1]; cbn [orb]; [cbn [fst ret]; lia|].
  destruct (Z.gtb_spec n 5000) as [H2 | H2]; cbn [orb]; [cbn [fst ret]; lia|].
  rewrite respond_bb84. exists n. split; [reflexivity|]. split; [lia|].
  pose proof (no_eve_rate n src i) as Hno.
  rewrite runBb84_unfold in *.
  cbn [summaryRounds siftedKeyLength errorRate trace rounds] in *.
  destruct (bb84Loop_ok n (strictlyTrue ve) src i) as (_ & He & Hs & Hid & Hrows).
  repeat split; try lia.
  - apply rate_range. lia.
  - apply rate_range. lia.
  - rewrite <- (length_map id), Hid, length_map, length_seq. lia.
  - exact Hrows.
  - intros Hve. rewrite Hve. exact Hno.
Qed.

End ExperimentsFacts.

(* ================================================================== *)
(** * The visualizers' state vectors and the gate builder *)
(* ================================================================== *)

Module Circuits.
Import JsNumber Bloch Gates.
Local Open Scope string_scope.
Local Open Scope js_scope.

(** [(g.qubit ?? 0) === 0 && g.gate !== 'M'] *)
Definition actsOnQubit0 (g : CircuitGate) : bool :=
  match qubit g with
  | None => true
  | Some q => Z.eqb q 0
  end && negb (String.eqb (gate g) "M").

(** The QASM visualizer's [vec] after [stepIdx] gates, from |0>. *)
Definition qasmVec (gates : list CircuitGate) (stepIdx : nat) : BlochVector :=
  fold_left (fun v g => if actsOnQubit0 g then qasmStep v g else v)
            (firstn stepIdx gates) zero.

(** [g.qubit ?? 0] and [g.target ?? 0] *)
Definition qubitOr0 (g : CircuitGate) : Z :=
  match qubit g with Some q => q | None => 0%Z end.

Definition targetOr0 (g : CircuitGate) : Z :=
  match target g with Some t => t | None => 0%Z end.

(** [index + 1] on Numbers: the sum, rounded to a Number. *)
Definition succNumber (index : Z) : Z := Text.toNumber (index + 1).

(** The QASM visualizer's [nq]:
    [Math.max(1, ...gates.map(g => Math.max((g.qubit ?? 0) + 1, (g.target ?? 0) + 1)))],
    and 1 for no gate. *)
Definition nq (gates : list CircuitGate) : Z :=
  fold_right Z.max 1%Z
    (map (fun g => Z.max (succNumber (qubitOr0 g)) (succNumber (targetOr0 g))) gates).

(** A Hadamard gate on the qubit of index 2^53, as [h q[9007199254740992];]
    parses. *)
Definition far_gate : CircuitGate := mkGate "H" (Some (2 ^ 53)%Z) None None.

(** ** The gate builder *)

(** [applyGate] of the gate builder, on the gate's [id]: CNOT acts as X. *)
Definition builderApplyGate (v : BlochVector) (id : string) : BlochVector :=
  if String.eqb id "H" then mkBloch (z v) (y v) (x v)
  else if String.eqb id "X" || String.eqb id "CNOT" then mkBloch (x v) (- y v) (- z v)
  else if String.eqb id "Y" then mkBloch (- x v) (y v) (- z v)
  else if String.eqb id "Z" then mkBloch (- x v) (- y v) (z v)
  else v.

(** One gate of [currentState]: the gate, the decoherence pass, and the
    renormalisation above length 1. *)
Definition builderStep (gateNoise : number) (v : BlochVector) (id : string)
    : BlochVector :=
  let v := builderApplyGate v id in
  let v := applyDecoherence v gateNoise in
  let L := blen v in
  if L >? Fin 1 then divideBy v L else v.

(** [currentState]: the gates of indices [0 .. activeStep] applied to the
    preset; [count] is [activeStep + 1]. *)
Definition currentState (gateNoise : number) (preset : BlochVector)
    (circuit : list string) (count : nat) : BlochVector :=
  fold_left (builderStep gateNoise) (firstn count circuit) preset.

(** A vector of finite components and of length exactly 1. *)
Definition on_sphere (v : BlochVector) : Prop :=
  exists a1 a2 a3 : R,
    v = mkBloch (Fin a1) (Fin a2) (Fin a3) /\ (a1 * a1 + a2 * a2 + a3 * a3 = 1)%R.

(** A gate-noise strength of [0, 1]. *)
Definition strength (amount : number) : Prop :=
  exists a : R, amount = Fin a /\ (0 <= a <= 1)%R.

End Circuits.

Module CircuitsFacts.
Import JsNumber JsNumberFacts Bloch BlochFacts Gates GatesFacts Circuits.
Local Open Scope string_scope.
Local Open Scope R_scope.

(** ** Gates and lengths *)

Lemma rotateXY_norm (a1 a2 a3 c s : R) :
  s * s + c * c = 1 ->
  r2_of (rotateXY (mkBloch (Fin a1) (Fin a2) (Fin a3)) (Fin c) (Fin s))
  = Fin (a1 * a1 + a2 * a2 + a3 * a3).
Proof.
  intros H. unfold rotateXY, r2_of. cbn [x y z mul add sub neg]. f_equal.
  rewrite <- (rotation_norm a1 a2 c s H). ring.
Qed.

Lemma quarter_turn : div PI (Fin 2) = Fin (Rtrigo1.PI / 2).
Proof. unfold PI. apply div_fin_pos. lra. Qed.

Lemma eighth_turn : div PI (Fin 4) = Fin (Rtrigo1.PI / 4).
Proof. unfold PI. apply div_fin_pos. lra. Qed.

Lemma applyGate_r2 (a1 a2 a3 : R) (g : CircuitGate) :
  r2_of (applyGate (mkBloch (Fin a1) (Fin a2) (Fin a3)) g)
  = Fin (a1 * a1 + a2 * a2 + a3 * a3).
Proof.
  unfold applyGate. rewrite quarter_turn, eighth_turn. cbn [cos sin].
  repeat match goal with
         | |- context [String.eqb (gate g) ?s] => destruct (String.eqb (gate g) s)
         end;
    try (apply rotateXY_norm; apply sin_cos_one);
    unfold r2_of; cbn [x y z mul add neg]; f_equal; ring.
Qed.

Lemma applyGateToBloch_r2 (a1 a2 a3 : R) (g : CircuitGate) :
  r2_of (applyGateToBloch (mkBloch (Fin a1) (Fin a2) (Fin a3)) g)
  = if String.eqb (gate g) "CNOT"
    then Fin (0.49 * (a1 * a1 + a2 * a2 + a3 * a3))
    else Fin (a1 * a1 + a2 * a2 + a3 * a3).
Proof.
  unfold applyGateToBloch. rewrite quarter_turn, eighth_turn. cbn [cos sin].
  destruct (String.eqb_spec (gate g) "CNOT") as [E | _].
  - rewrite E. cbn [String.eqb Ascii.eqb Bool.eqb].
    unfold r2_of; cbn [x y z mul add neg]; f_equal; lra.
  - repeat match goal with
           | |- context [String.eqb (gate g) ?s] => destruct (String.eqb (gate g) s)
           end;
      try (apply rotateXY_norm; apply sin_cos_one);
      unfold r2_of; cbn [x y z mul add neg]; f_equal; try ring; lra.
Qed.

Lemma finite_gate_result (a1 a2 a3 : R) (g : CircuitGate) :
  finite_vec (applyGate (mkBloch (Fin a1) (Fin a2) (Fin a3)) g) /\
  finite_vec (applyGateToBloch (mkBloch (Fin a1) (Fin a2) (Fin a3)) g).
Proof.
  unfold applyGate, applyGateToBloch. rewrite quarter_turn, eighth_turn.
  cbn [cos sin]. unfold rotateXY. cbn [x y z mul add sub neg].
  split;
    repeat match goal with
           | |- context [String.eqb (gate g) ?s] => destruct (String.eqb (gate g) s)
           end;
    eexists _, _, _, _; (split; [reflexivity | apply Rle_refl]).
Qed.

(** X18. Gates and lengths, in exact arithmetic: on a vector of finite
    components every gate of [applyGate] (H, X, Y, Z, S, T, and any unknown
    symbol) keeps the squared length; so does [applyGateToBloch], except for
    CNOT, which multiplies it by 0.49 (the length by 0.7). *)
Theorem gates_and_lengths (v : BlochVector) (g : CircuitGate) :
  finite_vec v ->
  r2_of (applyGate v g) = r2_of v /\
  r2_of (applyGateToBloch v g)
  = if String.eqb (gate g) "CNOT" then mul (Fin 0.49) (r2_of v) else r2_of v.
Proof.
  intros (b & a1 & a2 & a3 & -> & _).
  rewrite applyGate_r2, applyGateToBloch_r2.
  unfold r2_of. cbn [x y z mul add]. split; [reflexivity|].
  destruct (String.eqb (gate g) "CNOT"); reflexivity.
Qed.

Lemma gates_and_lengths_witness :
  r2_of (applyGate plus (on0 "CNOT")) = r2_of plus /\
  r2_of (applyGateToBloch plus (on0 "CNOT"))
  = if String.eqb (gate (on0 "CNOT")) "CNOT" then mul (Fin 0.49) (r2_of plus) else r2_of plus.
Proof.
  apply gates_and_lengths. exists 1, 1, 0, 0. split; [reflexivity | lra].
Defined.

(** ** How the phase gates compose *)

Lemma half_square : 1 / R_sqrt.sqrt 2 * (1 / R_sqrt.sqrt 2) = 1 / 2.
Proof.
  assert (Hs : R_sqrt.sqrt 2 * R_sqrt.sqrt 2 = 2) by (apply sqrt_sqrt; lra).
  assert (Hp : 0 < R_sqrt.sqrt 2) by (apply sqrt_lt_R0; lra).
  replace (1 / R_sqrt.sqrt 2 * (1 / R_sqrt.sqrt 2))
    with (1 / (R_sqrt.sqrt 2 * R_sqrt.sqrt 2)) by (field; lra).
  now rewrite Hs.
Qed.

(** X19. In exact arithmetic, on a vector of finite components: S twice is Z,
    T twice is S, S four times is the identity, and X followed by Z is Y. *)
Theorem phase_gates_compose (v : BlochVector) :
  finite_vec v ->
  applyGate (applyGate v (on0 "S")) (on0 "S") = applyGate v (on0 "Z") /\
  applyGate (applyGate v (on0 "T")) (on0 "T") = applyGate v (on0 "S") /\
  applyGate (applyGate (applyGate (applyGate v (on0 "S")) (on0 "S")) (on0 "S")) (on0 "S") = v /\
  applyGate (applyGate v (on0 "X")) (on0 "Z") = applyGate v (on0 "Y").
Proof.
  intros (b & a1 & a2 & a3 & -> & _).
  unfold applyGate, on0. cbn [gate String.eqb Ascii.eqb Bool.eqb].
  rewrite quarter_turn, eighth_turn. cbn [cos sin].
  rewrite cos_PI2, sin_PI2, cos_PI4, sin_PI4.
  unfold rotateXY. cbn [x y z mul add sub neg].
  pose proof half_square as Hk. set (k := 1 / R_sqrt.sqrt 2) in *.
  repeat split; f_equal; f_equal; try ring.
  - replace ((a1 * k + - (a2 * k)) * k + - ((a1 * k + a2 * k) * k))
      with (- (2 * a2 * (k * k))) by ring.
    rewrite Hk. lra.
  - replace ((a1 * k + - (a2 * k)) * k + (a1 * k + a2 * k) * k)
      with (2 * a1 * (k * k)) by ring.
    rewrite Hk. lra.
Qed.

Lemma phase_gates_compose_witness :
  applyGate (applyGate plus (on0 "S")) (on0 "S") = applyGate plus (on0 "Z") /\
  applyGate (applyGate plus (on0 "T")) (on0 "T") = applyGate plus (on0 "S") /\
  applyGate (applyGate (applyGate (applyGate plus (on0 "S")) (on0 "S")) (on0 "S")) (on0 "S") = plus /\
  applyGate (applyGate plus (on0 "X")) (on0 "Z") = applyGate plus (on0 "Y").
Proof.
  apply phase_gates_compose. exists 1, 1, 0, 0. split; [reflexivity | lra].
Defined.

(** ** The visualizers stay in the unit ball *)

Lemma in_ball_of_r2 (q : R) (w : BlochVector) :
  finite_vec w -> r2_of w = Fin q -> q <= 1 -> in_ball 1 w.
Proof.
  intros (b' & a1 & a2 & a3 & -> & _) E Hq.
  unfold r2_of in E. cbn [x y z mul add] in E. injection E as E.
  apply in_ball_small; lra.
Qed.

Lemma applyGateToBloch_unit_ball (v : BlochVector) (g : CircuitGate) :
  in_ball 1 v -> in_ball 1 (applyGateToBloch v g).
Proof.
  intros (a1 & a2 & a3 & -> & H & _).
  assert (Hq : 0 <= a1 * a1 + a2 * a2 + a3 * a3) by nra.
  destruct (String.eqb (gate g) "CNOT") eqn:E.
  - apply (in_ball_of_r2 (0.49 * (a1 * a1 + a2 * a2 + a3 * a3)));
      [apply finite_gate_result | | lra].
    now rewrite applyGateToBloch_r2, E.
  - apply (in_ball_of_r2 (a1 * a1 + a2 * a2 + a3 * a3));
      [apply finite_gate_result | | lra].
    now rewrite applyGateToBloch_r2, E.
Qed.

Lemma builderApplyGate_unit_ball (v : BlochVector) (id : string) :
  in_ball 1 v -> in_ball 1 (builderApplyGate v id).
Proof.
  intros (a1 & a2 & a3 & -> & H & _). unfold builderApplyGate.
  repeat match goal with
         | |- context [if ?c then _ else _] => destruct c
         end;
    cbn [x y z neg]; apply in_ball_small; lra.
Qed.

(** The decoherence pass sends the unit ball into itself. *)
Lemma decoherence_bound (a1 a2 a3 h : R) :
  0 <= h <= 1 / 2 -> a1 * a1 + a2 * a2 + a3 * a3 <= 1 ->
  (a1 * (1 - 2 * h)) * (a1 * (1 - 2 * h)) + (a2 * (1 - 2 * h)) * (a2 * (1 - 2 * h))
  + (a3 * (1 - h) + h) * (a3 * (1 - h) + h) <= 1.
Proof.
  intros Hh H.
  assert (Hz : -1 <= a3 <= 1) by (split; nra).
  assert (Hf : 0 <= (1 - 2 * h) * (1 - 2 * h)) by nra.
  assert (Hxy : (a1 * a1 + a2 * a2) * ((1 - 2 * h) * (1 - 2 * h))
                <= (1 - a3 * a3) * ((1 - 2 * h) * (1 - 2 * h))).
  { apply Rmult_le_compat_r; [exact Hf | lra]. }
  assert (Hid : (1 - a3 * a3) * ((1 - 2 * h) * (1 - 2 * h))
                + (a3 * (1 - h) + h) * (a3 * (1 - h) + h)
                = 1 - h * ((2 - 3 * h) * (1 - a3 * a3) + 2 * (1 - h) * (1 - a3))) by ring.
  assert (H1 : 0 <= (2 - 3 * h) * (1 - a3 * a3)).
  { apply Rmult_le_pos; [lra | nra]. }
  assert (H2 : 0 <= 2 * (1 - h) * (1 - a3)).
  { apply Rmult_le_pos; lra. }
  assert (H3 : 0 <= h * ((2 - 3 * h) * (1 - a3 * a3) + 2 * (1 - h) * (1 - a3))).
  { apply Rmult_le_pos; lra. }
  replace ((a1 * (1 - 2 * h)) * (a1 * (1 - 2 * h)) + (a2 * (1 - 2 * h)) * (a2 * (1 - 2 * h)))
    with ((a1 * a1 + a2 * a2) * ((1 - 2 * h) * (1 - 2 * h))) by ring.
  lra.
Qed.

Lemma applyDecoherence_unit_ball (amount : number) (v : BlochVector) :
  strength amount -> in_ball 1 v -> in_ball 1 (applyDecoherence v amount).
Proof.
  intros (a & -> & Ha) (a1 & a2 & a3 & -> & H & _).
  unfold applyDecoherence. cbn [x y z sub add neg mul].
  rewrite (div_fin_pos a 2) by lra. cbn [sub add neg mul].
  apply in_ball_small; [| lra].
  pose proof (decoherence_bound a1 a2 a3 (a / 2) ltac:(lra) H) as Hb.
  replace (1 + - a) with (1 - 2 * (a / 2)) by lra.
  replace (1 + - (a / 2)) with (1 - a / 2) by lra.
  exact Hb.
Qed.

Lemma qiskitStep_unit_ball (amount : number) (v : BlochVector) (g : CircuitGate) :
  strength amount -> in_ball 1 v ->
  in_ball 1 (qiskitStep amount v g) /\
  qiskitStep amount v g = applyDecoherence (applyGateToBloch v g) amount.
Proof.
  intros Ha Hv. unfold qiskitStep.
  pose proof (applyDecoherence_unit_ball amount _ Ha
                (applyGateToBloch_unit_ball v g Hv)) as Hd.
  rewrite (blen_in_unit_ball _ Hd). now split.
Qed.

Lemma builderStep_unit_ball (amount : number) (v : BlochVector) (id : string) :
  strength amount -> in_ball 1 v ->
  in_ball 1 (builderStep amount v id) /\
  builderStep amount v id = applyDecoherence (builderApplyGate v id) amount.
Proof.
  intros Ha Hv. unfold builderStep.
  pose proof (applyDecoherence_unit_ball amount _ Ha
                (builderApplyGate_unit_ball v id Hv)) as Hd.
  rewrite (blen_in_unit_ball _ Hd). now split.
Qed.

Lemma fold_left_keeps {A S} (P : S -> Prop) (f : S -> A -> S) (l : list A) :
  (forall s a, P s -> P (f s a)) -> forall s, P s -> P (fold_left f l s).
Proof.
  intros Hf. induction l as [| a l IH]; intros s Hs; simpl; [assumption|].
  apply IH. now apply Hf.
Qed.

(** X20. Step-through never leaves the Bloch ball, in exact arithmetic: for a
    gate-noise strength of [0, 1], every gate list and every step index, the
    Qiskit visualizer's vector and the gate builder's state (from a preset of
    the unit ball) have length at most 1. *)
Theorem step_through_in_unit_ball (amount : number) :
  strength amount ->
  (forall gates stepIdx, in_ball 1 (qiskitVec amount gates stepIdx)) /\
  (forall preset circuit count,
     in_ball 1 preset -> in_ball 1 (currentState amount preset circuit count)).
Proof.
  intros Ha. split.
  - intros gates stepIdx. unfold qiskitVec.
    apply fold_left_keeps.
    + intros s g Hs. destruct (touchesQubit0 g); [| assumption].
      now apply qiskitStep_unit_ball.
    + apply in_ball_small; lra.
  - intros preset circuit count Hp. unfold currentState.
    apply fold_left_keeps; [| assumption].
    intros s id Hs. now apply builderStep_unit_ball.
Qed.

Lemma step_through_in_unit_ball_witness :
  (forall gates stepIdx, in_ball 1 (qiskitVec (Fin 0.02) gates stepIdx)) /\
  (forall preset circuit count,
     in_ball 1 preset -> in_ball 1 (currentState (Fin 0.02) preset circuit count)).
Proof. apply step_through_in_unit_ball. exists 0.02. split; [reflexivity | lra]. Defined.

(** X21. The renormalisation of the Qiskit visualizer and of the gate builder
    is never needed in exact arithmetic: on a vector of the unit ball and for
    a strength of [0, 1], a gate step is the gate followed by the decoherence
    pass. *)
Theorem renormalisation_is_idle (amount : number) (v : BlochVector)
    (g : CircuitGate) (id : string) :
  strength amount -> in_ball 1 v ->
  qiskitStep amount v g = applyDecoherence (applyGateToBloch v g) amount /\
  builderStep amount v id = applyDecoherence (builderApplyGate v id) amount.
Proof.
  intros Ha Hv. split.
  - now apply qiskitStep_unit_ball.
  - now apply builderStep_unit_ball.
Qed.

Lemma renormalisation_is_idle_witness :
  qiskitStep (Fin 0.2) plus (on0 "CNOT")
  = applyDecoherence (applyGateToBloch plus (on0 "CNOT")) (Fin 0.2) /\
  builderStep (Fin 0.2) plus "CNOT"
  = applyDecoherence (builderApplyGate plus "CNOT") (Fin 0.2).
Proof.
  apply renormalisation_is_idle.
  - exists 0.2. split; [reflexivity | lra].
  - apply in_ball_small; lra.
Defined.

(** ** The QASM visualizer stays on the sphere *)

Lemma qasmStep_on_sphere (v : BlochVector) (g : CircuitGate) :
  on_sphere v -> on_sphere (qasmStep v g).
Proof.
  intros (a1 & a2 & a3 & -> & H). unfold qasmStep, blen.
  rewrite applyGate_r2, H.
  destruct (finite_gate_result a1 a2 a3 g) as [(b & c1 & c2 & c3 & E & _) _].
  pose proof (applyGate_r2 a1 a2 a3 g) as Hr. rewrite E in *.
  unfold r2_of in Hr. cbn [x y z mul add] in Hr. injection Hr as Hr.
  rewrite (sqrt_fin_pos 1) by lra. rewrite sqrt_1.
  assert (Hg : gtb (Fin 1) (Fin 0) = true) by (apply gtb_fin_true; lra).
  rewrite Hg. unfold divideBy. cbn [x y z].
  rewrite !(div_fin_pos _ 1) by lra.
  eexists _, _, _. split; [reflexivity|].
  replace (c1 / 1) with c1 by field. replace (c2 / 1) with c2 by field.
  replace (c3 / 1) with c3 by field. lra.
Qed.

(** X22. The QASM visualizer's vector is a pure state at every step, in exact
    arithmetic: for every gate list and every step index its components are
    finite and its length is exactly 1. *)
Theorem qasmVec_on_sphere (gates : list CircuitGate) (stepIdx : nat) :
  on_sphere (qasmVec gates stepIdx).
Proof.
  unfold qasmVec. apply fold_left_keeps.
  - intros s g Hs. destruct (actsOnQubit0 g); [| assumption].
    now apply qasmStep_on_sphere.
  - exists 0, 0, 1. split; [reflexivity | lra].
Qed.

(** ** The register size *)

Lemma nq_at_least_1 (gates : list CircuitGate) : (1 <= nq gates)%Z.
Proof.
  unfold nq. induction gates as [| g gates IH]; cbn [map fold_right]; lia.
Qed.

Lemma succNumber_safe (index : Z) :
  (Z.abs index < 2 ^ 53)%Z -> succNumber index = (index + 1)%Z.
Proof. intros H. unfold succNumber. apply TextFacts.toNumber_safe. lia. Qed.

(** X23. The register the QASM visualizer draws is large enough: [nq] is at
    least 1 and exceeds the qubit index and the target index of every gate
    whose index is below 2^53 in magnitude.  (At 2^53 the sum [index + 1]
    rounds back to the index, and [nq] is the index itself.) *)
Theorem nq_fits_every_gate (gates : list CircuitGate) :
  (1 <= nq gates)%Z /\
  (forall g, In g gates ->
     ((Z.abs (qubitOr0 g) < 2 ^ 53)%Z -> (qubitOr0 g < nq gates)%Z) /\
     ((Z.abs (targetOr0 g) < 2 ^ 53)%Z -> (targetOr0 g < nq gates)%Z)) /\
  nq [far_gate] = qubitOr0 far_gate.
Proof.
  split; [apply nq_at_least_1|]. split; [| vm_compute; reflexivity].
  induction gates as [| g0 gates IH]; intros g Hin; [contradiction|].
  change (nq (g0 :: gates))
    with (Z.max (Z.max (succNumber (qubitOr0 g0)) (succNumber (targetOr0 g0)))
                (nq gates)).
  destruct Hin as [-> | Hin].
  - split; intros H; rewrite (succNumber_safe _ H); lia.
  - specialize (IH g Hin). split; intros H; [apply IH in H | apply IH in H]; lia.
Qed.

End CircuitsFacts.

(* ================================================================== *)
(** * The structured circuit of the Qiskit visualizer *)
(* ================================================================== *)

Module Qiskit.
Import JsNumber Bloch Gates.
Local Open Scope string_scope.

(** A value [JSON.parse] returns; the members of an object come in the order
    of the text. *)
#[warnings="-register-all"]
Inductive json : Type :=
| Null
| Bool (b : bool)
| Num (n : number)
| Str (s : string)
| Arr (items : list json)
| Obj (members : list (string * json)).


(** An expression of the component throws a [TypeError] or has a value. *)
Inductive completion (A : Type) : Type :=
| TypeError
| Normal (a : A).

Arguments TypeError {A}.
Arguments Normal {A} a.



(** The member of an object under a name; the last one of that name wins. *)
Fixpoint member (key : string) (members : list (string * json)) : option json :=
  match members with
  | [] => None
  | (k, v) :: rest =>
      match member key rest with
      | Some w => Some w
      | None => if String.eqb k key then Some v else None
      end
  end.

(** [j.key] for the names the component reads ([gates], [qubits], [gate],
    [qubit] and [target], none of which a prototype has): a [TypeError] on
    [null], the member on an object that has it, and [undefined], here
    [None], on everything else. *)
Definition get (key : string) (j : json) : completion (option json) :=
  match j with
  | Null => TypeError
  | Obj members => Normal (member key members)
  | _ => Normal None
  end.

(** ToBoolean. *)
Definition toBoolean (j : json) : bool :=
  match j with
  | Null => false
  | Bool b => b
  | Num n => truthy n
  | Str s => negb (String.eqb s "")
  | Arr _ | Obj _ => true
  end.


(** [config.qubits || 1] *)
Definition nqOf (config : json) : completion json :=
  match get "qubits" config with
  | TypeError => TypeError
  | Normal (Some j) => Normal (if toBoolean j then j else Num (Fin 1))
  | Normal None => Normal (Num (Fin 1))
  end.

(** [x ?? 0] *)
Definition orZero (j : option json) : option json :=
  match j with
  | None | Some Null => Some (Num (Fin 0))
  | _ => j
  end.

(** [x === 0] *)
Definition isZero (j : option json) : bool :=
  match j with
  | Some (Num (Fin r)) => match sgn r with Zero => true | _ => false end
  | _ => false
  end.

(** [(g.qubit ?? 0) === 0 || g.target === 0] on an element of [gates]. *)
Definition touches (g : json) : completion bool :=
  match get "qubit" g with
  | TypeError => TypeError
  | Normal q =>
      if isZero (orZero q) then Normal true
      else match get "target" g with
           | TypeError => TypeError
           | Normal t => Normal (isZero t)
           end
  end.

(** [applyGateToBloch(v, g)] on an element of [gates]: the [switch] compares
    [g.gate] with its seven symbols by [===], so that anything but one of
    these strings falls to [default]. *)
Definition applyParsedGate (v : BlochVector) (g : json) : BlochVector :=
  match get "gate" g with
  | Normal (Some (Str s)) => applyGateToBloch v (mkGate s None None None)
  | _ => v
  end.

(** What follows the gate in the loop of [vec]: the decoherence pass with the
    gate-noise strength and the renormalisation above length 1. *)
Definition decohere (gateNoise : number) (v : BlochVector) : BlochVector :=
  let v := applyDecoherence v gateNoise in
  let L := blen v in
  if gtb L (Fin 1) then divideBy v L else v.

(** One turn of the loop of [vec]. *)
Definition vecStep (gateNoise : number) (v : BlochVector) (g : json)
    : completion BlochVector :=
  match touches g with
  | TypeError => TypeError
  | Normal true => Normal (decohere gateNoise (applyParsedGate v g))
  | Normal false => Normal v
  end.

Fixpoint vecLoop (gateNoise : number) (items : list json) (v : BlochVector)
    : completion BlochVector :=
  match items with
  | [] => Normal v
  | g :: rest =>
      match vecStep gateNoise v g with
      | TypeError => TypeError
      | Normal w => vecLoop gateNoise rest w
      end
  end.

(** [vec] after [stepIdx] gates, from |0>, for [gates] an array of these
    elements. *)
Definition vecOf (gateNoise : number) (stepIdx : nat) (items : list json)
    : completion BlochVector :=
  vecLoop gateNoise (firstn stepIdx items) zero.



(** The object a [CircuitGate] with integer indices is written as. *)
Definition encode (g : CircuitGate) : json :=
  Obj (("gate", Str (gate g))
       :: match qubit g with
          | Some q => [("qubit", Num (Fin (IZR q)))]
          | None => []
          end
       ++ match target g with
          | Some t => [("target", Num (Fin (IZR t)))]
          | None => []
          end)%list.


End Qiskit.

Module ParserFacts.
Import JsNumber JsNumberFacts Bloch BlochFacts Text Gates GatesFacts.
Import Qasm QasmFacts Circuits CircuitsFacts Qiskit.
Local Open Scope string_scope.



(** The gate step of the visualizer is the gate followed by [decohere], and
    the gate reads nothing but the symbol. *)
Lemma qiskitStep_decohere (amount : number) (v : BlochVector) (g : CircuitGate) :
  qiskitStep amount v g = decohere amount (applyGateToBloch v g).
Proof. reflexivity. Qed.

Lemma applyParsedGate_encode (v : BlochVector) (g : CircuitGate) :
  applyParsedGate v (encode g) = applyGateToBloch v g.
Proof.
  unfold applyParsedGate, encode, get. cbn [member].
  assert (E : forall ms, (forall k w, In (k, w) ms -> k <> "gate") ->
                         member "gate" ms = None).
  { induction ms as [| [k w] ms IH]; intros Hk; [reflexivity|].
    cbn [member]. rewrite IH by (intros k' w' Hin; apply (Hk k' w'); now right).
    destruct (String.eqb_spec k "gate") as [-> | _]; [| reflexivity].
    exfalso. apply (Hk "gate" w); [now left | reflexivity]. }
  rewrite E.
  - rewrite String.eqb_refl. reflexivity.
  - intros k w Hin. apply in_app_or in Hin.
    destruct (qubit g), (target g); cbn [In] in Hin;
      destruct Hin as [[Hin | []] | [Hin | []]] || destruct Hin as [[] | [Hin | []]]
      || destruct Hin as [[Hin | []] | []] || destruct Hin as [[] | []];
      injection Hin as <- _; discriminate.
Qed.

Lemma isZero_IZR (q : Z) : isZero (Some (Num (Fin (IZR q)))) = Z.eqb q 0.
Proof.
  cbn [isZero]. destruct (Z.eqb_spec q 0) as [-> | Hq].
  - now rewrite sgn_zero.
  - destruct (sgn (IZR q)) eqn:E; try reflexivity.
    apply sgn_Zero_inv in E. apply eq_IZR in E. contradiction.
Qed.

Lemma touches_encode (g : CircuitGate) :
  touches (encode g) = Normal (touchesQubit0 g).
Proof.
  unfold touches, encode, touchesQubit0, get.
  destruct (qubit g) as [q |], (target g) as [t |];
    cbn -[isZero IZR]; rewrite ?isZero_IZR; cbn [isZero].
  - destruct (Z.eqb q 0); reflexivity.
  - destruct (Z.eqb q 0); reflexivity.
  - now rewrite ?sgn_zero.
  - now rewrite ?sgn_zero.
Qed.

(** On the objects that gates are written as, the loop over the parsed array
    is the loop over the gates. *)
Lemma vecLoop_encode (amount : number) (gs : list CircuitGate) (v : BlochVector) :
  vecLoop amount (map encode gs) v
  = Normal (fold_left
              (fun v g => if touchesQubit0 g then qiskitStep amount v g else v)
              gs v).
Proof.
  revert v. induction gs as [| g gs IH]; intros v; [reflexivity|].
  cbn [map vecLoop fold_left]. unfold vecStep. rewrite touches_encode.
  destruct (touchesQubit0 g); [| apply IH].
  rewrite applyParsedGate_encode, <- qiskitStep_decohere. apply IH.
Qed.

Lemma vecOf_encode (amount : number) (stepIdx : nat) (gs : list CircuitGate) :
  vecOf amount stepIdx (map encode gs) = Normal (qiskitVec amount gs stepIdx).
Proof.
  unfold vecOf, qiskitVec. rewrite firstn_map. apply vecLoop_encode.
Qed.









End ParserFacts.

(* ================================================================== *)
(** * More on the OpenQASM parser *)
(* ================================================================== *)

Module QasmShape.
Import Text Gates Qasm.
Local Open Scope string_scope.

(** The prefixes of the lines [parseQASM] skips. *)
Definition headers : list string := ["OPENQASM"; "include"; "//"; "qreg"; "creg"].

(** No white space and no semicolon. *)
Fixpoint solid (s : string) : bool :=
  match s with
  | EmptyString => true
  | String c s' => negb (is_space c) && negb (Ascii.eqb c ";"%char) && solid s'
  end.

(** What every emitted gate looks like: a qubit index that is not negative,
    no angle, and a target (not negative either) exactly on CNOT. *)
Definition emitted (g : CircuitGate) : Prop :=
  (exists q, qubit g = Some q /\ (0 <= q)%Z) /\
  angle g = None /\
  (gate g = "CNOT" /\ (exists t, target g = Some t /\ (0 <= t)%Z) \/
   gate g <> "CNOT" /\ target g = None).

End QasmShape.

Module QasmShapeFacts.
Import Text Gates Qasm QasmFacts QasmShape.
Local Open Scope string_scope.

Lemma split_lines_nonempty (s : string) : split_lines s <> [].
Proof.
  induction s as [| c s IH]; simpl; [discriminate|].
  destruct (Ascii.eqb c newline); [discriminate|].
  destruct (split_lines s); [contradiction | discriminate].
Qed.

Lemma split_lines_append (a b : string) :
  split_lines (a ++ String newline b) = (split_lines a ++ split_lines b)%list.
Proof.
  induction a as [| c a IH]; simpl.
  - reflexivity.
  - destruct (Ascii.eqb c newline).
    + now rewrite IH.
    + rewrite IH. pose proof (split_lines_nonempty a) as Hne.
      destruct (split_lines a) as [| l ls]; [contradiction | reflexivity].
Qed.

(** X24. The parser is compositional: the gates of two texts joined by a line
    break are the gates of the first followed by the gates of the second, for
    all texts. *)
Theorem parseQASM_append (a b : string) :
  parseQASM (a ++ String newline b) = (parseQASM a ++ parseQASM b)%list.
Proof. unfold parseQASM. now rewrite split_lines_append, flat_map_app. Qed.

(** ** One line, at most one gate *)

Lemma number_of_nonneg (d : string) : (0 <= number_of d)%Z.
Proof.
  unfold number_of. apply TextFacts.toNumber_nonneg, TextFacts.digits_value_nonneg. lia.
Qed.

Lemma indexed_nonneg (s : string) (q : Z) (r : string) :
  indexed s = Some (q, r) -> (0 <= q)%Z.
Proof.
  unfold indexed.
  destruct (some_of is_word s) as [[w s1] |]; [| discriminate].
  destruct (expect "[" s1) as [s2 |]; [| discriminate].
  destruct (some_of is_digit s2) as [[d s3] |]; [| discriminate].
  destruct (expect "]" s3) as [s4 |]; [| discriminate].
  intros E. injection E as <- _. apply number_of_nonneg.
Qed.

Lemma spaced_indexed_nonneg (s : string) (q : Z) (r : string) :
  spaced_indexed s = Some (q, r) -> (0 <= q)%Z.
Proof.
  unfold spaced_indexed.
  destruct (some_of is_space s) as [[w s1] |]; [| discriminate].
  apply indexed_nonneg.
Qed.

Lemma search_measure_nonneg (s : string) (q : Z) :
  search measure_here s = Some q -> (0 <= q)%Z.
Proof.
  induction s as [| c s IH]; simpl.
  - unfold measure_here. simpl. discriminate.
  - destruct (measure_here (String c s)) as [q' |] eqn:E.
    + intros H. injection H as <-. unfold measure_here in E.
      destruct (expect_prefix "measure" (String c s)) as [s1 |]; [| discriminate].
      destruct (spaced_indexed s1) as [[q1 r] |] eqn:E1; [| discriminate].
      simpl in E. injection E as <-. now apply spaced_indexed_nonneg in E1.
    + exact IH.
Qed.

Lemma match_cx_nonneg (s : string) (q t : Z) :
  match_cx s = Some (q, t) -> (0 <= q)%Z /\ (0 <= t)%Z.
Proof.
  unfold match_cx.
  destruct (expect_prefix "cx" s) as [s1 |]; [| discriminate].
  destruct (spaced_indexed s1) as [[q1 s2] |] eqn:E1; [| discriminate].
  destruct (expect "," (any_of is_space s2)) as [s3 |]; [| discriminate].
  destruct (indexed (any_of is_space s3)) as [[t1 r] |] eqn:E2; [| discriminate].
  intros E. injection E as <- <-.
  split; [now apply spaced_indexed_nonneg in E1 | now apply indexed_nonneg in E2].
Qed.

Lemma match_gate_nonneg (s name : string) (q : Z) :
  match_gate s = Some (name, q) -> (0 <= q)%Z.
Proof.
  unfold match_gate.
  destruct (some_of is_word s) as [[w s1] |]; [| discriminate].
  destruct (spaced_indexed s1) as [[q1 r] |] eqn:E1; [| discriminate].
  intros E. injection E as _ <-. now apply spaced_indexed_nonneg in E1.
Qed.

Lemma single_qubit_not_cnot (g : string) : In g singleQubit -> g <> "CNOT".
Proof.
  intros H E. subst g. simpl in H.
  repeat destruct H as [H | H]; try discriminate H. exact H.
Qed.

Lemma parseLine_shape (line : string) :
  (List.length (parseLine line) <= 1)%nat /\ Forall emitted (parseLine line).
Proof.
  unfold parseLine.
  destruct (skipped _); [split; [simpl; lia | constructor]|].
  destruct (prefix "measure" _).
  - unfold match_measure.
    destruct (search measure_here _) as [q |] eqn:E; [| split; [simpl; lia | constructor]].
    split; [simpl; lia|]. constructor; [| constructor].
    unfold emitted; cbn [gate qubit target angle]. repeat split.
    + exists q. split; [reflexivity | now apply search_measure_nonneg in E].
    + right. split; [discriminate | reflexivity].
  - destruct (match_cx _) as [[q t] |] eqn:E.
    + apply match_cx_nonneg in E as [Hq Ht].
      split; [simpl; lia|]. constructor; [| constructor].
      unfold emitted; cbn [gate qubit target angle]. repeat split.
      * now exists q.
      * left. split; [reflexivity | now exists t].
    + destruct (match_gate _) as [[name q] |] eqn:Eg; [| split; [simpl; lia | constructor]].
      destruct (includes singleQubit (toUpperCase name)) eqn:Ei;
        [| split; [simpl; lia | constructor]].
      split; [simpl; lia|]. constructor; [| constructor].
      unfold emitted; cbn [gate qubit target angle]. repeat split.
      * exists q. split; [reflexivity | now apply match_gate_nonneg in Eg].
      * right. split; [| reflexivity].
        apply single_qubit_not_cnot. now apply includes_In.
Qed.

(** X25. One line gives at most one gate, so a program never has more gates
    than lines; and every emitted gate is well formed: a qubit index that is
    not negative, no angle, and a target exactly on CNOT. *)
Theorem parseQASM_shape (src : string) :
  (List.length (parseQASM src) <= List.length (split_lines src))%nat /\
  Forall emitted (parseQASM src).
Proof.
  unfold parseQASM. induction (split_lines src) as [| l ls [IHn IHf]].
  - split; [simpl; lia | constructor].
  - destruct (parseLine_shape l) as [Hn Hf]. simpl. split.
    + rewrite length_app. lia.
    + apply Forall_app. now split.
Qed.

(** ** Headers and comments *)

Lemma trim_end_keeps (pre rest : string) :
  solid pre = true -> exists rest', trim_end (pre ++ rest) = pre ++ rest'.
Proof.
  induction pre as [| c pre IH]; intros H.
  - exists (trim_end rest). reflexivity.
  - simpl in H. apply andb_prop in H as [Hc Hpre]. apply andb_prop in Hc as [Hsp _].
    apply negb_true_iff in Hsp.
    destruct (IH Hpre) as (rest' & E). cbn [append trim_end]. rewrite E.
    destruct (pre ++ rest') eqn:Ep.
    + rewrite Hsp. destruct pre; [| discriminate Ep]. simpl in Ep. subst rest'.
      exists EmptyString. reflexivity.
    + exists rest'. now rewrite Ep.
Qed.

Lemma drop_final_semicolon_keeps (pre rest : string) :
  solid pre = true -> exists rest', drop_final_semicolon (pre ++ rest) = pre ++ rest'.
Proof.
  induction pre as [| c pre IH]; intros H.
  - exists (drop_final_semicolon rest). reflexivity.
  - simpl in H. apply andb_prop in H as [Hc Hpre]. apply andb_prop in Hc as [_ Hsc].
    apply negb_true_iff in Hsc.
    destruct (IH Hpre) as (rest' & E). cbn [append].
    destruct (pre ++ rest) eqn:Ep.
    + cbn [drop_final_semicolon]. rewrite Hsc.
      destruct pre; [| discriminate Ep]. simpl in Ep. subst rest.
      exists EmptyString. reflexivity.
    + change (drop_final_semicolon (String c (String a s)))
        with (String c (drop_final_semicolon (String a s))).
      rewrite E. now exists rest'.
Qed.

Lemma trim_start_solid (pre rest : string) :
  solid pre = true -> pre <> "" -> trim_start (pre ++ rest) = pre ++ rest.
Proof.
  destruct pre as [| c pre]; [congruence|]. intros H _.
  simpl in H. apply andb_prop in H as [Hc _]. apply andb_prop in Hc as [Hsp _].
  apply negb_true_iff in Hsp. simpl. now rewrite Hsp.
Qed.

Lemma prefix_append (pre rest : string) : prefix pre (pre ++ rest) = true.
Proof.
  induction pre as [| c pre IH]; simpl; [now destruct rest|].
  destruct (ascii_dec c c); [exact IH | contradiction].
Qed.

Lemma blank_trims_to_empty (ws : string) :
  Experiments.blank ws = true -> trim_start ws = "".
Proof.
  induction ws as [| c ws IH]; simpl; [reflexivity|].
  intros H. apply andb_prop in H as [Hc Hws]. rewrite Hc. now apply IH.
Qed.

(** X26. Headers and comments never produce a gate, whatever they contain: a
    line that, after its indentation, starts with OPENQASM, include, //, qreg
    or creg is skipped, and so is a line of white space only. *)
Theorem headers_are_skipped (ws pre rest : string) :
  Experiments.blank ws = true ->
  (In pre headers -> parseLine (ws ++ pre ++ rest) = []) /\
  parseLine ws = [].
Proof.
  intros Hws. split.
  - intros Hpre.
    assert (Hs : solid pre = true /\ pre <> "" /\
                 (pre = "OPENQASM" \/ pre = "include" \/ pre = "//"
                  \/ pre = "qreg" \/ pre = "creg")).
    { simpl in Hpre.
      destruct Hpre as [<- | [<- | [<- | [<- | [<- | []]]]]];
        (split; [reflexivity | split; [discriminate | tauto]]). }
    destruct Hs as (Hsolid & Hne & Hcase).
    unfold parseLine, trim.
    rewrite (ExperimentsFacts.trim_start_blank _ _ Hws).
    rewrite (trim_start_solid _ _ Hsolid Hne).
    destruct (trim_end_keeps pre rest Hsolid) as (r1 & ->).
    destruct (drop_final_semicolon_keeps pre r1 Hsolid) as (r2 & ->).
    assert (Hsk : skipped (pre ++ r2) = true).
    { unfold skipped. pose proof (prefix_append pre r2) as Hp.
      destruct Hcase as [-> | [-> | [-> | [-> | ->]]]]; rewrite Hp;
        rewrite ?orb_true_r; reflexivity. }
    now rewrite Hsk.
  - unfold parseLine, trim. now rewrite (blank_trims_to_empty _ Hws).
Qed.

Lemma headers_are_skipped_witness :
  parseLine ("   " ++ "//" ++ " h q[0]; x q[0];") = [] /\ parseLine "   " = [].
Proof.
  destruct (headers_are_skipped "   " "//" " h q[0]; x q[0];" eq_refl) as [H1 H2].
  split; [apply H1 | exact H2]. simpl. tauto.
Defined.

End QasmShapeFacts.

(* ================================================================== *)
(** * The timer-driven copy of the evolution hook *)
(* ================================================================== *)

Module Timer.
Import JsNumber Bloch Gates.
Local Open Scope js_scope.

(** [Math.max] and [Math.min] of two numbers: NaN as soon as one is NaN. *)
Definition jmax (a b : number) : number :=
  match a, b with
  | NaN, _ => NaN
  | _, NaN => NaN
  | _, _ => if a >? b then a else b
  end.

Definition jmin (a b : number) : number :=
  match a, b with
  | NaN, _ => NaN
  | _, NaN => NaN
  | _, _ => if a >? b then b else a
  end.

(** [clamp(v, min, max) = Math.max(min, Math.min(max, v))] *)
Definition clampTo (v lo hi : number) : number := jmax lo (jmin hi v).

(** [evolve], [draw1] and [draw2] being the values of its two calls of
    [Math.random()]. *)
Definition evolve (draw1 draw2 : number) (prev : BlochVector) (noise : NoiseParams)
    : BlochVector :=
  let speed := clampTo (speed noise ||| Fin 1) (Fin 0.1) (Fin 10) in
  let v := prev in
  let v := if bitFlip noise * Fin 0.04 * speed >? draw1
           then mkBloch (x v) (- y v) (- z v) else v in
  let v := if phaseFlip noise * Fin 0.04 * speed >? draw2
           then mkBloch (- x v) (- y v) (z v) else v in
  let dephase :=
    clampTo (Fin 1 - (phaseFlip noise + depolarizing noise) * Fin 0.02 * speed)
            (Fin 0) (Fin 1) in
  let v := mkBloch (x v * dephase) (y v * dephase) (z v) in
  let damp := clampTo (amplitudeDamping noise * Fin 0.02 * speed) (Fin 0) (Fin 1) in
  let v := mkBloch (x v * (Fin 1 - damp * Fin 0.6)) (y v * (Fin 1 - damp * Fin 0.6))
                   (z v * (Fin 1 - damp) + damp) in
  let depFactor :=
    clampTo (Fin 1 - depolarizing noise * Fin 0.03 * speed) (Fin 0) (Fin 1) in
  let v := mkBloch (x v * depFactor) (y v * depFactor) (z v * depFactor) in
  let L := blen v in
  if L >? Fin 1 then divideBy v L else v.

(** [[...h.slice(-600), next]] *)
Definition pushHistory (h : list BlochVector) (next : BlochVector) : list BlochVector :=
  slice_last 600 h ++ [next].

(** The rescaling every visualizer ends a step with:
    [if (L > 1) { v.x /= L; v.y /= L; v.z /= L }]. *)
Definition renormalise (v : BlochVector) : BlochVector :=
  if blen v >? Fin 1 then divideBy v (blen v) else v.

End Timer.

Module TimerFacts.
Import JsNumber JsNumberFacts Bloch BlochFacts Gates GatesFacts Timer.
Local Open Scope R_scope.

Lemma clampTo_fin (v lo hi : R) :
  lo <= hi ->
  exists c, clampTo (Fin v) (Fin lo) (Fin hi) = Fin c /\ lo <= c <= hi /\
            (lo <= v <= hi -> c = v).
Proof.
  intros H. unfold clampTo, jmin, jmax. cbn [gtb].
  destruct (Rlt_dec v hi) as [Hv | Hv]; cbn [gtb].
  - destruct (Rlt_dec v lo) as [Hl | Hl].
    + exists lo. repeat split; lra.
    + exists v. repeat split; lra.
  - destruct (Rlt_dec hi lo) as [Hl | Hl].
    + lra.
    + exists hi. repeat split; lra.
Qed.

(** Rescaling a finite vector leaves it in the unit ball. *)
Lemma renormalise_in_unit_ball (v : BlochVector) :
  finite_vec v -> in_ball 1 (renormalise v).
Proof.
  intros (b & a1 & a2 & a3 & -> & _).
  unfold renormalise, blen, r2_of. cbn [x y z mul add].
  set (q := a1 * a1 + a2 * a2 + a3 * a3).
  assert (Hq : 0 <= q) by (unfold q; nra).
  rewrite (sqrt_fin_nonneg q Hq). cbn [gtb].
  assert (Hsq : R_sqrt.sqrt q * R_sqrt.sqrt q = q) by (now apply sqrt_sqrt).
  pose proof (sqrt_pos q) as Hs0.
  destruct (Rlt_dec 1 (R_sqrt.sqrt q)) as [Hgt | Hle].
  - unfold divideBy. cbn [x y z]. rewrite !(div_fin_pos _ (R_sqrt.sqrt q)) by lra.
    apply in_ball_small; [| lra].
    set (c := R_sqrt.sqrt q) in *.
    match goal with
    | |- ?X <= _ => assert (HX : X = q / (c * c)) by (unfold q; field; lra)
    end.
    rewrite HX, Hsq. unfold Rdiv. rewrite Rinv_r by nra. lra.
  - apply in_ball_small; [| lra]. fold q. nra.
Qed.

Lemma evolve_renormalises (d1 d2 : number) (prev : BlochVector) (noise : NoiseParams) :
  exists w, evolve d1 d2 prev noise = renormalise w /\
            (finite_noise noise -> finite_vec prev -> finite_vec w).
Proof.
  unfold evolve. eexists. split; [reflexivity|].
  intros (d & p & bf & am & s & ->) (b & a1 & a2 & a3 & -> & _).
  cbn [speed bitFlip phaseFlip depolarizing amplitudeDamping].
  destruct (rate_finite s) as (r & -> & _ & _).
  destruct (clampTo_fin r 0.1 10 ltac:(lra)) as (sp & -> & _ & _).
  cbn [mul add sub neg].
  destruct (clampTo_fin (1 + - ((p + d) * 0.02 * sp)) 0 1 ltac:(lra)) as (c1 & -> & _ & _).
  destruct (clampTo_fin (am * 0.02 * sp) 0 1 ltac:(lra)) as (c2 & -> & _ & _).
  destruct (clampTo_fin (1 + - (d * 0.03 * sp)) 0 1 ltac:(lra)) as (c3 & -> & _ & _).
  destruct (gtb (Fin (bf * 0.04 * sp)) d1); destruct (gtb (Fin (p * 0.04 * sp)) d2);
    cbn [x y z mul add sub neg];
    eexists _, _, _, _; (split; [reflexivity | apply Rle_refl]).
Qed.

(** X27. The timer-driven stepper always lands in the unit ball, in exact
    arithmetic: for finite parameters and any finite vector, of any length,
    whatever the two draws, [evolve] returns a vector of length at most 1. *)
Theorem evolve_in_unit_ball (d1 d2 : number) (prev : BlochVector) (noise : NoiseParams) :
  finite_noise noise -> finite_vec prev ->
  in_ball 1 (evolve d1 d2 prev noise).
Proof.
  intros Hn Hv. destruct (evolve_renormalises d1 d2 prev noise) as (w & -> & Hw).
  apply renormalise_in_unit_ball. now apply Hw.
Qed.

Lemma evolve_in_unit_ball_witness :
  in_ball 1 (evolve (Fin 0.5) NaN (mkBloch (Fin 3) (Fin 4) (Fin 0)) noisy).
Proof.
  apply evolve_in_unit_ball.
  - exists 0.5, 0.2, 0.1, 0.3, 1. reflexivity.
  - exists 25, 3, 4, 0. split; [reflexivity | lra].
Defined.

(** X28. With the four strengths at 0 the timer-driven stepper is the
    identity on the unit ball, in exact arithmetic: for every finite speed and
    draws that are not negative, [evolve] returns the vector it was given. *)
Theorem evolve_zero_noise (r1 r2 s : R) (v : BlochVector) :
  0 <= r1 -> 0 <= r2 -> in_ball 1 v ->
  evolve (Fin r1) (Fin r2) v (mkNoise (Fin 0) (Fin 0) (Fin 0) (Fin 0) (Fin s)) = v.
Proof.
  intros H1 H2 Hv. pose proof Hv as (a1 & a2 & a3 & -> & H & _).
  unfold evolve. cbn [speed bitFlip phaseFlip depolarizing amplitudeDamping].
  destruct (rate_finite s) as (r & -> & _ & _).
  destruct (clampTo_fin r 0.1 10 ltac:(lra)) as (sp & -> & _ & _).
  cbn [mul add sub neg].
  destruct (clampTo_fin (1 + - ((0 + 0) * 0.02 * sp)) 0 1 ltac:(lra)) as (c1 & -> & _ & E1).
  destruct (clampTo_fin (0 * 0.02 * sp) 0 1 ltac:(lra)) as (c2 & -> & _ & E2).
  destruct (clampTo_fin (1 + - (0 * 0.03 * sp)) 0 1 ltac:(lra)) as (c3 & -> & _ & E3).
  rewrite E1, E2, E3 by lra.
  assert (F1 : gtb (Fin (0 * 0.04 * sp)) (Fin r1) = false) by (apply gtb_fin_false; lra).
  assert (F2 : gtb (Fin (0 * 0.04 * sp)) (Fin r2) = false) by (apply gtb_fin_false; lra).
  rewrite F1, F2. cbn [x y z mul add sub neg].
  match goal with
  | |- (if gtb (blen ?w) _ then _ else _) = _ =>
      assert (Ew : w = mkBloch (Fin a1) (Fin a2) (Fin a3))
        by (f_equal; f_equal; ring)
  end.
  rewrite Ew. now rewrite (blen_in_unit_ball _ Hv).
Qed.

Lemma evolve_zero_noise_witness :
  evolve (Fin 0.3) (Fin 0.9) plus (mkNoise (Fin 0) (Fin 0) (Fin 0) (Fin 0) (Fin 2)) = plus.
Proof.
  apply evolve_zero_noise; try lra. apply in_ball_small; lra.
Defined.

(** X29. The timer-driven hook keeps up to 601 history entries, one more than
    the frame-driven hook: a push keeps the last 600 entries and then appends
    the new one. *)
Theorem timer_history_capacity (h : list BlochVector) (next : BlochVector) :
  List.length (pushHistory h next) = S (Nat.min 600 (List.length h)) /\
  (List.length (pushHistory h next) <= 601)%nat /\
  ((600 <= List.length h)%nat -> List.length (pushHistory h next) = 601%nat) /\
  last (pushHistory h next) next = next.
Proof.
  unfold pushHistory. rewrite length_app. unfold slice_last.
  rewrite length_skipn. cbn [List.length]. repeat split; try lia.
  apply last_last.
Qed.

End TimerFacts.
